(** * schema-validator: the Schema resolution engine

    A shallow embedding of [dist/schema-validator.esm.js] (v2.6.0): the
    path/object utilities, the [ValidationError] error model, the [Schema]
    node with its settings getter, path resolution, construction and the
    recursive [parse] procedure, followed by the properties proved about
    them.

    Conventions of the embedding.
    - A JavaScript value is a term of [value].  Objects are association
      lists in key-insertion order, each key bound once.  Function values
      are references [VFun name ref]; what calling one does is given by
      the section variable [call].  Numbers are the integers and [NaN];
      a string's characters are its bytes.
    - Property reads see own properties only; what a value inherits from
      its prototype is outside the model.
    - A thrown exception is a term of [error]; a computation that may
      throw returns a [result].
    - The two fields of a node that [parse] mutates ([currentType] and
      [_defaultSettings]) are threaded explicitly: a method that may write
      them returns the node it leaves behind.  The settings getter merges
      into [_defaultSettings] and returns that object; reading it twice in
      a row gives the same object ([touch_idem]), so consecutive reads
      are written as one.  An error's [field] is the node as it was when
      the error was made.
    - Recursion through loaders is not bounded by the data, so
      [parseProperty] and [parse] take a fuel argument; [None] means the
      fuel ran out.
    - Message templating ([Utils.render]) and the host's conversions are
      section variables, taken to return.  Regular expressions built from
      property names take the names literally.
    - A schema description that embeds a [Schema] instance (cloned by
      [cloneSchema]) is outside the model: [Schema_new] answers [None].
      [cloneSchema] itself is modelled on nodes.
    - [Transformers.Array.parse] builds a schema for each item and parses
      with it, so it takes fuel and stands beside the registry, whose
      methods take none.  The transformers of values the model does not
      have (BigInt, Date, Promise, Set) are left out. *)

From Stdlib Require Import List String Ascii ZArith Bool Lia Arith.
From Stdlib Require Import DecimalString.
Import ListNotations.
Local Open Scope string_scope.
Local Open Scope list_scope.
Set Warnings "-register-all".

(** ** JavaScript values *)

Inductive value : Type :=
| VUndefined
| VNull
| VBool (b : bool)
| VNum (n : Z)
| VNaN
| VStr (s : string)
| VFun (fname : string) (ref : nat)
| VArr (items : list value)
| VObj (props : list (string * value)).

Definition props := list (string * value).

(** [typeof v] *)
Definition typeof (v : value) : string :=
  match v with
  | VUndefined => "undefined"
  | VNull => "object"
  | VBool _ => "boolean"
  | VNum _ | VNaN => "number"
  | VStr _ => "string"
  | VFun _ _ => "function"
  | VArr _ | VObj _ => "object"
  end.

(** Truthiness, as tested by [if (v)], [!v], [a && b], [a || b]. *)
Definition truthy (v : value) : bool :=
  match v with
  | VUndefined | VNull | VNaN => false
  | VBool b => b
  | VNum n => negb (Z.eqb n 0)
  | VStr s => negb (String.eqb s "")
  | VFun _ _ | VArr _ | VObj _ => true
  end.

Definition is_undefined (v : value) : bool :=
  match v with VUndefined => true | _ => false end.

Definition is_null (v : value) : bool :=
  match v with VNull => true | _ => false end.

Definition isArray (v : value) : bool :=
  match v with VArr _ => true | _ => false end.

Definition is_object (v : value) : bool := String.eqb (typeof v) "object".

Definition is_function (v : value) : bool :=
  match v with VFun _ _ => true | _ => false end.

(** [v === 'lit'] for a string literal. *)
Definition is_str (v : value) (lit : string) : bool :=
  match v with VStr s => String.eqb s lit | _ => false end.

Definition string_of_nat (n : nat) : string :=
  NilEmpty.string_of_uint (Nat.to_uint n).

Definition string_of_Z (z : Z) : string :=
  NilEmpty.string_of_int (Z.to_int z).

Fixpoint index_from {A : Type} (i : nat) (l : list A) : list (string * A) :=
  match l with
  | [] => []
  | x :: r => (string_of_nat i, x) :: index_from (S i) r
  end.

Fixpoint chars (s : string) : list value :=
  match s with
  | EmptyString => []
  | String c r => VStr (String c EmptyString) :: chars r
  end.

(** The own enumerable properties of a value, in [Object.keys] order. *)
Definition own_entries (v : value) : props :=
  match v with
  | VObj ps => ps
  | VArr items => index_from 0 items
  | VStr s => index_from 0 (chars s)
  | _ => []
  end.

Fixpoint assoc (k : string) (ps : props) : option value :=
  match ps with
  | [] => None
  | (k', v) :: r => if String.eqb k k' then Some v else assoc k r
  end.

Definition hasOwn (v : value) (k : string) : bool :=
  match assoc k (own_entries v) with Some _ => true | None => false end.

(** [o[k]] on a value that is neither [undefined] nor [null]. *)
Definition get (o : value) (k : string) : value :=
  match assoc k (own_entries o) with
  | Some v => v
  | None =>
      match o with
      | VArr items =>
          if String.eqb k "length" then VNum (Z.of_nat (List.length items))
          else VUndefined
      | VStr s =>
          if String.eqb k "length" then VNum (Z.of_nat (String.length s))
          else VUndefined
      | VFun fname _ => if String.eqb k "name" then VStr fname else VUndefined
      | _ => VUndefined
      end
  end.

Definition pget (ps : props) (k : string) : value :=
  match assoc k ps with Some v => v | None => VUndefined end.

(** [o[k] = v]: an existing key keeps its place. *)
Fixpoint pset (ps : props) (k : string) (v : value) : props :=
  match ps with
  | [] => [(k, v)]
  | (k', v') :: r =>
      if String.eqb k k' then (k', v) :: r else (k', v') :: pset r k v
  end.

Fixpoint pdelete (ps : props) (k : string) : props :=
  match ps with
  | [] => []
  | (k', v') :: r =>
      if String.eqb k k' then pdelete r k else (k', v') :: pdelete r k
  end.

(** [Object.assign(target, source)] for one source. *)
Definition assign1 (target : props) (source : value) : props :=
  fold_left (fun t kv => pset t (fst kv) (snd kv)) (own_entries source) target.

Definition assign (target : props) (sources : list value) : props :=
  fold_left assign1 sources target.

(** [String(v)], the key [v] is read as in [o[v]]: [None] for a function
    (its source text) and for a number printed with an exponent. *)
Fixpoint keyOf (v : value) : option string :=
  match v with
  | VStr s => Some s
  | VUndefined => Some "undefined"
  | VNull => Some "null"
  | VBool b => Some (if b then "true" else "false")
  | VNum n =>
      if Z.ltb (Z.abs n) (10 ^ 21) then Some (string_of_Z n) else None
  | VNaN => Some "NaN"
  | VFun _ _ => None
  | VObj _ => Some "[object Object]"
  | VArr items =>
      (fix join (items : list value) : option string :=
         match items with
         | [] => Some ""
         | x :: r =>
             match (match x with
                    | VUndefined | VNull => Some ""
                    | _ => keyOf x
                    end) with
             | None => None
             | Some a =>
                 match r with
                 | [] => Some a
                 | _ =>
                     match join r with
                     | Some b => Some (a ++ "," ++ b)%string
                     | None => None
                     end
                 end
             end
         end) items
  end.

(** ** String helpers *)

Definition dot : ascii := "."%char.

Definition is_line_end (c : ascii) : bool :=
  Ascii.eqb c "010"%char || Ascii.eqb c "013"%char.

Fixpoint has_char (p : ascii -> bool) (s : string) : bool :=
  match s with
  | EmptyString => false
  | String c r => p c || has_char p r
  end.

(** [s.split(/\./)] *)
Fixpoint split_dots_aux (cur : string) (s : string) : list string :=
  match s with
  | EmptyString => [cur]
  | String c r =>
      if Ascii.eqb c dot then cur :: split_dots_aux "" r
      else split_dots_aux (cur ++ String c EmptyString)%string r
  end.

Definition split_dots (s : string) : list string := split_dots_aux "" s.

(** [s.replace(/\..*$/)]: the pattern matches from the first dot that no
    line end follows up to the end of the string; called with no
    replacement, the match is replaced by the text [undefined]. *)
Fixpoint replace_dot_tail (s : string) : string :=
  match s with
  | EmptyString => EmptyString
  | String c r =>
      if Ascii.eqb c dot && negb (has_char is_line_end r) then "undefined"
      else String c (replace_dot_tail r)
  end.

Fixpoint strip_prefix (p s : string) : option string :=
  match p, s with
  | EmptyString, _ => Some s
  | String a p', String b s' => if Ascii.eqb a b then strip_prefix p' s' else None
  | String _ _, EmptyString => None
  end.

Definition mem_str (k : string) (l : list string) : bool :=
  existsb (String.eqb k) l.

(** ** Schema nodes, errors and results *)

(** One node of the schema tree.  [parent] is the chain of ancestors used
    by [fullPath] and [getDefault]; [type] is what [guessType] returned;
    [_validate] and [_cast] are the schema-level hooks ([undefined] when
    absent).  The fields [schema] and [originalName] are never read by
    the methods below and are left out. *)
Inductive Schema : Type := mkSchema {
  name : string;
  parent : option Schema;
  type : value;
  currentType : value;
  children : list Schema;
  _settings : props;
  _defaultSettings : props;
  _defaultValues : value;
  _validate : value;
  _cast : value
}.

(** What a [throw] carries: a [ValidationError] with its rendered
    message, sub-errors, [value] and [field] (absent when [undefined]),
    or a plain [Error] / [TypeError]. *)
Inductive error : Type :=
| ValidationError (message : string) (errors : list error) (v : value)
    (field : option Schema)
| Error (message : string)
| TypeError (message : string).

Inductive result (A : Type) : Type :=
| Ok (a : A)
| Throw (e : error).
Arguments Ok {A} a.
Arguments Throw {A} e.

Definition instanceof_ValidationError (e : error) : bool :=
  match e with ValidationError _ _ _ _ => true | _ => false end.

Definition error_errors (e : error) : list error :=
  match e with ValidationError _ errs _ _ => errs | _ => [] end.

Definition error_message (e : error) : string :=
  match e with
  | ValidationError m _ _ _ => m
  | Error m => m
  | TypeError m => m
  end.

Definition error_field (e : error) : option Schema :=
  match e with ValidationError _ _ _ f => f | _ => None end.

Definition error_value (e : error) : value :=
  match e with ValidationError _ _ v _ => v | _ => VUndefined end.

Definition nullish (v : value) : bool := is_undefined v || is_null v.

Definition null_read : error :=
  TypeError "Cannot read properties of undefined or null".

(** ** Utils *)

Definition castArray (v : value) : list value :=
  match v with VArr items => items | _ => [v] end.

(** [Utils.obj2dot]: one entry [prop] of the object being flattened. *)
Fixpoint obj2dot_entry (parent prop : string) (v : value) {struct v}
  : list string :=
  match v with
  | VObj ps =>
      (fix go (ps : props) : list string :=
         match ps with
         | [] => []
         | (k, x) :: r => obj2dot_entry (parent ++ prop ++ ".")%string k x ++ go r
         end) ps
  | _ => [(parent ++ prop)%string]
  end.

Definition obj2dot (obj : value) : list string :=
  flat_map (fun kv => obj2dot_entry "" (fst kv) (snd kv)) (own_entries obj).

(** [obj[prop]] where [obj] may be [undefined] or [null]. *)
Definition read (obj : value) (prop : string) : result value :=
  if nullish obj then Throw null_read else Ok (get obj prop).

(** [Utils.find]: only the first two segments of the path are looked at. *)
Definition find (obj : value) (path : string) : result value :=
  match split_dots path with
  | prop :: paths :: _ =>
      if nullish obj then Throw null_read
      else if negb (String.eqb paths "") && is_object (get obj prop)
           then read (get obj prop) paths
           else Ok (get obj prop)
  | prop :: [] => read obj prop
  | [] => read obj ""
  end.

(** [Utils.castThrowable] *)
Definition castThrowable (v : value) (err : value) : value * value :=
  match v with
  | VArr [a; b] => (a, b)
  | _ => (v, err)
  end.

(** The capture of [^property\.(.+)$] in [v]; the property name is taken
    literally. *)
Definition propMatch (property v : string) : option string :=
  match strip_prefix (property ++ ".")%string v with
  | Some rest =>
      if String.eqb rest "" || has_char is_line_end rest then None
      else Some rest
  | None => None
  end.

Fixpoint filter_map {A B : Type} (f : A -> option B) (l : list A) : list B :=
  match l with
  | [] => []
  | x :: r =>
      match f x with Some y => y :: filter_map f r | None => filter_map f r end
  end.

(** The callback of the second loop of [Utils.propertiesRestricted], for
    the key [property] bound to [x]: [rec] is the recursive call on [x],
    [next] the rest of the loop (taken when the callback does not return
    [false]). *)
Definition restricted_step (properties : list string) (property : string)
    (x : value) (rec : list string -> result bool) (next : result bool)
  : result bool :=
  if is_object x && negb (isArray x) then
    let childProps := filter_map (propMatch property) properties in
    let defaultApproved :=
      mem_str property properties
      && match childProps with [] => true | _ => false end in
    if defaultApproved then next
    else match rec childProps with
         | Throw e => Throw e
         | Ok true => next
         | Ok false => Ok false
         end
  else if mem_str property properties then next else Ok false.

(** [Utils.propertiesRestricted] with [strict] off, the only mode the
    engine uses. *)
Fixpoint propertiesRestricted (obj : value) (properties : list string)
    {struct obj} : result bool :=
  match obj with
  | VNull => Throw (TypeError "Cannot convert undefined or null to object")
  | VObj ps =>
      (fix loop (ps : props) : result bool :=
         match ps with
         | [] => Ok true
         | (k, x) :: r =>
             restricted_step properties k x (propertiesRestricted x) (loop r)
         end) ps
  | VArr items =>
      (fix loop (i : nat) (items : list value) : result bool :=
         match items with
         | [] => Ok true
         | x :: r =>
             restricted_step properties (string_of_nat i) x
               (propertiesRestricted x) (loop (S i) r)
         end) 0%nat items
  | _ => Ok false
  end.

(** [property.indexOf('.') > 0] *)
Definition dot_after_first (property : string) : bool :=
  match property with
  | EmptyString => false
  | String c r => negb (Ascii.eqb c dot) && has_char (Ascii.eqb dot) r
  end.

(** [Utils.getSubProperties]: the properties under [parent], without the
    prefix; the parent name is taken literally. *)
Definition getSubProperties (properties : list string) (parent : string)
  : list string :=
  filter_map (strip_prefix (parent ++ ".")%string) properties.

(** [Object.prototype.hasOwnProperty.call(o, k)] on an object or an
    array. *)
Definition hasOwnProperty (o : value) (k : string) : bool :=
  hasOwn o k || (isArray o && String.eqb k "length").

Definition null_convert : error :=
  TypeError "Cannot convert undefined or null to object".

(** [Utils.propertiesRestricted] with [strict] on: every property has to
    be there (a dotted one is looked for under its first segment, strictly
    again), and then the object is checked as with [strict] off. *)
Fixpoint propertiesRestricted_strict (obj : value) (properties : list string)
    {struct obj} : result bool :=
  match obj with
  | VNull =>
      match properties with
      | property :: _ =>
          if dot_after_first property then Throw null_read
          else Throw null_convert
      | [] => Throw null_convert
      end
  | VObj ps =>
      match
        (fix each (todo : list string) : result bool :=
           match todo with
           | [] => Ok true
           | property :: r =>
               if dot_after_first property then
                 let parent := hd "" (split_dots property) in
                 match
                   (fix under (ps : props) : result bool :=
                      match ps with
                      | [] => Ok false
                      | (k, x) :: r' =>
                          if String.eqb parent k
                          then propertiesRestricted_strict x
                                 (getSubProperties properties parent)
                          else under r'
                      end) ps
                 with
                 | Throw e => Throw e
                 | Ok true => each r
                 | Ok false => Ok false
                 end
               else if hasOwnProperty obj property then each r
                    else Ok false
           end) properties
      with
      | Throw e => Throw e
      | Ok true => propertiesRestricted obj properties
      | Ok false => Ok false
      end
  | VArr items =>
      match
        (fix each (todo : list string) : result bool :=
           match todo with
           | [] => Ok true
           | property :: r =>
               if dot_after_first property then
                 let parent := hd "" (split_dots property) in
                 match
                   (fix under (i : nat) (items : list value) : result bool :=
                      match items with
                      | [] => Ok false
                      | x :: r' =>
                          if String.eqb parent (string_of_nat i)
                          then propertiesRestricted_strict x
                                 (getSubProperties properties parent)
                          else under (S i) r'
                      end) 0%nat items
                 with
                 | Throw e => Throw e
                 | Ok true => each r
                 | Ok false => Ok false
                 end
               else if hasOwnProperty obj property then each r
                    else Ok false
           end) properties
      with
      | Throw e => Throw e
      | Ok true => propertiesRestricted obj properties
      | Ok false => Ok false
      end
  | _ => Ok false
  end.

(** ** Transformers *)

(** A transformer ([@typedef Transformer]): its settings object and
    loaders are values ([undefined] when not declared); its three methods,
    when declared, are called with the node as [this]. *)
Record Transformer : Type := mkTransformer {
  T_settings : value;
  T_cast : option (Schema -> value -> result value);
  T_validate : option (Schema -> value -> result value);
  T_parse : option (Schema -> value -> result value);
  T_loaders : value
}.

(** ** Field updates of a node *)

Definition set_defaultSettings (s : Schema) (d : props) : Schema :=
  mkSchema (name s) (parent s) (type s) (currentType s) (children s)
    (_settings s) d (_defaultValues s) (_validate s) (_cast s).

Definition set_currentType (s : Schema) (t : value) : Schema :=
  mkSchema (name s) (parent s) (type s) t (children s)
    (_settings s) (_defaultSettings s) (_defaultValues s) (_validate s)
    (_cast s).

Definition set_children (s : Schema) (cs : list Schema) : Schema :=
  mkSchema (name s) (parent s) (type s) (currentType s) cs
    (_settings s) (_defaultSettings s) (_defaultValues s) (_validate s)
    (_cast s).

(** ** Schema: getters and path resolution *)

Definition hasChildren (s : Schema) : bool :=
  match children s with [] => false | _ => true end.

(** [get fullPath] *)
Fixpoint fullPath (s : Schema) : string :=
  match s with
  | mkSchema nm par _ _ _ _ _ _ _ _ =>
      ((match par with
        | Some p =>
            let pp := fullPath p in
            if String.eqb pp "" then "" else pp ++ "."
        | None => ""
        end) ++ nm)%string
  end.

(** [get ownPaths] *)
Definition ownPaths (s : Schema) : list string := map name (children s).

Definition name_prefix (s : Schema) : string :=
  if String.eqb (name s) "" then "" else (name s ++ ".")%string.

(** [get paths] *)
Fixpoint paths (s : Schema) : list string :=
  match s with
  | mkSchema nm _ _ _ cs _ _ _ _ _ =>
      match cs with
      | [] => [nm]
      | _ =>
          (fix each (cs : list Schema) : list string :=
             match cs with
             | [] => []
             | c :: r =>
                 map (fun path =>
                        ((if String.eqb nm "" then "" else nm ++ ".") ++ path)%string)
                     (paths c) ++ each r
             end) cs
      end
  end.

(** The loop of [schemaAtPath]: the first child called [path]. *)
Definition childNamed (s : Schema) (path : string) : option Schema :=
  List.find (fun c => String.eqb (name c) path) (children s).

(** [schemaAtPath]: [Ok None] is a returned [undefined]. *)
Definition schemaAtPath (s : Schema) (pathName : string)
  : result (option Schema) :=
  match split_dots pathName with
  | path :: rest :: _ =>
      if String.eqb rest "" then Ok (childNamed s path)
      else match childNamed s path with
           | Some schema => Ok (childNamed schema rest)
           | None => Throw null_read
           end
  | path :: [] => Ok (childNamed s path)
  | [] => Ok (childNamed s "")
  end.

(** [hasField] *)
Definition hasField (s : Schema) (fieldName : string) : bool :=
  mem_str fieldName (paths s).

(** [getDefault]; the argument [child] is [""] when it is [undefined]. *)
Fixpoint getDefault (s : Schema) (child : string) : result value :=
  match s with
  | mkSchema nm par _ _ _ _ _ dv _ _ =>
      match par with
      | Some p =>
          getDefault p
            (if String.eqb child "" then nm else nm ++ "." ++ child)%string
      | None =>
          if String.eqb child "" then Ok VUndefined else find dv child
      end
  end.

(** [Schema.guessType] on a schema description holding no [Schema]
    instance. *)
Fixpoint guessType (v : value) : result value :=
  match v with
  | VFun fname _ => Ok (VStr fname)
  | VNull => Throw null_read
  | VObj ps =>
      (fix look (ps : props) : result value :=
         match ps with
         | [] => Ok (VStr "Object")
         | (k, x) :: r =>
             if String.eqb k "type"
             then if truthy x then guessType x else Ok (VStr "Object")
             else look r
         end) ps
  | VArr items =>
      match (fix each (items : list value) : result (list value) :=
               match items with
               | [] => Ok []
               | x :: r =>
                   match guessType x with
                   | Throw e => Throw e
                   | Ok t =>
                       match each r with
                       | Throw e => Throw e
                       | Ok ts => Ok (t :: ts)
                       end
                   end
               end) items
      with
      | Ok ts => Ok (VArr ts)
      | Throw e => Throw e
      end
  | _ => Ok v
  end.

(** [Schema.cloneSchema({ schema, name, parent, settings, defaultValues })];
    [name] is [""] when it is not given.  The clone has the fields of
    [schema] with its own name, parent, [_defaultValues] and [_settings],
    and clones of the children of [schema], made with no name, no settings
    and no default values.  It holds the [_defaultSettings] object of
    [schema] itself: what a later read of the clone's settings writes
    there, [schema] sees too. *)
Fixpoint cloneSchema (schema : Schema) (nm : string) (par : option Schema)
    (settings0 : props) (defaultValues : value) : Schema :=
  match schema with
  | mkSchema snm _ ty ct cs _ ds _ vl cst =>
      let clonedSchema :=
        mkSchema (if String.eqb nm "" then snm else nm) par ty ct cs
          (assign [] [VObj settings0]) ds defaultValues vl cst in
      set_children clonedSchema
        ((fix each (cs : list Schema) : list Schema :=
            match cs with
            | [] => []
            | theSchema :: r =>
                cloneSchema theSchema "" (Some clonedSchema) [] (VObj [])
                :: each r
            end) cs)
  end.

(** ** Sequencing of computations that may throw *)

Definition bind {A B : Type} (r : result A) (k : A -> result B) : result B :=
  match r with
  | Ok a => k a
  | Throw e => Throw e
  end.

Notation "x <- e ;; k" := (bind e (fun x => k))
  (at level 61, e at next level, right associativity).

(** A method that may write to its node and may run out of fuel: the
    outcome and the node left behind. *)
Definition M : Type := option (result value * Schema).

Definition andThen (m : M) (k : value -> Schema -> M) : M :=
  match m with
  | None => None
  | Some (Throw e, s) => Some (Throw e, s)
  | Some (Ok v, s) => k v s
  end.

(** ** The resolution engine *)

Section Engine.

(** [call ref this arg]: calling the function behind [VFun _ ref]. *)
Variable call : nat -> Schema -> value -> result value.
(** [Utils.render]: interpolation of an error message template against
    [{ errors, value, field }]. *)
Variable render : string -> list error -> value -> option Schema -> string.
(** The text inside a template literal of a value that [keyOf] leaves
    out. *)
Variable display : value -> string.
(** The registry [Transformers], by name. *)
Variable Transformers : string -> option Transformer.

(** [Transformers[t]] *)
Definition transformerOf (t : value) : option Transformer :=
  match keyOf t with
  | Some n => Transformers n
  | None => None
  end.

(** [`${v}`] *)
Definition textOf (v : value) : string :=
  match keyOf v with
  | Some n => n
  | None => display v
  end.

Definition js_call (f : value) (this : Schema) (arg : value) : result value :=
  match f with
  | VFun _ ref => call ref this arg
  | _ => Throw (TypeError "not a function")
  end.

(** [new ValidationError(message, { errors, value, field })] *)
Definition ValidationError_new (message : value) (errors : list error)
    (v : value) (field : option Schema) : error :=
  match message with
  | VStr m => ValidationError (render m errors v field) errors v field
  | _ => TypeError "template.replace is not a function"
  end.

(** What [throwError(message, { value })] throws. *)
Definition throwError (this : Schema) (message : value) (v : value) : error :=
  ValidationError_new message [] v (Some this).

(** [get settings]: the object the getter returns, which is the node's
    [_defaultSettings] object after the merge. *)
Definition settings (s : Schema) : props :=
  match transformerOf (currentType s) with
  | Some T =>
      if negb (hasChildren s) && truthy (T_settings T)
      then assign (_defaultSettings s) [T_settings T; VObj (_settings s)]
      else assign (_defaultSettings s) [VObj (_settings s)]
  | None => assign (_defaultSettings s) [VObj (_settings s)]
  end.

(** The node after one read of [this.settings]. *)
Definition touch (s : Schema) : Schema := set_defaultSettings s (settings s).

(** [get validate], [get cast]: the hook, or the identity stub. *)
Definition hook (h : value) (this : Schema) (v : value) : result value :=
  if truthy h then js_call h this v else Ok v.

(** [runTransformer] on a transformer of the registry. *)
Definition runTransformer (this : Schema)
    (method : option (Schema -> value -> result value)) (payload : value)
  : result value :=
  match method with
  | None => Ok payload
  | Some f => f this payload
  end.

(** [runTransformer] with [transformer: this.settings]. *)
Definition runSettings (this : Schema) (method : string) (payload : value)
  : result value :=
  let f := pget (_defaultSettings this) method in
  if truthy f then js_call f this payload else Ok payload.

(** [structureValidation] *)
Definition structureValidation (s : Schema) (obj : value) : result unit :=
  if negb (truthy obj) || negb (hasChildren s) then Ok tt
  else
    ok <- propertiesRestricted obj (ownPaths s) ;;
    if ok then Ok tt
    else
      let unknownFields :=
        map (fun f => Error ("Unknown property " ++ f)%string)
            (filter (fun f => negb (hasField s f)) (obj2dot obj)) in
      Throw (ValidationError_new (VStr "Invalid object schema")
               unknownFields obj None).

(** The last five statements of [parseProperty]: node-level cast,
    transformer cast under [autoCast], both validators, transformer
    parse. *)
Definition pipeline (T : Transformer) (s : Schema) (v : value) : result value :=
  let this := touch s in
  v1 <- runSettings this "cast" v ;;
  v2 <- (if truthy (pget (_defaultSettings this) "autoCast")
         then runTransformer this (T_cast T) v1 else Ok v1) ;;
  _ <- runTransformer this (T_validate T) v2 ;;
  _ <- runSettings this "validate" v2 ;;
  runTransformer this (T_parse T) v2.

(** The settings written on the clone made for a loader. *)
Definition loaderOverrides : value :=
  VObj [("loaders", VUndefined); ("cast", VUndefined); ("validate", VUndefined)].

Section Steps.

(** The recursive calls, at the fuel that is left. *)
Variable rec_parseProperty : Schema -> value -> value -> M.

(** The loop of [processLoaders].  The clone has its own [type],
    [_settings], [_cast] and [_validate]; it shares the
    [_defaultSettings] object with [this]. *)
Fixpoint processLoaders_loop (s : Schema) (v : value) (ls : list value) : M :=
  match ls with
  | [] => Some (Ok v, s)
  | l :: r =>
      let loaderSchema := if is_object l then l else VObj [("type", l)] in
      match guessType loaderSchema with
      | Throw e => Some (Throw e, s)
      | Ok ty =>
          let clone :=
            mkSchema (name s) (parent s) ty (currentType s) (children s)
              (if is_str ty "Schema" then _settings s
               else assign [] [VObj (_settings s); loaderSchema; loaderOverrides])
              (_defaultSettings s) (_defaultValues s) VUndefined VUndefined in
          match rec_parseProperty clone ty v with
          | None => None
          | Some (Throw e, clone') =>
              Some (Throw e, set_defaultSettings s (_defaultSettings clone'))
          | Some (Ok v', clone') =>
              processLoaders_loop
                (set_defaultSettings s (_defaultSettings clone')) v' r
          end
      end
  end.

Definition processLoaders (s : Schema) (v : value) (loaders : value) : M :=
  processLoaders_loop s v (castArray loaders).

(** The two loader runs of [parseProperty]: the loaders of the
    settings, then those of the transformer. *)
Definition loaderStage (T : Transformer) (s : Schema) (v : value) : M :=
  andThen
    (if truthy (pget (_defaultSettings s) "loaders")
     then processLoaders s v (pget (_defaultSettings s) "loaders")
     else Some (Ok v, s))
    (fun v s =>
       if truthy (T_loaders T) then processLoaders s v (T_loaders T)
       else Some (Ok v, s)).

(** [v] after the default substitution of [parseProperty]. *)
Definition withDefault (s : Schema) (v : value) : result value :=
  let dflt := pget (_defaultSettings s) "default" in
  if negb (is_undefined dflt) && is_undefined v
  then if is_function dflt then js_call dflt s v else Ok dflt
  else Ok v.

Definition requiredMessage (s : Schema) : value :=
  VStr ("Property " ++ fullPath s ++ " is required")%string.

(** [parseProperty] from [const transformer = Transformers[type]] on. *)
Definition parseProperty_leaf (type : value) (s : Schema) (v : value) : M :=
  match transformerOf type with
  | None =>
      Some (Throw (throwError s
                     (VStr ("Don't know how to resolve " ++ textOf type)%string)
                     VUndefined), s)
  | Some T =>
      let s := touch s in
      match withDefault s v with
      | Throw e => Some (Throw e, s)
      | Ok v =>
          let required := pget (_defaultSettings s) "required" in
          if is_undefined v && negb (truthy required) then Some (Ok VUndefined, s)
          else
            let (enabled, message) :=
              castThrowable required (requiredMessage s) in
            if is_undefined v && truthy required && truthy enabled
            then Some (Throw (throwError s message v), s)
            else
              andThen (loaderStage T s v)
                (fun v s => Some (pipeline T s v, touch s))
      end
  end.

(** [parseProperty]: the null short-circuit, the trial of the
    candidates of a list of types, and the single-type case. *)
Fixpoint parseProperty_step (type : value) (s : Schema) (v : value)
    {struct type} : M :=
  let s := if is_null v then touch s else s in
  if is_null v && truthy (pget (_defaultSettings s) "allowNull")
  then Some (Ok v, s)
  else
    match type with
    | VArr ts =>
        (fix trial (ts : list value) (s : Schema) : M :=
           match ts with
           | [] =>
               Some (Throw (throwError s
                              (VStr "Could not resolve given value type")
                              VUndefined), s)
           | t :: r =>
               match parseProperty_step t (set_currentType s t) v with
               | None => None
               | Some (Ok res, s') => Some (Ok res, s')
               | Some (Throw _, s') => trial r s'
               end
           end) ts s
    | _ => parseProperty_leaf type s v
    end.

End Steps.

(** [parseProperty (type, v)] with [fuel] loader levels left. *)
Fixpoint parseProperty (fuel : nat) (s : Schema) (type : value) (v : value) : M :=
  parseProperty_step
    (fun c t x =>
       match fuel with
       | O => None
       | S n => parseProperty n c t x
       end)
    type s v.

(** What the error trap of [runChildren] adds to [errors] for a caught
    [err]. *)
Definition trapped (err : error) : list error :=
  if instanceof_ValidationError err
  then match error_errors err with
       | [] => [err]
       | errs => errs
       end
  else [err].

Fixpoint replaceNamed (cs : list Schema) (path : string) (c' : Schema)
  : list Schema :=
  match cs with
  | [] => []
  | c :: r =>
      if String.eqb (name c) path then c' :: r
      else c :: replaceNamed r path c'
  end.

(** The node [s] once the node that [schemaAtPath s pathName] returned
    has become [c']. *)
Definition putSchemaAtPath (s : Schema) (pathName : string) (c' : Schema)
  : Schema :=
  match split_dots pathName with
  | path :: rest :: _ =>
      if String.eqb rest "" then set_children s (replaceNamed (children s) path c')
      else match childNamed s path with
           | Some schema =>
               set_children s
                 (replaceNamed (children s) path
                    (set_children schema
                       (replaceNamed (children schema) rest c')))
           | None => s
           end
  | path :: [] => set_children s (replaceNamed (children s) path c')
  | [] => set_children s (replaceNamed (children s) "" c')
  end.

Section Children.

(** The recursive call [schema.parse(input)], at the fuel left. *)
Variable rec_parse : Schema -> value -> M.

(** [this.ownPaths.forEach(...)] of [runChildren], carrying
    [resultingObject] and [errors]. *)
Fixpoint runChildren_loop (s : Schema) (obj : value)
    (pathNames : list string) (resultingObject : props)
    (errors : list error)
  : option (result (props * list error) * Schema) :=
  match pathNames with
  | [] => Some (Ok (resultingObject, errors), s)
  | pathName :: r =>
      let key := replace_dot_tail pathName in
      match schemaAtPath s key with
      | Throw e => Some (Throw e, s)
      | Ok None =>
          (* [schema] is [undefined]: reading [schema.name] throws when
             [obj] is an object, and otherwise the call throws inside the
             error trap *)
          if is_object obj && negb (is_null obj) then Some (Throw null_read, s)
          else runChildren_loop s obj r resultingObject
                 (errors ++ trapped null_read)
      | Ok (Some schema) =>
          let input :=
            if is_object obj && negb (is_null obj)
            then get obj (name schema) else VUndefined in
          match rec_parse schema input with
          | None => None
          | Some (Ok val, schema') =>
              runChildren_loop (putSchemaAtPath s key schema') obj r
                (if is_undefined val then resultingObject
                 else pset resultingObject (name schema) val)
                errors
          | Some (Throw err, schema') =>
              runChildren_loop (putSchemaAtPath s key schema') obj r
                resultingObject (errors ++ trapped err)
          end
      end
  end.

(** [runChildren] *)
Definition runChildren (s : Schema) (obj : value) : M :=
  let s := touch s in
  if negb (truthy (pget (_defaultSettings s) "required")) && is_undefined obj
  then Some (Ok VUndefined, s)
  else
    let errors :=
      match structureValidation s obj with
      | Ok _ => []
      | Throw e => trapped e
      end in
    match runChildren_loop s obj (ownPaths s) [] errors with
    | None => None
    | Some (Throw e, s') => Some (Throw e, s')
    | Some (Ok (resultingObject, []), s') => Some (Ok (VObj resultingObject), s')
    | Some (Ok (_, errs), s') =>
        Some (Throw (ValidationError_new (VStr "Data is not valid") errs
                       VUndefined None), s')
    end.

End Children.

(** [parse (v)] *)
Fixpoint parse (fuel : nat) (s : Schema) (v : value) : M :=
  match fuel with
  | O => None
  | S n =>
      andThen
        (if hasChildren s then runChildren (parse n) s v
         else parseProperty n s (type s) v)
        (fun v s =>
           match parent s with
           | Some _ => Some (Ok v, s)
           | None =>
               match hook (_cast s) s v with
               | Throw e => Some (Throw e, s)
               | Ok v' =>
                   match hook (_validate s) s v' with
                   | Throw e => Some (Throw e, s)
                   | Ok _ => Some (Ok v', s)
                   end
               end
           end)
  end.

End Engine.

(** ** Construction of a schema tree *)

Section Construction.

Variable Transformers : string -> option Transformer.

Definition set_settings (s : Schema) (st : props) : Schema :=
  mkSchema (name s) (parent s) (type s) (currentType s) (children s)
    st (_defaultSettings s) (_defaultValues s) (_validate s) (_cast s).

(** The initial [_defaultSettings]. *)
Definition initialDefaults : props :=
  [("required", VBool true); ("allowNull", VBool false); ("default", VUndefined)].

Definition conflictError (s : Schema) : error :=
  Error ("Remove either the 'required' or the 'default' option for property "
         ++ fullPath s ++ ".")%string.

(** The end of the constructor: the required/default conflict check and
    the default taken from the root's [defaultValues]. *)
Definition construct_finish (this : Schema) : result Schema :=
  let this := touch Transformers this in
  if negb (is_undefined (pget (_defaultSettings this) "default"))
     && truthy (pget (_defaultSettings this) "required")
  then Throw (conflictError this)
  else
    d <- getDefault this "" ;;
    Ok (set_defaultSettings this (pset (_defaultSettings this) "default" d)).

(** The [else] branch of the constructor: the node's own [_settings]. *)
Definition leafSettings (schema : value) (settings0 : props) : props :=
  pdelete
    (if is_object schema
     then assign [] [VObj settings0;
                     VObj [("required", VBool (is_undefined (get schema "default")))];
                     schema]
     else settings0)
    "type".

Definition construct_leaf (schema : value) (this : Schema) : result Schema :=
  construct_finish (set_settings this (leafSettings schema (_settings this))).

(** The node as the constructor has it before looking at its children. *)
Definition blank (ty : value) (nm : string) (defaultValues : value)
    (par : option Schema) (validate cast : value) (settings0 : props) : Schema :=
  mkSchema nm par ty (hd VUndefined (castArray ty)) [] settings0
    initialDefaults defaultValues validate cast.

(** [Schema.isNested], given [guessType schema = Ok ty]. *)
Definition isNested (schema ty : value) : bool :=
  is_str ty "Object" && negb (truthy (get schema "type")).

(** A child described by a one-character string (the children of the
    description ['Object']). *)
Fixpoint charChildren (this : Schema) (i : nat) (cs : list value)
  : result (list Schema) :=
  match cs with
  | [] => Ok []
  | c :: r =>
      ty <- guessType c ;;
      child <- construct_leaf c
                 (blank ty (string_of_nat i) (VObj []) (Some this)
                    VUndefined VUndefined []) ;;
      rest <- charChildren this (S i) r ;;
      Ok (child :: rest)
  end.

(** [new Schema(schema, { name, defaultValues, parent, validate, cast,
    settings })].  [None]: the description embeds a [Schema] (a value
    whose guessed type is ['Schema']), which is cloned by [cloneSchema]
    and is outside this model. *)
Fixpoint Schema_new (schema : value) (nm : string) (defaultValues : value)
    (par : option Schema) (validate cast : value) (settings0 : props)
    {struct schema} : option (result Schema) :=
  match guessType schema with
  | Throw e => Some (Throw e)
  | Ok ty =>
      let this := blank ty nm defaultValues par validate cast settings0 in
      if isNested schema ty then
        match schema with
        | VObj ps =>
            match
              (fix each (ps : props) : option (result (list Schema)) :=
                 match ps with
                 | [] => Some (Ok [])
                 | (prop, x) :: r =>
                     match guessType x with
                     | Throw e => Some (Throw e)
                     | Ok tx =>
                         if is_str tx "Schema" then None
                         else
                           match Schema_new x prop (VObj []) (Some this)
                                   VUndefined VUndefined [] with
                           | None => None
                           | Some (Throw e) => Some (Throw e)
                           | Some (Ok c) =>
                               match each r with
                               | None => None
                               | Some (Throw e) => Some (Throw e)
                               | Some (Ok cs) => Some (Ok (c :: cs))
                               end
                           end
                     end
                 end) ps
            with
            | None => None
            | Some (Throw e) => Some (Throw e)
            | Some (Ok cs) => Some (construct_finish (set_children this cs))
            end
        | VStr str =>
            Some (cs <- charChildren this 0 (chars str) ;;
                  construct_finish (set_children this cs))
        | _ => Some (construct_finish this)
        end
      else Some (construct_leaf schema this)
  end.

End Construction.

(** ** Built-in transformers *)

Section Builtins.

Variable render : string -> list error -> value -> option Schema -> string.
(** [Number(v)] on strings, functions, arrays and objects. *)
Variable Number_of : value -> value.
(** [f.call(v)] for the function behind [VFun _ ref]. *)
Variable invoke : nat -> value -> result value.
(** [regex.test(str)] for a setting [regex]; [None] when the setting is
    no regular expression. *)
Variable regex_test : value -> string -> option bool.

(** [Number(v)] *)
Definition toNumber (v : value) : value :=
  match v with
  | VNum n => VNum n
  | VNaN | VUndefined => VNaN
  | VNull => VNum 0
  | VBool b => VNum (if b then 1 else 0)
  | _ => Number_of v
  end.

(** [n < v] and [n > v] for a number [n]. *)
Definition num_lt (n : Z) (v : value) : bool :=
  match toNumber v with VNum m => Z.ltb n m | _ => false end.

Definition num_gt (n : Z) (v : value) : bool :=
  match toNumber v with VNum m => Z.ltb m n | _ => false end.

Definition fail {A : Type} (this : Schema) (message : value) (v : value)
  : result A :=
  Throw (throwError render this message v).

(** [Transformers.String] *)
Definition String_settings : value :=
  VObj [("typeError", VStr "Invalid string");
        ("enumError", VStr "Unknown enum option { value }");
        ("enum", VArr []);
        ("autoCast", VBool false)].

Definition String_cast (this : Schema) (v : value) : result value :=
  if truthy v && hasOwn v "toString" then
    match get v "toString" with
    | VFun _ ref =>
        s1 <- invoke ref v ;;
        if is_str s1 "[object Object]" then Ok v else invoke ref v
    | _ => Ok v
    end
  else Ok v.

Definition String_validate (this : Schema) (v : value) : result value :=
  match v with
  | VStr str =>
      let st := _defaultSettings this in
      let len := Z.of_nat (String.length str) in
      _ <- (match pget st "enum" with
            | VArr (o :: opts) =>
                if existsb (fun x => is_str x str) (o :: opts) then Ok VUndefined
                else fail this (VStr "Unknown enum option { value }") v
            | _ => Ok VUndefined
            end) ;;
      _ <- (if truthy (pget st "minlength") then
              let (minlength, err) :=
                castThrowable (pget st "minlength") (VStr "Invalid minlength") in
              if num_lt len minlength then fail this err v else Ok VUndefined
            else Ok VUndefined) ;;
      _ <- (if truthy (pget st "maxlength") then
              let (maxlength, err) :=
                castThrowable (pget st "maxlength") (VStr "Invalid maxlength") in
              if num_gt len maxlength then fail this err v else Ok VUndefined
            else Ok VUndefined) ;;
      if truthy (pget st "regex") then
        let (regex, err) :=
          castThrowable (pget st "regex") (VStr "Invalid regex") in
        match regex_test regex str with
        | None => Throw (TypeError "regex.test is not a function")
        | Some true => Ok VUndefined
        | Some false => fail this err v
        end
      else Ok VUndefined
  | _ => fail this (VStr "Invalid string") v
  end.

(** [Transformers.Number] *)
Definition Number_settings : value :=
  VObj [("typeError", VStr "Invalid number"); ("autoCast", VBool false)].

Definition Number_cast (this : Schema) (v : value) : result value :=
  Ok (toNumber v).

Definition Number_validate (this : Schema) (v : value) : result value :=
  match v with
  | VNum _ => Ok VUndefined
  | _ => fail this (VStr "Invalid number") v
  end.

(** [Transformers.Boolean] *)
Definition Boolean_settings : value :=
  VObj [("typeError", VStr "Invalid boolean"); ("autoCast", VBool false)].

Definition Boolean_cast (this : Schema) (v : value) : result value :=
  Ok (VBool (truthy v)).

Definition Boolean_validate (this : Schema) (v : value) : result value :=
  match v with
  | VBool _ => Ok VUndefined
  | _ => fail this (VStr "Invalid boolean") v
  end.

(** [Transformers.Object] *)
Definition Object_settings : value := VObj [("typeError", VStr "Invalid object")].

Definition Object_validate (this : Schema) (v : value) : result value :=
  if is_object v then Ok VUndefined else fail this (VStr "Invalid object") v.

(** [Transformers.Function] *)
Definition Function_settings : value :=
  VObj [("typeError", VStr "Invalid function")].

Definition Function_validate (this : Schema) (v : value) : result value :=
  if is_function v then Ok VUndefined else fail this (VStr "Invalid function") v.

(** The entries of [Transformers] for the types whose values the model
    has: String, Number, Boolean, Object and Function. *)
Definition builtins (type : string) : option Transformer :=
  if String.eqb type "String" then
    Some (mkTransformer String_settings (Some String_cast)
            (Some String_validate) None VUndefined)
  else if String.eqb type "Number" then
    Some (mkTransformer Number_settings (Some Number_cast)
            (Some Number_validate) None VUndefined)
  else if String.eqb type "Boolean" then
    Some (mkTransformer Boolean_settings (Some Boolean_cast)
            (Some Boolean_validate) None VUndefined)
  else if String.eqb type "Object" then
    Some (mkTransformer Object_settings None (Some Object_validate) None
            VUndefined)
  else if String.eqb type "Function" then
    Some (mkTransformer Function_settings None (Some Function_validate) None
            VUndefined)
  else None.

End Builtins.

(** ** The Array transformer *)

Section ArrayTransformer.

Variable call : nat -> Schema -> value -> result value.
Variable render : string -> list error -> value -> option Schema -> string.
Variable display : value -> string.
Variable Transformers : string -> option Transformer.

(** [Transformers.Array] *)
Definition Array_settings : value := VObj [("typeError", VStr "Invalid array")].

Definition Array_validate (this : Schema) (v : value) : result value :=
  if isArray v then Ok VUndefined
  else Throw (throwError render this (VStr "Invalid array") v).

(** The schema made for the item at [index]:
    [new this.constructor(arraySchema,
       Object.assign({}, arraySchema, { name, parent: this }))],
    where [name] is the index.  The constructor takes [defaultValues],
    [validate], [cast] and [settings] from the array schema itself, and
    keeps the name [""] for the index [0]. *)
Definition itemSchema (this : Schema) (arraySchema : value) (index : nat)
  : option (result Schema) :=
  Schema_new Transformers arraySchema
    (if Nat.eqb index 0 then "" else string_of_nat index)
    (if is_undefined (get arraySchema "defaultValues") then VObj []
     else get arraySchema "defaultValues")
    (Some this)
    (get arraySchema "validate") (get arraySchema "cast")
    (own_entries (get arraySchema "settings")).

(** [value.map(...)] of [Transformers.Array.parse]: each item is parsed by
    a schema of its own; the first item that throws ends the loop. *)
Fixpoint Array_items (fuel : nat) (this : Schema) (arraySchema : value)
    (index : nat) (items : list value) : option (result (list value)) :=
  match items with
  | [] => Some (Ok [])
  | x :: r =>
      match itemSchema this arraySchema index with
      | None => None
      | Some (Throw e) => Some (Throw e)
      | Some (Ok item) =>
          match parse call render display Transformers fuel item x with
          | None => None
          | Some (Throw e, _) => Some (Throw e)
          | Some (Ok y, _) =>
              match Array_items fuel this arraySchema (S index) r with
              | None => None
              | Some (Throw e) => Some (Throw e)
              | Some (Ok ys) => Some (Ok (y :: ys))
              end
          end
      end
  end.

(** [Transformers.Array.parse], with [fuel] levels of [parse] for the
    items.  [None]: the fuel ran out, the array schema embeds a [Schema],
    or the value is an object with a [map] of its own. *)
Definition Array_parse (fuel : nat) (this : Schema) (v : value)
  : option (result value) :=
  let arraySchema := pget (settings Transformers this) "arraySchema" in
  if truthy arraySchema then
    match v with
    | VArr items =>
        match Array_items fuel this arraySchema 0 items with
        | None => None
        | Some (Throw e) => Some (Throw e)
        | Some (Ok ys) => Some (Ok (VArr ys))
        end
    | _ =>
        if nullish v then Some (Throw null_read)
        else if hasOwn v "map" then None
        else Some (Throw (TypeError "value.map is not a function"))
    end
  else Some (Ok v).

End ArrayTransformer.

(** * Notions of the specification *)

(** ** Plain notions *)

Definition write (t : props) (kv : string * value) : props :=
  pset t (fst kv) (snd kv).

(** A name without a dot. *)
Definition dotless (n : string) : Prop := has_char (Ascii.eqb dot) n = false.

(** The children of a nested node are named apart and without dots. *)
Definition tidy (s : Schema) : Prop :=
  NoDup (map name (children s)) /\ Forall (fun c => dotless (name c)) (children s).

(** The value a child is parsed on. *)
Definition inputOf (obj : value) (c : Schema) : value :=
  if is_object obj && negb (is_null obj) then get obj (name c) else VUndefined.

(** [parseProperty] writes to [currentType] and [_defaultSettings] only. *)
Definition same_leaf (s s' : Schema) : Prop :=
  exists ct ds, s' = set_currentType (set_defaultSettings s ds) ct.

(** [parse] keeps the identity and the hooks of a node. *)
Definition same_node (s s' : Schema) : Prop :=
  name s' = name s /\ parent s' = parent s
  /\ _cast s' = _cast s /\ _validate s' = _validate s.

(** A node with no schema-level hook to run: it has a parent, or neither
    [cast] nor [validate] was given to its constructor. *)
Definition hookless (s : Schema) : Prop :=
  parent s <> None \/ (truthy (_cast s) = false /\ truthy (_validate s) = false).

(** A stage either replaces the value or only checks it. *)
Inductive stage : Type :=
| Transform (f : value -> result value)
| Check (f : value -> result value).

Fixpoint run_stages (stages : list stage) (v : value) : result value :=
  match stages with
  | [] => Ok v
  | Transform f :: rest => v' <- f v ;; run_stages rest v'
  | Check f :: rest => _ <- f v ;; run_stages rest v
  end.

(** The value a child's outcome leaves in the object, if any. *)
Definition definedAs (out : result value) : option value :=
  match out with
  | Ok val => if is_undefined val then None else Some val
  | Throw _ => None
  end.

(** Every [ValidationError] that [r] may throw carries the node [this] and
    the value [v]. *)
Definition carries (this : Schema) (v : value) (r : result value) : Prop :=
  forall e, r = Throw e -> instanceof_ValidationError e = true ->
            error_field e = Some this /\ error_value e = v.

(** The full path of the node [schemaAtPath] returns. *)
Definition pathAt (s : Schema) (pathName : string) : result (option string) :=
  found <- schemaAtPath s pathName ;;
  Ok (option_map fullPath found).

(** The message of the error a parse threw. *)
Definition thrownMessage (m : M) : option string :=
  match m with
  | Some (Throw e, _) => Some (error_message e)
  | _ => None
  end.

(** What a child's outcome adds to the error list and to the object. *)
Definition contributed (out : result value) : list error :=
  match out with
  | Throw err => trapped err
  | Ok _ => []
  end.

Definition kept (c : Schema) (out : result value) : props :=
  match out with
  | Ok val => if is_undefined val then [] else [(name c, val)]
  | Throw _ => []
  end.

Fixpoint assembled (cs : list Schema) (outs : list (result value * Schema))
  : props :=
  match cs, outs with
  | c :: r, (out, _) :: outs' => kept c out ++ assembled r outs'
  | _, _ => []
  end.

Definition collected (outs : list (result value * Schema)) : list error :=
  flat_map (fun o => contributed (fst o)) outs.

(** The constructor ends with the required/default conflict error. *)
Definition conflicts (r : option (result Schema)) : Prop :=
  exists s, r = Some (Throw (conflictError s)).

(** A method of the transformer, when declared. *)
Definition transformerStage (mk : (value -> result value) -> stage)
    (this : Schema) (method : option (Schema -> value -> result value))
  : list stage :=
  match method with
  | Some f => [mk (f this)]
  | None => []
  end.

(** [m] throws a [ValidationError] with the given [field] and [value]
    and leaves the node [s']. *)
Definition throwsWith (m : M) (s' : Schema) (field : option Schema)
    (v : value) : Prop :=
  exists e,
    m = Some (Throw e, s')
    /\ instanceof_ValidationError e = true
    /\ error_field e = field /\ error_value e = v.

(** A transformer with no [parse] and no loaders, whose [validate]
    rejects [undefined] and whose [cast] returns unchanged any value its
    [validate] accepts. *)
Definition steady (T : Transformer) : Prop :=
  T_parse T = None
  /\ truthy (T_loaders T) = false
  /\ forall this v x,
      runTransformer this (T_validate T) v = Ok x ->
      is_undefined v = false /\ runTransformer this (T_cast T) v = Ok v.

(** A value that is neither a plain object nor [null]: the checks of
    [propertiesRestricted] and [obj2dot] do not go into it. *)
Definition flat (x : value) : bool := negb (is_object x && negb (isArray x)).

Definition plainObject (v : value) : bool :=
  match v with VObj _ => true | _ => false end.

(** The values at the paths of [obj2dot], for an object nested once. *)
Definition leaves (obj : value) : list value :=
  flat_map (fun kv => match snd kv with
                      | VObj qs => map snd qs
                      | x => [x]
                      end) (own_entries obj).

(** An object nested at most once: its keys are distinct and without
    dots, and so are the keys of the objects it holds, which are not empty
    and are bound to no object. *)
Definition shallow (ps : props) : Prop :=
  NoDup (map fst ps)
  /\ Forall (fun kv =>
               dotless (fst kv)
               /\ match snd kv with
                  | VObj qs =>
                      NoDup (map fst qs)
                      /\ Forall (fun kv' => dotless (fst kv') /\ fst kv' <> ""
                                            /\ plainObject (snd kv') = false) qs
                  | _ => True
                  end) ps.

(** The root a node hangs from. *)
Fixpoint rootOf (s : Schema) : Schema :=
  match s with
  | mkSchema _ par _ _ _ _ _ _ _ _ =>
      match par with
      | Some p => rootOf p
      | None => s
      end
  end.

(** A node under an unnamed root, named, as all the nodes between them
    are. *)
Fixpoint underUnnamedRoot (s : Schema) : Prop :=
  match s with
  | mkSchema nm par _ _ _ _ _ _ _ _ =>
      match par with
      | Some p => nm <> "" /\ underUnnamedRoot p
      | None => nm = ""
      end
  end.

(** The loop of [guessType] over the items of a list of types. *)
Fixpoint guessEach (items : list value) : result (list value) :=
  match items with
  | [] => Ok []
  | x :: r =>
      match guessType x with
      | Throw e => Throw e
      | Ok t =>
          match guessEach r with
          | Throw e => Throw e
          | Ok ts => Ok (t :: ts)
          end
      end
  end.

(** The path [getDefault] asks the root for. *)
Definition joinPath (a b : string) : string :=
  if String.eqb a "" then b
  else if String.eqb b "" then a else (a ++ String dot b)%string.


(** The bound a [minlength] or [maxlength] setting stands for: the setting
    itself, or the first item of a [[value, message]] pair. *)
Definition boundOf (setting : value) : value :=
  fst (castThrowable setting VUndefined).

(** A node whose own settings switch the loaders off, as those of the
    clone [processLoaders] makes do. *)
Definition quiet (c : Schema) : Prop :=
  NoDup (map fst (_settings c))
  /\ assoc "loaders" (_settings c) = Some VUndefined.

(** Two ways of running the loaders that agree on the clones of
    [processLoaders]. *)
Definition agree (rec1 rec2 : Schema -> value -> value -> M) : Prop :=
  forall c ty x, quiet c \/ ty = VStr "Schema" ->
                 rec1 c ty x = rec2 c ty x /\ rec1 c ty x <> None.


Section ChildrenOf.

Variable Transformers : string -> option Transformer.
Variable this : Schema.

(** The loop of [_parseSchema] over the entries of a description, for the
    node [this]. *)
Fixpoint childrenOf (ps : props) : option (result (list Schema)) :=
  match ps with
  | [] => Some (Ok [])
  | (prop, x) :: r =>
      match guessType x with
      | Throw e => Some (Throw e)
      | Ok tx =>
          if is_str tx "Schema" then None
          else
            match Schema_new Transformers x prop (VObj []) (Some this)
                    VUndefined VUndefined [] with
            | None => None
            | Some (Throw e) => Some (Throw e)
            | Some (Ok c) =>
                match childrenOf r with
                | None => None
                | Some (Throw e) => Some (Throw e)
                | Some (Ok cs) => Some (Ok (c :: cs))
                end
            end
      end
  end.

End ChildrenOf.

(** The full path of a child called [n] of a node whose full path is
    [p]. *)
Definition childPath (p n : string) : string :=
  ((if String.eqb p "" then "" else p ++ ".") ++ n)%string.

Section Trees.

Variable P : Schema -> Prop.

(** [P] holds of every node below [s]. *)
Fixpoint below (s : Schema) : Prop :=
  match s with
  | mkSchema _ _ _ _ cs _ _ _ _ _ =>
      (fix all (cs : list Schema) : Prop :=
         match cs with
         | [] => True
         | c :: r => (P c /\ below c) /\ all r
         end) cs
  end.

End Trees.

(** Every node below [s] has the full path that continues its
    parent's. *)
Fixpoint linked (s : Schema) : Prop :=
  match s with
  | mkSchema _ _ _ _ cs _ _ _ _ _ =>
      (fix all (cs : list Schema) : Prop :=
         match cs with
         | [] => True
         | c :: r => (fullPath c = childPath (fullPath s) (name c) /\ linked c)
                     /\ all r
         end) cs
  end.

(** The node [cloneSchema] starts from: the clone before its children
    are cloned. *)
Definition clonedTop (schema : Schema) (nm : string) (par : option Schema)
    (settings0 : props) (defaultValues : value) : Schema :=
  mkSchema (if String.eqb nm "" then name schema else nm) par (type schema)
    (currentType schema) (children schema) (assign [] [VObj settings0])
    (_defaultSettings schema) defaultValues (_validate schema) (_cast schema).

(** The leaves of the tree under [s], from left to right; a node with no
    children is its own leaf. *)
Fixpoint leavesOf (s : Schema) : list Schema :=
  match s with
  | mkSchema _ _ _ _ cs _ _ _ _ _ =>
      match cs with
      | [] => [s]
      | _ => (fix each (cs : list Schema) : list Schema :=
                match cs with
                | [] => []
                | c :: r => leavesOf c ++ each r
                end) cs
      end
  end.

(** How many levels of children a node has below it. *)
Fixpoint height (s : Schema) : nat :=
  match s with
  | mkSchema _ _ _ _ cs _ _ _ _ _ =>
      (fix over (cs : list Schema) : nat :=
         match cs with
         | [] => 0
         | c :: r => Nat.max (S (height c)) (over r)
         end) cs
  end.

(** Two trees that differ at most in what [parse] writes: the current
    type and the defaults object of their nodes. *)
Fixpoint same_tree (s s' : Schema) : Prop :=
  match s, s' with
  | mkSchema nm par ty _ cs st _ dv vl cst,
    mkSchema nm' par' ty' _ cs' st' _ dv' vl' cst' =>
      nm' = nm /\ par' = par /\ ty' = ty /\ st' = st /\ dv' = dv
      /\ vl' = vl /\ cst' = cst
      /\ (fix all (cs cs' : list Schema) : Prop :=
            match cs, cs' with
            | [], [] => True
            | c :: r, c' :: r' => same_tree c c' /\ all r r'
            | _, _ => False
            end) cs cs'
  end.

(** ** Notions over the hosts and the registry *)

Section Notions.

Variable call : nat -> Schema -> value -> result value.
Variable render : string -> list error -> value -> option Schema -> string.
Variable display : value -> string.
Variable Transformers : string -> option Transformer.

Local Abbreviation parseProperty := (parseProperty call render display Transformers).
Local Abbreviation parse := (parse call render display Transformers).
Local Abbreviation touch := (touch Transformers).

(** The recursive calls open to [parseProperty fuel]. *)
Definition loaderCalls (fuel : nat) : Schema -> value -> value -> M :=
  fun c t x =>
    match fuel with
    | O => None
    | S n => parseProperty n c t x
    end.

(** The later stages of [parseProperty], from the loaders on. *)
Definition laterStages (fuel : nat) (T : Transformer) (this : Schema)
    (v : value) : M :=
  andThen (loaderStage (loaderCalls fuel) T this v)
    (fun v s => Some (pipeline call Transformers T s v, touch s)).

(** A hook of the node's settings, when declared. *)
Definition nodeStage (mk : (value -> result value) -> stage) (this : Schema)
    (method : string) : list stage :=
  let f := pget (_defaultSettings this) method in
  if truthy f then [mk (js_call call f this)] else [].

(** The stages after the loaders, in the order of the specification:
    node-level cast, transformer cast when [autoCast] is on, transformer
    validate, node-level validate, transformer parse. *)
Definition stageOrder (T : Transformer) (this : Schema) : list stage :=
  nodeStage Transform this "cast"
  ++ (if truthy (pget (_defaultSettings this) "autoCast")
      then transformerStage Transform this (T_cast T) else [])
  ++ transformerStage Check this (T_validate T)
  ++ nodeStage Check this "validate"
  ++ transformerStage Transform this (T_parse T).

(** The error of a list of types none of which resolved the value. *)
Definition unresolved (this : Schema) : error :=
  ValidationError
    (render "Could not resolve given value type" [] VUndefined (Some this))
    [] VUndefined (Some this).

(** The trial loop of [parseProperty] over the candidates [ts]. *)
Fixpoint trials (fuel : nat) (v : value) (ts : list value) (s : Schema) : M :=
  match ts with
  | [] => Some (Throw (unresolved s), s)
  | t :: r =>
      match parseProperty fuel (set_currentType s t) t v with
      | None => None
      | Some (Ok res, s') => Some (Ok res, s')
      | Some (Throw _, s') => trials fuel v r s'
      end
  end.

(** Every candidate of [ts], tried in order from the node [s], throws:
    the node the last trial leaves. *)
Fixpoint allFail (fuel : nat) (v : value) (ts : list value) (s : Schema)
  : option Schema :=
  match ts with
  | [] => Some s
  | t :: r =>
      match parseProperty fuel (set_currentType s t) t v with
      | Some (Throw _, s') => allFail fuel v r s'
      | _ => None
      end
  end.

(** The children parsed one after the other, each on its own input,
    whatever the others did. *)
Fixpoint eachChild (rec : Schema -> value -> M) (obj : value)
    (cs : list Schema)
  : option (list (result value * Schema)) :=
  match cs with
  | [] => Some []
  | c :: r =>
      match rec c (inputOf obj c) with
      | None => None
      | Some out =>
          match eachChild rec obj r with
          | None => None
          | Some outs => Some (out :: outs)
          end
      end
  end.

(** What the structural validation adds to the error list. *)
Definition structuralErrors (this : Schema) (obj : value) : list error :=
  match structureValidation render this obj with
  | Ok _ => []
  | Throw e => trapped e
  end.

(** The error [runChildren] throws over a non-empty error list. *)
Definition aggregate (errors : list error) : error :=
  ValidationError (render "Data is not valid" errors VUndefined None)
    errors VUndefined None.

(** The outcome of [runChildren] over an error list and an object. *)
Definition outcome (errors : list error) (ro : props) : result value :=
  match errors with
  | [] => Ok (VObj ro)
  | _ => Throw (aggregate errors)
  end.

(** A leaf of one registered steady type whose settings declare neither
    loaders nor a [cast]. *)
Definition plainLeaf (s : Schema) (t : string) (T : Transformer) : Prop :=
  hasChildren s = false /\ type s = VStr t /\ currentType s = VStr t
  /\ Transformers t = Some T /\ steady T
  /\ truthy (pget (settings Transformers s) "loaders") = false
  /\ truthy (pget (settings Transformers s) "cast") = false.

(** A schema made of plain leaves under nested nodes whose children are
    named apart and without dots. *)
Inductive plain : Schema -> Prop :=
| plain_leaf (s : Schema) (t : string) (T : Transformer) :
    plainLeaf s t T -> plain s
| plain_nested (s : Schema) :
    hasChildren s = true -> tidy s ->
    Forall plain (children s) -> Forall hookless (children s) -> plain s.

End Notions.

(** ** Sample hosts and schemas *)

Module Sample.

(** Templating that leaves a template as it is (the messages used below
    hold no placeholder). *)
Definition render (t : string) (_ : list error) (_ : value)
    (_ : option Schema) : string := t.

Definition display (v : value) : string :=
  match v with VStr s => s | _ => "?" end.

(** Function references: [0] and [1] are the constructors [String] and
    [Number]; [7] adds one to a number; the others return their
    argument. *)
Definition call (ref : nat) (_ : Schema) (v : value) : result value :=
  match ref, v with
  | 7%nat, VNum n => Ok (VNum (n + 1))
  | _, _ => Ok v
  end.

Definition Number_of (_ : value) : value := VNaN.
Definition invoke (_ : nat) (v : value) : result value := Ok v.
Definition regex_test (_ : value) (_ : string) : option bool := None.

Definition Transformers : string -> option Transformer :=
  builtins render Number_of invoke regex_test.

Definition String_ : value := VFun "String" 0.
Definition Number_ : value := VFun "Number" 1.

(** [new Schema(description)] *)
Definition new (description : value) : option (result Schema) :=
  Schema_new Transformers description "" (VObj []) None VUndefined VUndefined [].

(** The schema built from a description of the model. *)
Definition built (description : value) : result Schema :=
  match new description with
  | Some r => r
  | None => Throw (Error "the description embeds a Schema")
  end.

Definition parse (fuel : nat) (s : Schema) (v : value) : M :=
  parse call render display Transformers fuel s v.

(** [{ a: String }]: the root as its child sees it, the root and the
    child. *)
Definition root_blank : Schema :=
  mkSchema "" None (VStr "Object") (VStr "Object") [] []
    initialDefaults (VObj []) VUndefined VUndefined.

Definition root_a : Schema :=
  mkSchema "" None (VStr "Object") (VStr "Object")
    [mkSchema "a" (Some root_blank) (VStr "String") (VStr "String") [] []
       [("required", VBool true); ("allowNull", VBool false);
        ("default", VUndefined); ("typeError", VStr "Invalid string");
        ("enumError", VStr "Unknown enum option { value }");
        ("enum", VArr []); ("autoCast", VBool false)]
       (VObj []) VUndefined VUndefined]
    [] initialDefaults (VObj []) VUndefined VUndefined.

Definition child_a : Schema := hd root_a (children root_a).

End Sample.

(** [{ type: [String, Number] }] *)
Definition string_or_number : Schema :=
  Eval vm_compute in
    match Sample.new (VObj [("type", VArr [Sample.String_; Sample.Number_])]) with
    | Some (Ok s) => s
    | _ => Sample.root_blank
    end.

(** [{ name: String, age: { type: Number, required: false },
       address: { city: String, zip: Number } }] *)
Definition person : Schema :=
  Eval vm_compute in
    match Sample.new
            (VObj [("name", Sample.String_);
                   ("age", VObj [("type", Sample.Number_);
                                 ("required", VBool false)]);
                   ("address", VObj [("city", Sample.String_);
                                     ("zip", Sample.Number_)])]) with
    | Some (Ok s) => s
    | _ => Sample.root_blank
    end.

(** [new Schema({ a: String }, { settings: { required: false } })] *)
Definition optional_root : Schema :=
  Eval vm_compute in
    match Schema_new Sample.Transformers (VObj [("a", Sample.String_)]) ""
            (VObj []) None VUndefined VUndefined [("required", VBool false)] with
    | Some (Ok s) => s
    | _ => Sample.root_blank
    end.

(** [{ 'a.b': String, c: String }] *)
Definition dotted_root : Schema :=
  Eval vm_compute in
    match Sample.new (VObj [("a.b", Sample.String_); ("c", Sample.String_)]) with
    | Some (Ok s) => s
    | _ => Sample.root_blank
    end.

(** [{ 'a.b': String, aundefined: { type: String, required: false } }] *)
Definition dotted_pair : Schema :=
  Eval vm_compute in
    match Sample.new
            (VObj [("a.b", Sample.String_);
                   ("aundefined", VObj [("type", Sample.String_);
                                        ("required", VBool false)])]) with
    | Some (Ok s) => s
    | _ => Sample.root_blank
    end.

(** [{ type: Number, cast }] with a [cast] that adds one. *)
Definition incrementing : Schema :=
  Eval vm_compute in
    match Sample.new (VObj [("type", Sample.Number_); ("cast", VFun "cast" 7)]) with
    | Some (Ok s) => s
    | _ => Sample.root_blank
    end.

(** The input of the round-trip example. *)
Definition ann : value :=
  VObj [("name", VStr "Ann");
        ("address", VObj [("city", VStr "Miami"); ("zip", VNum 33129)])].

(** [parse] twice: the value of the first parse, and what parsing it with
    the node the first parse left returns. *)
Definition parseTwice (fuel : nat) (s : Schema) (x : value)
  : option (value * option (result value)) :=
  match Sample.parse fuel s x with
  | Some (Ok y, s') => Some (y, option_map fst (Sample.parse fuel s' y))
  | _ => None
  end.

(** [{ type: String, loaders: [Number] }] *)
Definition with_loader : Schema :=
  Eval vm_compute in
    match Sample.new (VObj [("type", Sample.String_);
                            ("loaders", VArr [Sample.Number_])]) with
    | Some (Ok s) => s
    | _ => Sample.root_blank
    end.

(** [new Schema({ a: { type: String } }, { defaultValues: { a: 'x' } })] *)
Definition defaulted_root : Schema :=
  Eval vm_compute in
    match Schema_new Sample.Transformers
            (VObj [("a", VObj [("type", Sample.String_)])]) ""
            (VObj [("a", VStr "x")]) None VUndefined VUndefined [] with
    | Some (Ok s) => s
    | _ => Sample.root_blank
    end.

(** * Properties *)

(** ** Objects: reads after writes *)

Lemma assoc_app (k : string) (a b : props) :
  assoc k (a ++ b) =
  match assoc k a with Some v => Some v | None => assoc k b end.
Proof.
  induction a as [|[k' v'] a IH]; simpl; [reflexivity|].
  destruct (String.eqb k k'); [reflexivity | exact IH].
Qed.

Lemma assoc_pset (ps : props) (k k' : string) (v : value) :
  assoc k (pset ps k' v) = if String.eqb k k' then Some v else assoc k ps.
Proof.
  induction ps as [|[k1 v1] ps IH]; simpl.
  - destruct (String.eqb k k'); reflexivity.
  - destruct (String.eqb k' k1) eqn:E1; simpl.
    + apply String.eqb_eq in E1; subst k1.
      destruct (String.eqb k k'); reflexivity.
    + destruct (String.eqb k k1) eqn:E2.
      * apply String.eqb_eq in E2; subst k1.
        rewrite String.eqb_sym in E1. rewrite E1. reflexivity.
      * exact IH.
Qed.

(** After a run of writes, a key holds what was written to it last. *)
Lemma assoc_writes (l : props) (t : props) (k : string) :
  assoc k (fold_left write l t) =
  match assoc k (rev l) with Some v => Some v | None => assoc k t end.
Proof.
  revert t; induction l as [|[k1 v1] l IH]; intros t; simpl; [reflexivity|].
  rewrite IH, assoc_app. unfold write; simpl.
  destruct (assoc k (rev l)); [reflexivity|].
  rewrite assoc_pset. destruct (String.eqb k k1); reflexivity.
Qed.

Lemma assoc_assign1 (t : props) (src : value) (k : string) :
  assoc k (assign1 t src) =
  match assoc k (rev (own_entries src)) with
  | Some v => Some v
  | None => assoc k t
  end.
Proof. apply assoc_writes. Qed.

Lemma assoc_rev_none (l : props) (k : string) :
  assoc k l = None -> assoc k (rev l) = None.
Proof.
  induction l as [|[k1 v1] l IH]; simpl; [reflexivity|].
  destruct (String.eqb k k1) eqn:E; [discriminate|].
  intros H. rewrite assoc_app, (IH H). simpl. rewrite E. reflexivity.
Qed.

Lemma assoc_none_notin (l : props) (k : string) :
  assoc k l = None <-> ~ In k (map fst l).
Proof.
  induction l as [|[k1 v1] l IH]; simpl.
  - split; [intros _ [] | reflexivity].
  - destruct (String.eqb k k1) eqn:E.
    + apply String.eqb_eq in E; subst. split; [discriminate|].
      intros H; exfalso; apply H; left; reflexivity.
    + apply String.eqb_neq in E. rewrite IH. split.
      * intros H [H1|H1]; [congruence | exact (H H1)].
      * intros H H1; apply H; right; exact H1.
Qed.

(** In an object, where each key is bound once, the last write is the
    only one. *)
Lemma assoc_rev_nodup (l : props) (k : string) :
  NoDup (map fst l) -> assoc k (rev l) = assoc k l.
Proof.
  induction l as [|[k1 v1] l IH]; simpl; [reflexivity|].
  intros H; inversion H as [|? ? Hn Hd]; subst.
  rewrite assoc_app, (IH Hd). simpl.
  destruct (String.eqb k k1) eqn:E.
  - apply String.eqb_eq in E; subst k1.
    apply assoc_none_notin in Hn. rewrite Hn. reflexivity.
  - destruct (assoc k l); reflexivity.
Qed.

Lemma assoc_pdelete (ps : props) (k k' : string) :
  assoc k (pdelete ps k') = if String.eqb k k' then None else assoc k ps.
Proof.
  induction ps as [|[k1 v1] ps IH]; simpl.
  - destruct (String.eqb k k'); reflexivity.
  - destruct (String.eqb k' k1) eqn:E1; simpl.
    + apply String.eqb_eq in E1; subst k1. rewrite IH.
      destruct (String.eqb k k'); reflexivity.
    + rewrite IH. destruct (String.eqb k k1) eqn:E2; [|reflexivity].
      apply String.eqb_eq in E2; subst k1.
      rewrite String.eqb_sym in E1. rewrite E1. reflexivity.
Qed.

Lemma keys_pset (ps : props) (k : string) (v : value) :
  map fst (pset ps k v) =
  if mem_str k (map fst ps) then map fst ps else map fst ps ++ [k].
Proof.
  unfold mem_str.
  induction ps as [|[k1 v1] ps IH]; simpl; [reflexivity|].
  destruct (String.eqb k k1) eqn:E; simpl; [reflexivity|].
  rewrite IH. destruct (existsb (String.eqb k) (map fst ps)); reflexivity.
Qed.

Lemma mem_str_In (k : string) (l : list string) :
  mem_str k l = true <-> In k l.
Proof.
  unfold mem_str. rewrite existsb_exists. split.
  - intros [x [Hx E]]. apply String.eqb_eq in E. subst. exact Hx.
  - intros H. exists k. split; [exact H | apply String.eqb_refl].
Qed.

Lemma NoDup_pset (ps : props) (k : string) (v : value) :
  NoDup (map fst ps) -> NoDup (map fst (pset ps k v)).
Proof.
  intros H. rewrite keys_pset.
  destruct (mem_str k (map fst ps)) eqn:E; [exact H|].
  apply NoDup_app; [exact H | repeat constructor; intros [] | ].
  intros x Hx [Hk|[]]. subst x.
  apply mem_str_In in Hx. congruence.
Qed.

Lemma NoDup_writes (l t : props) :
  NoDup (map fst t) -> NoDup (map fst (fold_left write l t)).
Proof.
  revert t; induction l as [|kv l IH]; intros t H; simpl; [exact H|].
  apply IH. apply NoDup_pset. exact H.
Qed.

Lemma NoDup_assign (t : props) (srcs : list value) :
  NoDup (map fst t) -> NoDup (map fst (assign t srcs)).
Proof.
  revert t; induction srcs as [|x srcs IH]; intros t H; simpl; [exact H|].
  apply IH. apply NoDup_writes. exact H.
Qed.

Lemma In_pdelete (ps : props) (k x : string) :
  In x (map fst (pdelete ps k)) -> In x (map fst ps).
Proof.
  induction ps as [|[k1 v1] ps IH]; simpl; [tauto|].
  destruct (String.eqb k k1); simpl; intros H.
  - right; apply IH; exact H.
  - destruct H as [H|H]; [left; exact H | right; apply IH; exact H].
Qed.

Lemma NoDup_pdelete (ps : props) (k : string) :
  NoDup (map fst ps) -> NoDup (map fst (pdelete ps k)).
Proof.
  induction ps as [|[k1 v1] ps IH]; simpl; intros H; [exact H|].
  inversion H as [|? ? Hn Hd]; subst.
  destruct (String.eqb k k1); [apply IH; exact Hd|].
  simpl. constructor; [|apply IH; exact Hd].
  intros Hin; apply Hn. eapply In_pdelete; exact Hin.
Qed.

Lemma root_a_constructed :
  Sample.new (VObj [("a", Sample.String_)]) = Some (Ok Sample.root_a).
Proof. reflexivity. Qed.

(** ** C8: [fullPath] *)

(** C8, as stated, fails: the child [a] of an unnamed root has the full
    path [a], not [.a] -- the getter adds the dot only under a parent whose
    own full path is not empty. *)
Lemma fullPath_root_child_counterexample :
  parent Sample.child_a = Some Sample.root_blank
  /\ fullPath Sample.child_a = "a"
  /\ fullPath Sample.child_a
     <> (fullPath Sample.root_blank ++ "." ++ name Sample.child_a)%string.
Proof.
  split; [reflexivity|]. split; [reflexivity|].
  vm_compute. discriminate.
Qed.

(** C8 (amended): a node's [fullPath] is [parent.fullPath + '.' + name]
    when it has a parent whose [fullPath] is not empty, and [name] when it
    has no parent or its parent's [fullPath] is empty. *)
Theorem fullPath_spec (s : Schema) :
  fullPath s =
  match parent s with
  | Some p =>
      if String.eqb (fullPath p) "" then name s
      else (fullPath p ++ "." ++ name s)%string
  | None => name s
  end.
Proof.
  destruct s as [nm par ty ct cs st ds dv vl cst]; simpl.
  destruct par as [p|]; [|reflexivity].
  destruct (String.eqb (fullPath p) ""); [reflexivity|].
  induction (fullPath p) as [|c r IH]; simpl; [reflexivity|].
  f_equal. exact IH.
Qed.

(** ** C9: [schemaAtPath] *)

(** C9 (the code at the failing inputs): on [{ a: String }] a path whose
    first segment matches no child is answered with [undefined] when it has
    one segment, and with a [TypeError] when it has more; on a schema three
    levels deep, the third segment of a path is not walked. *)
Theorem schemaAtPath_unmatched_head_throws :
  schemaAtPath Sample.root_a "x" = Ok None
  /\ schemaAtPath Sample.root_a "x.y" = Throw null_read
  /\ (s <- Sample.built
              (VObj [("address",
                      VObj [("geo", VObj [("lat", Sample.Number_)])])]) ;;
      pathAt s "address.geo") = Ok (Some "address.geo")
  /\ (s <- Sample.built
              (VObj [("address",
                      VObj [("geo", VObj [("lat", Sample.Number_)])])]) ;;
      pathAt s "address.geo.lat") = Ok (Some "address.geo").
Proof. repeat split; reflexivity. Qed.

(** ** C10: a default makes a field optional *)

Section DefaultOptional.

Variable Transformers : string -> option Transformer.

Lemma Schema_new_leaf (schema ty : value) (nm : string) (dv : value)
    (par : option Schema) (vl cst : value) (st0 : props) :
  guessType schema = Ok ty ->
  isNested schema ty = false ->
  Schema_new Transformers schema nm dv par vl cst st0
  = Some (construct_leaf Transformers schema (blank ty nm dv par vl cst st0)).
Proof.
  intros Hg Hn.
  destruct schema; cbn [Schema_new]; rewrite Hg, Hn; reflexivity.
Qed.

Lemma assoc_settings_own (s : Schema) (k : string) (v : value) :
  NoDup (map fst (_settings s)) ->
  assoc k (_settings s) = Some v ->
  assoc k (settings Transformers s) = Some v.
Proof.
  intros Hn Hk. unfold settings.
  destruct (transformerOf Transformers (currentType s)) as [T|];
    [destruct (negb (hasChildren s) && truthy (T_settings T))|];
    unfold assign; simpl; rewrite assoc_assign1; simpl;
    rewrite (assoc_rev_nodup _ _ Hn), Hk; reflexivity.
Qed.

Lemma NoDup_leafSettings (schema : value) (st0 : props) :
  is_object schema = true ->
  NoDup (map fst (leafSettings schema st0)).
Proof.
  intros Ho. unfold leafSettings. rewrite Ho.
  apply NoDup_pdelete, NoDup_assign. constructor.
Qed.

(** The [required] entry of the settings of a leaf built from a settings
    object: the object's own, else whether it declares no default. *)
Lemma leafSettings_required (ps st0 : props) :
  assoc "required" (leafSettings (VObj ps) st0) =
  match assoc "required" (rev ps) with
  | Some v => Some v
  | None => Some (VBool (is_undefined (get (VObj ps) "default")))
  end.
Proof.
  unfold leafSettings. change (is_object (VObj ps)) with true. cbv iota.
  rewrite assoc_pdelete. simpl String.eqb. cbv iota.
  unfold assign. simpl fold_left. rewrite assoc_assign1. simpl own_entries.
  destruct (assoc "required" (rev ps)); [reflexivity|].
  rewrite assoc_assign1. reflexivity.
Qed.

Lemma leafSettings_default (ps st0 : props) (d : value) :
  assoc "default" (rev ps) = Some d ->
  assoc "default" (leafSettings (VObj ps) st0) = Some d.
Proof.
  intros H. unfold leafSettings. change (is_object (VObj ps)) with true. cbv iota.
  rewrite assoc_pdelete. simpl String.eqb. cbv iota.
  unfold assign. simpl fold_left. rewrite assoc_assign1. simpl own_entries.
  rewrite H. reflexivity.
Qed.

Lemma getDefault_throws :
  forall (s : Schema) (child : string) (e : error),
    getDefault s child = Throw e -> e = null_read.
Proof.
  fix IH 1. intros [nm par ty ct cs st ds dv vl cst] child e; simpl.
  destruct par as [p|]; [apply IH|].
  destruct (String.eqb child ""); [discriminate|].
  unfold find, read.
  destruct (split_dots child) as [|prop [|paths rest]];
    repeat match goal with
           | |- context [if ?b then _ else _] => destruct b
           end; congruence.
Qed.

Lemma get_obj (ps : props) (k : string) :
  get (VObj ps) k = pget ps k.
Proof. unfold get, pget; simpl. destruct (assoc k ps); reflexivity. Qed.

Lemma construct_finish_cases (this : Schema) :
  let this1 := touch Transformers this in
  construct_finish Transformers this =
  if negb (is_undefined (pget (_defaultSettings this1) "default"))
     && truthy (pget (_defaultSettings this1) "required")
  then Throw (conflictError this1)
  else match getDefault this1 "" with
       | Ok d => Ok (set_defaultSettings this1
                       (pset (_defaultSettings this1) "default" d))
       | Throw e => Throw e
       end.
Proof. reflexivity. Qed.


End DefaultOptional.


(** ** Reading the settings twice *)

Lemma pset_same (t : props) (k : string) (v : value) :
  assoc k t = Some v -> pset t k v = t.
Proof.
  induction t as [|[k1 v1] t IH]; simpl; [discriminate|].
  destruct (String.eqb k k1) eqn:E.
  - intros H; injection H as ->. reflexivity.
  - intros H. rewrite (IH H). reflexivity.
Qed.

Lemma pset_pset (t : props) (k : string) (v v' : value) :
  pset (pset t k v) k v' = pset t k v'.
Proof.
  induction t as [|[k1 v1] t IH]; simpl.
  - rewrite String.eqb_refl. reflexivity.
  - destruct (String.eqb k k1) eqn:E; simpl; rewrite E; [reflexivity|].
    rewrite IH. reflexivity.
Qed.

Lemma pset_comm (t : props) (k k' : string) (v v' : value) :
  k <> k' -> assoc k t <> None ->
  pset (pset t k v) k' v' = pset (pset t k' v') k v.
Proof.
  intros Hne. induction t as [|[k1 v1] t IH]; simpl; [congruence|].
  intros Hk.
  destruct (String.eqb k k1) eqn:E; destruct (String.eqb k' k1) eqn:E'; simpl;
    rewrite ?E, ?E'; try reflexivity.
  - apply String.eqb_eq in E, E'. congruence.
  - rewrite (IH Hk). reflexivity.
Qed.

Lemma assoc_pset_some (t : props) (k k' : string) (v : value) :
  assoc k t <> None -> assoc k (pset t k' v) <> None.
Proof.
  rewrite assoc_pset. destruct (String.eqb k k'); [discriminate | tauto].
Qed.

(** A write that a later write to the same key follows is lost. *)
Lemma writes_overwrite (l : props) (t : props) (k : string) (v : value) :
  assoc k l <> None -> assoc k t <> None ->
  fold_left write l (pset t k v) = fold_left write l t.
Proof.
  revert t v; induction l as [|[k1 v1] l IH]; intros t v; simpl; [congruence|].
  unfold write at 2 4; simpl.
  destruct (String.eqb k k1) eqn:E.
  - apply String.eqb_eq in E; subst k1. intros _ _. rewrite pset_pset. reflexivity.
  - apply String.eqb_neq in E. intros Hl Ht.
    rewrite (pset_comm t k k1 v v1 E Ht).
    apply IH; [exact Hl | apply assoc_pset_some; exact Ht].
Qed.

Lemma assoc_rev_some (l : props) (k : string) :
  assoc k l <> None <-> assoc k (rev l) <> None.
Proof.
  split; intros H E; apply H.
  - rewrite <- (rev_involutive l). apply assoc_rev_none. exact E.
  - apply assoc_rev_none. exact E.
Qed.

(** Writes that an object already holds leave it as it is. *)
Lemma writes_held (l : props) (t : props) :
  (forall k v, assoc k (rev l) = Some v -> assoc k t = Some v) ->
  fold_left write l t = t.
Proof.
  revert t; induction l as [|[k1 v1] l IH]; intros t H; simpl; [reflexivity|].
  unfold write at 2; simpl.
  assert (Hl : forall k v, assoc k (rev l) = Some v -> assoc k t = Some v).
  { intros k v E. apply H. simpl. rewrite assoc_app, E. reflexivity. }
  destruct (assoc k1 (rev l)) as [w|] eqn:E1.
  - rewrite writes_overwrite; [apply IH; exact Hl | |].
    + apply assoc_rev_some. rewrite E1. discriminate.
    + rewrite (Hl _ _ E1). discriminate.
  - rewrite pset_same; [apply IH; exact Hl|].
    apply H. simpl. rewrite assoc_app, E1. simpl.
    rewrite String.eqb_refl. reflexivity.
Qed.

Lemma writes_idem (l : props) (t : props) :
  fold_left write l (fold_left write l t) = fold_left write l t.
Proof.
  apply writes_held. intros k v E. rewrite assoc_writes, E. reflexivity.
Qed.

Lemma assign_writes (srcs : list value) (t : props) :
  assign t srcs = fold_left write (flat_map own_entries srcs) t.
Proof.
  unfold assign. revert t; induction srcs as [|x srcs IH]; intros t; simpl;
    [reflexivity|].
  rewrite fold_left_app. apply IH.
Qed.

Lemma assign_idem (srcs : list value) (t : props) :
  assign (assign t srcs) srcs = assign t srcs.
Proof. rewrite !assign_writes. apply writes_idem. Qed.

Section Reads.

Variable Transformers : string -> option Transformer.

(** A second read of [this.settings] returns what the first did. *)
Lemma settings_touch (s : Schema) :
  settings Transformers (touch Transformers s) = settings Transformers s.
Proof.
  unfold touch, settings; simpl.
  change (hasChildren (set_defaultSettings s _)) with (hasChildren s).
  destruct (transformerOf Transformers (currentType s)) as [T|];
    [destruct (negb (hasChildren s) && truthy (T_settings T))|].
  - exact (assign_idem [T_settings T; VObj (_settings s)] _).
  - exact (assign_idem [VObj (_settings s)] _).
  - exact (assign_idem [VObj (_settings s)] _).
Qed.

Lemma touch_eq (s : Schema) :
  touch Transformers s = set_defaultSettings s (settings Transformers s).
Proof. reflexivity. Qed.

Lemma touch_idem (s : Schema) :
  touch Transformers (touch Transformers s) = touch Transformers s.
Proof.
  unfold touch at 1. rewrite settings_touch. reflexivity.
Qed.

End Reads.

(** ** Leaf nodes *)

Section Leaf.

Variable call : nat -> Schema -> value -> result value.
Variable render : string -> list error -> value -> option Schema -> string.
Variable display : value -> string.
Variable Transformers : string -> option Transformer.

Local Abbreviation parseProperty := (parseProperty call render display Transformers).
Local Abbreviation parse := (parse call render display Transformers).
Local Abbreviation touch := (touch Transformers).
Local Abbreviation pipeline := (pipeline call Transformers).
Local Abbreviation throwError := (throwError render).
Local Abbreviation loaderCalls := (loaderCalls call render display Transformers).
Local Abbreviation laterStages := (laterStages call render display Transformers).

Local Abbreviation loaderStage fuel := (loaderStage (loaderCalls fuel)).

Lemma parseProperty_eq (fuel : nat) (s : Schema) (type v : value) :
  parseProperty fuel s type v =
  parseProperty_step call render display Transformers (loaderCalls fuel)
    type s v.
Proof. destruct fuel; reflexivity. Qed.

Lemma is_undefined_not_null (v : value) :
  is_undefined v = true -> is_null v = false.
Proof. destruct v; simpl; congruence. Qed.

(** A value that is defined and is not an allowed [null] goes to the
    later stages as it is. *)
Lemma parseProperty_defined (fuel : nat) (s : Schema) (t : string)
    (T : Transformer) (v : value) :
  Transformers t = Some T ->
  is_undefined v = false ->
  is_null v
  && truthy (pget (_defaultSettings (touch s)) "allowNull") = false ->
  parseProperty fuel s (VStr t) v = laterStages fuel T (touch s) v.
Proof.
  intros HT Hu Hn. rewrite parseProperty_eq. cbn [parseProperty_step].
  assert (E : touch (if is_null v then touch s else s) = touch s)
    by (destruct (is_null v); [apply touch_idem | reflexivity]).
  destruct (is_null v) eqn:En.
  - rewrite Hn. unfold parseProperty_leaf. change (transformerOf Transformers (VStr t)) with (Transformers t). rewrite HT.
    cbv zeta. rewrite touch_idem. unfold withDefault. rewrite Hu.
    rewrite andb_false_r. simpl.
    destruct (castThrowable _ _) as [enabled message].
    rewrite ?Hu. reflexivity.
  - simpl andb. cbv iota. unfold parseProperty_leaf. change (transformerOf Transformers (VStr t)) with (Transformers t).
    rewrite HT. cbv zeta. unfold withDefault. rewrite Hu.
    rewrite andb_false_r. simpl.
    destruct (castThrowable _ _) as [enabled message].
    rewrite ?Hu. reflexivity.
Qed.

(** [undefined] at a leaf: the default, then the required check. *)
Lemma parseProperty_undefined (fuel : nat) (s : Schema) (t : string)
    (T : Transformer) :
  Transformers t = Some T ->
  let this := touch s in
  let required := pget (_defaultSettings this) "required" in
  parseProperty fuel s (VStr t) VUndefined =
  match withDefault call this VUndefined with
  | Throw e => Some (Throw e, this)
  | Ok v =>
      if is_undefined v && negb (truthy required) then Some (Ok VUndefined, this)
      else if is_undefined v && truthy required
              && truthy (fst (castThrowable required (requiredMessage this)))
           then Some (Throw (throwError this
                               (snd (castThrowable required (requiredMessage this)))
                               v), this)
           else laterStages fuel T this v
  end.
Proof.
  intros HT this required. rewrite parseProperty_eq. cbn [parseProperty_step].
  simpl is_null. cbv iota. simpl andb. cbv iota.
  unfold parseProperty_leaf. change (transformerOf Transformers (VStr t)) with (Transformers t). rewrite HT. cbv zeta.
  fold this. destruct (withDefault call this VUndefined) as [v|e]; [|reflexivity].
  fold required.
  destruct (castThrowable required (requiredMessage this)) as [enabled message].
  reflexivity.
Qed.

End Leaf.

(** ** What [parse] leaves of a node *)

(** Induction on values that reaches the items of arrays. *)
Lemma value_ind_items (P : value -> Prop) :
  P VUndefined -> P VNull -> (forall b, P (VBool b)) -> (forall n, P (VNum n)) ->
  P VNaN -> (forall s, P (VStr s)) -> (forall f r, P (VFun f r)) ->
  (forall items, Forall P items -> P (VArr items)) ->
  (forall ps, P (VObj ps)) ->
  forall v, P v.
Proof.
  intros Hu Hn Hb Hz Hnan Hs Hf Ha Ho.
  fix IH 1. intros [| |b|n| |s|f r|items|ps];
    [exact Hu | exact Hn | apply Hb | apply Hz | exact Hnan | apply Hs
    | apply Hf | | apply Ho].
  apply Ha. induction items as [|x items IHi]; constructor; [apply IH | exact IHi].
Qed.

Lemma same_leaf_refl (s : Schema) : same_leaf s s.
Proof. exists (currentType s), (_defaultSettings s). destruct s; reflexivity. Qed.

Lemma same_leaf_trans (a b c : Schema) :
  same_leaf a b -> same_leaf b c -> same_leaf a c.
Proof.
  intros [ct [ds ->]] [ct' [ds' ->]]. exists ct', ds'. reflexivity.
Qed.

Lemma same_leaf_defaults (s : Schema) (ds : props) :
  same_leaf s (set_defaultSettings s ds).
Proof. exists (currentType s), ds. destruct s; reflexivity. Qed.

Lemma same_leaf_current (s : Schema) (ct : value) :
  same_leaf s (set_currentType s ct).
Proof. exists ct, (_defaultSettings s). destruct s; reflexivity. Qed.

Lemma same_leaf_fields (s s' : Schema) :
  same_leaf s s' ->
  name s' = name s /\ parent s' = parent s /\ type s' = type s
  /\ children s' = children s /\ _settings s' = _settings s
  /\ _validate s' = _validate s /\ _cast s' = _cast s.
Proof. intros [ct [ds ->]]. repeat split. Qed.

Section Frame.

Variable call : nat -> Schema -> value -> result value.
Variable render : string -> list error -> value -> option Schema -> string.
Variable display : value -> string.
Variable Transformers : string -> option Transformer.

Lemma same_leaf_touch (s : Schema) : same_leaf s (touch Transformers s).
Proof. apply same_leaf_defaults. Qed.

Section Steps.

Variable rec : Schema -> value -> value -> M.

Lemma processLoaders_loop_same (ls : list value) :
  forall s v r s',
    processLoaders_loop rec s v ls = Some (r, s') -> same_leaf s s'.
Proof.
  induction ls as [|l ls IH]; intros s v r s'; simpl.
  - intros H; injection H as _ <-. apply same_leaf_refl.
  - destruct (guessType _) as [ty|e];
      [|intros H; injection H as _ <-; apply same_leaf_refl].
    destruct (rec _ ty v) as [[[v'|e] clone']|]; [| |discriminate].
    + intros H. apply IH in H.
      eapply same_leaf_trans; [apply same_leaf_defaults | exact H].
    + intros H; injection H as _ <-. apply same_leaf_defaults.
Qed.

Lemma loaderStage_same (T : Transformer) (s : Schema) (v : value)
    (r : result value) (s' : Schema) :
  loaderStage rec T s v = Some (r, s') -> same_leaf s s'.
Proof.
  unfold loaderStage, processLoaders.
  destruct (truthy (pget (_defaultSettings s) "loaders")).
  - destruct (processLoaders_loop rec s v _) as [[[v1|e] s1]|] eqn:E1;
      simpl; [| |discriminate].
    + apply processLoaders_loop_same in E1.
      destruct (truthy (T_loaders T)).
      * intros H. apply processLoaders_loop_same in H.
        eapply same_leaf_trans; eassumption.
      * intros H; injection H as _ <-. exact E1.
    + apply processLoaders_loop_same in E1.
      intros H; injection H as _ <-. exact E1.
  - simpl. destruct (truthy (T_loaders T)).
    + apply processLoaders_loop_same.
    + intros H; injection H as _ <-. apply same_leaf_refl.
Qed.

Lemma parseProperty_leaf_same (type : value) (s : Schema) (v : value)
    (r : result value) (s' : Schema) :
  parseProperty_leaf call render display Transformers rec type s v
  = Some (r, s') ->
  same_leaf s s'.
Proof.
  unfold parseProperty_leaf.
  destruct (transformerOf Transformers type) as [T|];
    [|intros H; injection H as _ <-; apply same_leaf_refl].
  cbv zeta.
  destruct (withDefault call _ v) as [v1|e];
    [|intros H; injection H as _ <-; apply same_leaf_touch].
  destruct (is_undefined v1 && negb _);
    [intros H; injection H as _ <-; apply same_leaf_touch|].
  destruct (castThrowable _ _) as [enabled message].
  destruct (is_undefined v1 && _ && _);
    [intros H; injection H as _ <-; apply same_leaf_touch|].
  destruct (loaderStage rec T _ v1) as [[[v2|e] s2]|] eqn:E; simpl;
    [| |discriminate]; apply loaderStage_same in E;
    intros H; injection H as _ <-.
  - eapply same_leaf_trans; [apply same_leaf_touch|].
    eapply same_leaf_trans; [exact E | apply same_leaf_touch].
  - eapply same_leaf_trans; [apply same_leaf_touch | exact E].
Qed.

Lemma parseProperty_step_same (type : value) :
  forall s v r s',
    parseProperty_step call render display Transformers rec type s v
    = Some (r, s') ->
    same_leaf s s'.
Proof.
  induction type as [| |b|n| |str|f ref|items IH|ps] using value_ind_items;
    intros s v r s'; cbn [parseProperty_step];
    (destruct (is_null v && _);
     [intros H; injection H as _ <-;
      destruct (is_null v); [apply same_leaf_touch | apply same_leaf_refl]|]);
    try (intros H; apply parseProperty_leaf_same in H;
         eapply same_leaf_trans; [|exact H];
         destruct (is_null v); [apply same_leaf_touch | apply same_leaf_refl]).
  assert (Hs : same_leaf s (if is_null v then touch Transformers s else s))
    by (destruct (is_null v); [apply same_leaf_touch | apply same_leaf_refl]).
  revert Hs. generalize (if is_null v then touch Transformers s else s).
  induction IH as [|t ts Ht _ IHts]; intros s0 Hs.
  - intros H; injection H as _ <-. exact Hs.
  - destruct (parseProperty_step _ _ _ _ _ t (set_currentType s0 t) v)
      as [[[res|e] s1]|] eqn:E; [| |discriminate]; apply Ht in E.
    + intros H; injection H as _ <-.
      eapply same_leaf_trans; [exact Hs|].
      eapply same_leaf_trans; [apply same_leaf_current | exact E].
    + apply IHts.
      eapply same_leaf_trans; [exact Hs|].
      eapply same_leaf_trans; [apply same_leaf_current | exact E].
Qed.

End Steps.

Lemma parseProperty_same (fuel : nat) (s : Schema) (type v : value)
    (r : result value) (s' : Schema) :
  parseProperty call render display Transformers fuel s type v = Some (r, s') ->
  same_leaf s s'.
Proof.
  destruct fuel; apply parseProperty_step_same.
Qed.

End Frame.

(** One unfolding of [parse]. *)
Lemma parse_S (call : nat -> Schema -> value -> result value)
    (render : string -> list error -> value -> option Schema -> string)
    (display : value -> string) (Transformers : string -> option Transformer)
    (fuel : nat) (s : Schema) (v : value) :
  parse call render display Transformers (S fuel) s v =
  andThen
    (if hasChildren s
     then runChildren render Transformers
            (parse call render display Transformers fuel) s v
     else parseProperty call render display Transformers fuel s (type s) v)
    (fun v s =>
       match parent s with
       | Some _ => Some (Ok v, s)
       | None =>
           match hook call (_cast s) s v with
           | Throw e => Some (Throw e, s)
           | Ok v' =>
               match hook call (_validate s) s v' with
               | Throw e => Some (Throw e, s)
               | Ok _ => Some (Ok v', s)
               end
           end
       end).
Proof. reflexivity. Qed.

(** ** C4: [undefined] at a leaf *)

Section LeafClaims.

Variable call : nat -> Schema -> value -> result value.
Variable render : string -> list error -> value -> option Schema -> string.
Variable display : value -> string.
Variable Transformers : string -> option Transformer.

Local Abbreviation parseProperty := (parseProperty call render display Transformers).
Local Abbreviation parse := (parse call render display Transformers).
Local Abbreviation touch := (touch Transformers).
Local Abbreviation throwError := (throwError render).
Local Abbreviation laterStages := (laterStages call render display Transformers).

(** On such a leaf, [parse] is [parseProperty] on the node's type. *)
Lemma parse_leaf (fuel : nat) (s : Schema) (v : value) :
  hasChildren s = false -> hookless s ->
  parse (S fuel) s v = parseProperty fuel s (type s) v.
Proof.
  intros Hc Hh. rewrite parse_S, Hc.
  destruct (parseProperty fuel s (type s) v) as [[[v'|e] s']|] eqn:E;
    simpl; try reflexivity.
  apply parseProperty_same, same_leaf_fields in E.
  destruct E as (_ & Hp & _ & _ & _ & Hv & Hcst).
  rewrite Hp. destruct (parent s) as [p|] eqn:Ep; [reflexivity|].
  destruct Hh as [Hh|[H1 H2]]; [congruence|].
  unfold hook. rewrite Hcst, Hv, H1, H2. reflexivity.
Qed.

Lemma fullPath_touch (s : Schema) : fullPath (touch s) = fullPath s.
Proof. destruct s; reflexivity. Qed.


End LeafClaims.



(** ** C3: the order of the later stages *)

Section StageOrder.

Variable call : nat -> Schema -> value -> result value.
Variable render : string -> list error -> value -> option Schema -> string.
Variable display : value -> string.
Variable Transformers : string -> option Transformer.

Local Abbreviation parseProperty := (parseProperty call render display Transformers).
Local Abbreviation parse := (parse call render display Transformers).
Local Abbreviation touch := (touch Transformers).
Local Abbreviation nodeStage := (nodeStage call).
Local Abbreviation stageOrder := (stageOrder call).

Lemma run_stages_app (a b : list stage) (v : value) :
  run_stages (a ++ b) v = (v' <- run_stages a v ;; run_stages b v').
Proof.
  revert v; induction a as [|[f|f] a IH]; intros v; simpl; [reflexivity| |].
  - destruct (f v); simpl; [apply IH | reflexivity].
  - destruct (f v); simpl; [apply IH | reflexivity].
Qed.

Lemma bind_ext {A B : Type} (r : result A) (f g : A -> result B) :
  (forall a, f a = g a) -> bind r f = bind r g.
Proof. intros H. destruct r; simpl; [apply H | reflexivity]. Qed.

Lemma bind_check {A B : Type} (x : result A) (v : value)
    (k : value -> result B) :
  (v' <- (_ <- x ;; Ok v) ;; k v') = (_ <- x ;; k v).
Proof. destruct x; reflexivity. Qed.

Lemma bind_Ok {A : Type} (r : result A) : (a <- r ;; Ok a) = r.
Proof. destruct r; reflexivity. Qed.

Lemma run_nodeStage_Transform (this : Schema) (m : string) (v : value) :
  run_stages (nodeStage Transform this m) v = runSettings call this m v.
Proof.
  unfold nodeStage, runSettings.
  destruct (truthy (pget (_defaultSettings this) m)); simpl;
    [apply bind_Ok | reflexivity].
Qed.

Lemma run_nodeStage_Check (this : Schema) (m : string) (v : value) :
  run_stages (nodeStage Check this m) v
  = (_ <- runSettings call this m v ;; Ok v).
Proof.
  unfold nodeStage, runSettings.
  destruct (truthy (pget (_defaultSettings this) m)); reflexivity.
Qed.

Lemma run_transformerStage_Transform (this : Schema)
    (m : option (Schema -> value -> result value)) (v : value) :
  run_stages (transformerStage Transform this m) v = runTransformer this m v.
Proof. destruct m; simpl; [apply bind_Ok | reflexivity]. Qed.

Lemma run_transformerStage_Check (this : Schema)
    (m : option (Schema -> value -> result value)) (v : value) :
  run_stages (transformerStage Check this m) v
  = (_ <- runTransformer this m v ;; Ok v).
Proof. destruct m; reflexivity. Qed.

Lemma pipeline_stageOrder (T : Transformer) (s : Schema) (v : value) :
  pipeline call Transformers T s v = run_stages (stageOrder T (touch s)) v.
Proof.
  unfold pipeline, stageOrder. cbv zeta.
  rewrite run_stages_app, run_nodeStage_Transform.
  apply bind_ext; intros v1.
  rewrite run_stages_app.
  replace (run_stages
             (if truthy (pget (_defaultSettings (touch s)) "autoCast")
              then transformerStage Transform (touch s) (T_cast T)
              else []) v1)
    with (if truthy (pget (_defaultSettings (touch s)) "autoCast")
          then runTransformer (touch s) (T_cast T) v1 else Ok v1)
    by (destruct (truthy _);
        [symmetry; apply run_transformerStage_Transform | reflexivity]).
  apply bind_ext; intros v2.
  rewrite run_stages_app, run_transformerStage_Check, bind_check.
  apply bind_ext; intros _.
  rewrite run_stages_app, run_nodeStage_Check, bind_check.
  apply bind_ext; intros _.
  symmetry. apply run_transformerStage_Transform.
Qed.


End StageOrder.


(** ** C2: a list of candidate types *)

Section Union.

Variable call : nat -> Schema -> value -> result value.
Variable render : string -> list error -> value -> option Schema -> string.
Variable display : value -> string.
Variable Transformers : string -> option Transformer.

Local Abbreviation parseProperty := (parseProperty call render display Transformers).
Local Abbreviation parse := (parse call render display Transformers).
Local Abbreviation touch := (touch Transformers).
Local Abbreviation unresolved := (unresolved render).
Local Abbreviation trials := (trials call render display Transformers).
Local Abbreviation allFail := (allFail call render display Transformers).

Lemma parseProperty_union (fuel : nat) (s : Schema) (ts : list value)
    (v : value) :
  parseProperty fuel s (VArr ts) v =
  let s0 := if is_null v then touch s else s in
  if is_null v && truthy (pget (_defaultSettings s0) "allowNull")
  then Some (Ok v, s0)
  else trials fuel v ts s0.
Proof.
  rewrite parseProperty_eq. cbn [parseProperty_step]. cbv zeta.
  destruct (is_null v && _); [reflexivity|].
  generalize (if is_null v then touch s else s).
  induction ts as [|t ts IH]; intros s0; [reflexivity|].
  cbn [trials]. rewrite parseProperty_eq.
  destruct (parseProperty_step _ _ _ _ _ t (set_currentType s0 t) v)
    as [[[res|e] s1]|]; try reflexivity.
  apply IH.
Qed.

Lemma trials_first (fuel : nat) (v : value) (pre : list value) :
  forall s s1 t post res s2,
    allFail fuel v pre s = Some s1 ->
    parseProperty fuel (set_currentType s1 t) t v = Some (Ok res, s2) ->
    trials fuel v (pre ++ t :: post) s = Some (Ok res, s2).
Proof.
  induction pre as [|p pre IH]; intros s s1 t post res s2; simpl.
  - intros H; injection H as <-. intros ->. reflexivity.
  - destruct (parseProperty fuel (set_currentType s p) p v)
      as [[[r|e] s']|]; try discriminate.
    apply IH.
Qed.

Lemma trials_none (fuel : nat) (v : value) (ts : list value) :
  forall s s1,
    allFail fuel v ts s = Some s1 ->
    trials fuel v ts s = Some (Throw (unresolved s1), s1).
Proof.
  induction ts as [|t ts IH]; intros s s1; simpl.
  - intros H; injection H as <-. reflexivity.
  - destruct (parseProperty fuel (set_currentType s t) t v)
      as [[[r|e] s']|]; try discriminate.
    apply IH.
Qed.


End Union.

Lemma string_or_number_constructed :
  Sample.new (VObj [("type", VArr [Sample.String_; Sample.Number_])])
  = Some (Ok string_or_number).
Proof. reflexivity. Qed.


(** ** Nested nodes *)

Lemma replace_dot_tail_dotless (n : string) :
  dotless n -> replace_dot_tail n = n.
Proof.
  unfold dotless. induction n as [|c n IH]; [reflexivity|].
  cbn [has_char replace_dot_tail]. rewrite (Ascii.eqb_sym c dot).
  destruct (Ascii.eqb dot c); cbn [orb andb]; [discriminate|].
  intros H. rewrite (IH H). reflexivity.
Qed.

Lemma split_dots_aux_dotless (n cur : string) :
  dotless n -> split_dots_aux cur n = [(cur ++ n)%string].
Proof.
  unfold dotless. revert cur; induction n as [|c n IH]; intros cur.
  - intros _. cbn [split_dots_aux]. f_equal. induction cur; simpl; congruence.
  - cbn [has_char split_dots_aux]. rewrite (Ascii.eqb_sym c dot).
    destruct (Ascii.eqb dot c); cbn [orb]; [discriminate|].
    intros H. rewrite (IH _ H). f_equal.
    induction cur; simpl; congruence.
Qed.

Lemma split_dots_dotless (n : string) : dotless n -> split_dots n = [n].
Proof. apply split_dots_aux_dotless. Qed.

Lemma schemaAtPath_dotless (s : Schema) (n : string) :
  dotless n -> schemaAtPath s n = Ok (childNamed s n).
Proof. intros H. unfold schemaAtPath. rewrite (split_dots_dotless n H). reflexivity. Qed.

Lemma find_named (pre rest : list Schema) (c : Schema) :
  ~ In (name c) (map name pre) ->
  List.find (fun x => String.eqb (name x) (name c)) (pre ++ c :: rest) = Some c.
Proof.
  induction pre as [|p pre IH]; simpl; intros H.
  - rewrite String.eqb_refl. reflexivity.
  - destruct (String.eqb (name p) (name c)) eqn:E.
    + apply String.eqb_eq in E. exfalso. apply H. left. exact E.
    + apply IH. intros Hin. apply H. right. exact Hin.
Qed.

Lemma replaceNamed_at (pre rest : list Schema) (c c' : Schema) :
  ~ In (name c) (map name pre) ->
  replaceNamed (pre ++ c :: rest) (name c) c' = pre ++ c' :: rest.
Proof.
  induction pre as [|p pre IH]; simpl; intros H.
  - rewrite String.eqb_refl. reflexivity.
  - destruct (String.eqb (name p) (name c)) eqn:E.
    + apply String.eqb_eq in E. exfalso. apply H. left. exact E.
    + f_equal. apply IH. intros Hin. apply H. right. exact Hin.
Qed.

Lemma pset_fresh (ro : props) (k : string) (v : value) :
  ~ In k (map fst ro) -> pset ro k v = ro ++ [(k, v)].
Proof.
  induction ro as [|[k1 v1] ro IH]; simpl; intros H; [reflexivity|].
  destruct (String.eqb k k1) eqn:E.
  - apply String.eqb_eq in E. exfalso. apply H. left. symmetry. exact E.
  - f_equal. apply IH. intros Hin. apply H. right. exact Hin.
Qed.

Lemma set_children_same (s : Schema) (cs : list Schema) :
  children s = cs -> set_children s cs = s.
Proof. intros <-. destruct s; reflexivity. Qed.

Lemma set_children_twice (s : Schema) (cs cs' : list Schema) :
  set_children (set_children s cs) cs' = set_children s cs'.
Proof. reflexivity. Qed.

Lemma putSchemaAtPath_dotless (s : Schema) (n : string) (c' : Schema) :
  dotless n ->
  putSchemaAtPath s n c' = set_children s (replaceNamed (children s) n c').
Proof.
  intros H. unfold putSchemaAtPath. rewrite (split_dots_dotless n H). reflexivity.
Qed.

Section Loop.

Variable rec : Schema -> value -> M.
Hypothesis rec_name :
  forall c v r c', rec c v = Some (r, c') -> name c' = name c.

(** Over children named apart and without dots, the loop of
    [runChildren] parses each child once, in order. *)
Lemma runChildren_loop_eachChild (obj : value) (rest : list Schema) :
  forall (pre : list Schema) (s : Schema) (ro : props) (errs : list error),
    children s = pre ++ rest ->
    NoDup (map name (pre ++ rest)) ->
    Forall (fun c => dotless (name c)) rest ->
    (forall k, In k (map fst ro) -> In k (map name pre)) ->
    runChildren_loop rec s obj (map name rest) ro errs =
    match eachChild rec obj rest with
    | None => None
    | Some outs =>
        Some (Ok (ro ++ assembled rest outs, errs ++ collected outs),
              set_children s (pre ++ map snd outs))
    end.
Proof.
  induction rest as [|c r IH]; intros pre s ro errs Hch Hnd Hdl Hro.
  - simpl. rewrite !app_nil_r. rewrite set_children_same; [reflexivity|].
    rewrite Hch, app_nil_r. reflexivity.
  - inversion Hdl as [|? ? Hc Hr]; subst.
    assert (Hpre : ~ In (name c) (map name pre)).
    { rewrite map_app in Hnd. apply NoDup_app_remove_r in Hnd as Hn1.
      intros Hin. simpl in Hnd.
      apply NoDup_remove_2 in Hnd. apply Hnd.
      apply in_or_app. left. exact Hin. }
    cbn [map runChildren_loop eachChild].
    rewrite (replace_dot_tail_dotless _ Hc), (schemaAtPath_dotless _ _ Hc).
    unfold childNamed. rewrite Hch, (find_named pre r c Hpre).
    fold (inputOf obj c).
    destruct (rec c (inputOf obj c)) as [[out c']|] eqn:Erec; [|reflexivity].
    pose proof (rec_name _ _ _ _ Erec) as Hname.
    assert (Hput : putSchemaAtPath s (name c) c'
                   = set_children s ((pre ++ [c']) ++ r)).
    { rewrite (putSchemaAtPath_dotless _ _ _ Hc), Hch,
        (replaceNamed_at pre r c c' Hpre), <- app_assoc. reflexivity. }
    assert (Hnd' : NoDup (map name ((pre ++ [c']) ++ r))).
    { rewrite <- app_assoc. simpl. rewrite map_app in *. simpl.
      rewrite Hname. exact Hnd. }
    assert (Hfresh : ~ In (name c) (map fst ro))
      by (intros Hin; apply Hpre, Hro, Hin).
    destruct out as [val|err]; rewrite Hput.
    + rewrite (IH (pre ++ [c'])); [| reflexivity | exact Hnd' | exact Hr |].
      * destruct (eachChild rec obj r) as [outs|]; [|reflexivity].
        rewrite set_children_twice. cbn [assembled collected flat_map map fst snd
                                           contributed kept].
        rewrite <- !app_assoc. simpl.
        destruct (is_undefined val); [reflexivity|].
        rewrite (pset_fresh _ _ _ Hfresh), <- app_assoc. reflexivity.
      * intros k Hk. rewrite map_app. apply in_or_app.
        destruct (is_undefined val); [left; apply Hro, Hk|].
        rewrite (pset_fresh _ _ _ Hfresh), map_app in Hk.
        apply in_app_or in Hk. destruct Hk as [Hk|Hk]; [left; apply Hro, Hk|].
        right. simpl in *. rewrite Hname. exact Hk.
    + rewrite (IH (pre ++ [c'])); [| reflexivity | exact Hnd' | exact Hr |].
      * destruct (eachChild rec obj r) as [outs|]; [|reflexivity].
        rewrite set_children_twice. cbn [assembled collected flat_map map fst snd
                                           contributed kept].
        rewrite <- !app_assoc. reflexivity.
      * intros k Hk. rewrite map_app. apply in_or_app. left. apply Hro, Hk.
Qed.

End Loop.

Lemma same_node_refl (s : Schema) : same_node s s.
Proof. repeat split. Qed.

Lemma same_node_trans (a b c : Schema) :
  same_node a b -> same_node b c -> same_node a c.
Proof.
  intros (H1 & H2 & H3 & H4) (K1 & K2 & K3 & K4).
  repeat split; congruence.
Qed.

Lemma same_node_children (s : Schema) (cs : list Schema) :
  same_node s (set_children s cs).
Proof. repeat split. Qed.

Lemma same_leaf_node (s s' : Schema) : same_leaf s s' -> same_node s s'.
Proof. intros [ct [ds ->]]. repeat split. Qed.

Lemma same_node_put (s : Schema) (key : string) (c' : Schema) :
  same_node s (putSchemaAtPath s key c').
Proof.
  unfold putSchemaAtPath.
  destruct (split_dots key) as [|path [|rest more]];
    try apply same_node_children.
  destruct (String.eqb rest ""); [apply same_node_children|].
  destruct (childNamed s path); [apply same_node_children | apply same_node_refl].
Qed.

Section SameNode.

Variable call : nat -> Schema -> value -> result value.
Variable render : string -> list error -> value -> option Schema -> string.
Variable display : value -> string.
Variable Transformers : string -> option Transformer.

Lemma runChildren_loop_same (rec : Schema -> value -> M) (obj : value)
    (pathNames : list string) :
  forall s ro errs r s',
    runChildren_loop rec s obj pathNames ro errs = Some (r, s') ->
    same_node s s'.
Proof.
  induction pathNames as [|n ns IH]; intros s ro errs r s'; simpl.
  - intros H; injection H as _ <-. apply same_node_refl.
  - destruct (schemaAtPath s _) as [[schema|]|e];
      [ | destruct (is_object obj && negb (is_null obj));
          [intros H; injection H as _ <-; apply same_node_refl | apply IH]
        | intros H; injection H as _ <-; apply same_node_refl ].
    destruct (rec schema _) as [[[val|err] schema']|]; [| |discriminate];
      intros H; apply IH in H;
      (eapply same_node_trans; [apply same_node_put | exact H]).
Qed.

Lemma runChildren_same (rec : Schema -> value -> M) (s : Schema) (obj : value)
    (r : result value) (s' : Schema) :
  runChildren render Transformers rec s obj = Some (r, s') -> same_node s s'.
Proof.
  unfold runChildren. cbv zeta.
  destruct (negb _ && is_undefined obj);
    [intros H; injection H as _ <-; repeat split|].
  destruct (runChildren_loop rec _ obj _ _ _) as [[[[ro errs]|e] s1]|] eqn:E;
    [| |discriminate]; apply runChildren_loop_same in E.
  - destruct errs; intros H; injection H as _ <-;
      (eapply same_node_trans; [|exact E]); repeat split.
  - intros H; injection H as _ <-.
    eapply same_node_trans; [|exact E]. repeat split.
Qed.

Lemma parse_same_node (fuel : nat) (s : Schema) (v : value)
    (r : result value) (s' : Schema) :
  parse call render display Transformers fuel s v = Some (r, s') ->
  same_node s s'.
Proof.
  destruct fuel as [|n]; [discriminate|]. rewrite parse_S.
  set (m := if hasChildren s then _ else _).
  assert (Hm : forall r1 s1, m = Some (r1, s1) -> same_node s s1).
  { subst m. intros r1 s1. destruct (hasChildren s).
    - apply runChildren_same.
    - intros H. apply parseProperty_same in H. apply same_leaf_node. exact H. }
  destruct m as [[[v1|e] s1]|]; simpl; [| |discriminate].
  - specialize (Hm _ _ eq_refl).
    destruct (parent s1); [intros H; injection H as _ <-; exact Hm|].
    destruct (hook call (_cast s1) s1 v1);
      [|intros H; injection H as _ <-; exact Hm].
    destruct (hook call (_validate s1) s1 a);
      intros H; injection H as _ <-; exact Hm.
  - specialize (Hm _ _ eq_refl). intros H; injection H as _ <-. exact Hm.
Qed.

(** On a node with no schema-level hook to run, [parse] is
    [runChildren]. *)
Lemma parse_nested (fuel : nat) (s : Schema) (obj : value) :
  hasChildren s = true -> hookless s ->
  parse call render display Transformers (S fuel) s obj
  = runChildren render Transformers
      (parse call render display Transformers fuel) s obj.
Proof.
  intros Hc Hh. rewrite parse_S, Hc.
  destruct (runChildren _ _ _ s obj) as [[[v'|e] s']|] eqn:E;
    simpl; try reflexivity.
  apply runChildren_same in E. destruct E as (_ & Hp & Hcst & Hv).
  rewrite Hp. destruct (parent s) as [p|] eqn:Ep; [reflexivity|].
  destruct Hh as [Hh|[H1 H2]]; [congruence|].
  unfold hook. rewrite Hcst, Hv, H1, H2. reflexivity.
Qed.

End SameNode.

(** ** C1: [runChildren] collects every failure *)

Lemma eachChild_Forall2 (rec : Schema -> value -> M) (obj : value)
    (cs : list Schema) (outs : list (result value * Schema)) :
  Forall2 (fun c out => rec c (inputOf obj c) = Some out) cs outs ->
  eachChild rec obj cs = Some outs.
Proof.
  induction 1 as [|c out cs outs H _ IH]; simpl; [reflexivity|].
  rewrite H, IH. reflexivity.
Qed.

Section Aggregation.

Variable call : nat -> Schema -> value -> result value.
Variable render : string -> list error -> value -> option Schema -> string.
Variable display : value -> string.
Variable Transformers : string -> option Transformer.

Local Abbreviation parse := (parse call render display Transformers).
Local Abbreviation touch := (touch Transformers).
Local Abbreviation structuralErrors := (structuralErrors render).
Local Abbreviation aggregate := (aggregate render).
Local Abbreviation outcome := (outcome render).

Lemma runChildren_tidy_eq (fuel : nat) (s : Schema) (obj : value) :
  tidy s ->
  let this := touch s in
  truthy (pget (_defaultSettings this) "required") = true
  \/ is_undefined obj = false ->
  runChildren render Transformers (parse fuel) s obj =
  match eachChild (parse fuel) obj (children s) with
  | None => None
  | Some outs =>
      Some (outcome (structuralErrors this obj ++ collected outs)
              (assembled (children s) outs),
            set_children this (map snd outs))
  end.
Proof.
  intros [Hnd Hdl] this Hgo. unfold runChildren. cbv zeta. fold this.
  replace (negb (truthy (pget (_defaultSettings this) "required"))
           && is_undefined obj) with false
    by (destruct Hgo as [-> | ->]; [reflexivity | apply eq_sym, andb_false_r]).
  fold (structuralErrors this obj).
  unfold ownPaths. change (children this) with (children s).
  rewrite (runChildren_loop_eachChild (parse fuel)
             (fun c v r c' H => proj1 (parse_same_node _ _ _ _ _ _ _ _ _ H))
             obj (children s) [] this [] (structuralErrors this obj));
    [| reflexivity | exact Hnd | exact Hdl | intros k []].
  destruct (eachChild (parse fuel) obj (children s)) as [outs|];
    [|reflexivity].
  simpl app.
  unfold outcome. destruct (structuralErrors this obj ++ collected outs);
    reflexivity.
Qed.

Lemma runChildren_tidy (fuel : nat) (s : Schema) (obj : value)
    (outs : list (result value * Schema)) :
  tidy s ->
  let this := touch s in
  truthy (pget (_defaultSettings this) "required") = true
  \/ is_undefined obj = false ->
  Forall2 (fun c out => parse fuel c (inputOf obj c) = Some out)
    (children s) outs ->
  runChildren render Transformers (parse fuel) s obj =
  Some (outcome (structuralErrors this obj ++ collected outs)
          (assembled (children s) outs),
        set_children this (map snd outs)).
Proof.
  intros Ht this Hgo Hall.
  rewrite (runChildren_tidy_eq fuel s obj Ht Hgo).
  rewrite (eachChild_Forall2 _ _ _ _ Hall). reflexivity.
Qed.

Lemma runChildren_absent (fuel : nat) (s : Schema) :
  truthy (pget (_defaultSettings (touch s)) "required") = false ->
  runChildren render Transformers (parse fuel) s VUndefined
  = Some (Ok VUndefined, touch s).
Proof.
  intros Hr. unfold runChildren. cbv zeta. rewrite Hr. reflexivity.
Qed.


End Aggregation.

Lemma person_constructed :
  Sample.new
    (VObj [("name", Sample.String_);
           ("age", VObj [("type", Sample.Number_); ("required", VBool false)]);
           ("address", VObj [("city", Sample.String_); ("zip", Sample.Number_)])])
  = Some (Ok person).
Proof. reflexivity. Qed.

Lemma optional_root_constructed :
  Schema_new Sample.Transformers (VObj [("a", Sample.String_)]) ""
    (VObj []) None VUndefined VUndefined [("required", VBool false)]
  = Some (Ok optional_root).
Proof. reflexivity. Qed.

Lemma dotted_root_constructed :
  Sample.new (VObj [("a.b", Sample.String_); ("c", Sample.String_)])
  = Some (Ok dotted_root).
Proof. reflexivity. Qed.



(** ** C5: the keys of the sanitized object *)

Lemma assembled_keys (cs : list Schema) :
  forall outs k,
    In k (map fst (assembled cs outs)) -> In k (map name cs).
Proof.
  induction cs as [|c cs IH]; intros [|[out c'] outs] k; simpl; try tauto.
  rewrite map_app, in_app_iff. intros [H|H]; [|right; eapply IH; exact H].
  left. destruct out as [val|e]; simpl in H; [|tauto].
  destruct (is_undefined val); simpl in H; [tauto|]. destruct H; tauto.
Qed.

Lemma assembled_assoc (cs : list Schema) :
  forall outs c out,
    NoDup (map name cs) ->
    In (c, out) (combine cs outs) ->
    assoc (name c) (assembled cs outs) = definedAs (fst out).
Proof.
  induction cs as [|c0 cs IH]; intros [|[out0 c0'] outs] c out Hnd; simpl;
    try tauto.
  inversion Hnd as [|? ? Hn Hd]; subst.
  rewrite assoc_app. intros [H|H].
  - injection H as <- <-. simpl fst.
    destruct out0 as [val|e]; simpl.
    + destruct (is_undefined val); simpl.
      * apply assoc_none_notin. intros Hin. apply Hn.
        eapply assembled_keys. exact Hin.
      * rewrite String.eqb_refl. reflexivity.
    + apply assoc_none_notin. intros Hin. apply Hn.
      eapply assembled_keys. exact Hin.
  - assert (Hne : String.eqb (name c) (name c0) = false).
    { apply String.eqb_neq. intros E. apply Hn. rewrite <- E.
      apply in_combine_l in H. apply in_map. exact H. }
    replace (assoc (name c) (kept c0 out0)) with (@None value).
    + apply IH; assumption.
    + destruct out0 as [val|e]; simpl; [|reflexivity].
      destruct (is_undefined val); simpl; [reflexivity|].
      rewrite Hne. reflexivity.
Qed.

Section Sanitized.

Variable call : nat -> Schema -> value -> result value.
Variable render : string -> list error -> value -> option Schema -> string.
Variable display : value -> string.
Variable Transformers : string -> option Transformer.

Local Abbreviation parse := (parse call render display Transformers).

Lemma sanitized_object_general (fuel : nat) (s : Schema) (obj : value)
    (outs : list (result value * Schema)) (res : value) (s' : Schema) :
  tidy s ->
  Forall2 (fun c out => parse fuel c (inputOf obj c) = Some out)
    (children s) outs ->
  runChildren render Transformers (parse fuel) s obj = Some (Ok res, s') ->
  (is_undefined obj = true /\ res = VUndefined)
  \/ exists ro,
      res = VObj ro
      /\ (forall k, In k (map fst ro) -> In k (map name (children s)))
      /\ (forall c out,
            In (c, out) (combine (children s) outs) ->
            assoc (name c) ro = definedAs (fst out)).
Proof.
  intros Ht Hall Hp.
  assert (Hobj :
            truthy (pget (_defaultSettings (touch Transformers s)) "required")
            = true \/ is_undefined obj = false ->
             runChildren render Transformers (parse fuel) s obj
             = Some (outcome render
                       (structuralErrors render (touch Transformers s) obj
                        ++ collected outs)
                       (assembled (children s) outs),
                     set_children (touch Transformers s) (map snd outs)))
    by (intros Hgo;
        exact (runChildren_tidy call render display Transformers
                 fuel s obj outs Ht Hgo Hall)).
  assert (Hcase :
            truthy (pget (_defaultSettings (touch Transformers s)) "required")
            = true \/ is_undefined obj = false ->
             exists ro,
               res = VObj ro
               /\ (forall k, In k (map fst ro) -> In k (map name (children s)))
               /\ (forall c out,
                     In (c, out) (combine (children s) outs) ->
                     assoc (name c) ro = definedAs (fst out))).
  { intros Hgo. rewrite (Hobj Hgo) in Hp. unfold outcome in Hp.
    destruct (structuralErrors _ _ _ ++ collected outs); [|discriminate].
    injection Hp as <- _. exists (assembled (children s) outs).
    split; [reflexivity|]. split.
    - intros k. apply assembled_keys.
    - intros c out. apply assembled_assoc. apply Ht. }
  destruct (truthy (pget (_defaultSettings (touch Transformers s)) "required"))
    eqn:Er; [right; apply Hcase; left; reflexivity|].
  destruct (is_undefined obj) eqn:Eu;
    [|right; apply Hcase; right; reflexivity].
  left. split; [reflexivity|].
  destruct obj; try discriminate.
  rewrite (runChildren_absent call render display Transformers fuel s Er) in Hp.
  injection Hp as <- _. reflexivity.
Qed.

End Sanitized.

Lemma dotted_pair_constructed :
  Sample.new
    (VObj [("a.b", Sample.String_);
           ("aundefined", VObj [("type", Sample.String_);
                                ("required", VBool false)])])
  = Some (Ok dotted_pair).
Proof. reflexivity. Qed.




(** ** C7: what a [ValidationError] carries *)

Lemma carries_Ok (this : Schema) (v x : value) : carries this v (Ok x).
Proof. intros e H; discriminate. Qed.

Lemma carries_TypeError (this : Schema) (v : value) (m : string) :
  carries this v (Throw (TypeError m)).
Proof. intros e H; injection H as <-; discriminate. Qed.

Lemma carries_bind (this : Schema) (v : value) (a : result value)
    (k : value -> result value) :
  carries this v a -> (forall y, carries this v (k y)) ->
  carries this v (bind a k).
Proof.
  intros Ha Hk. destruct a as [y|e0]; simpl; [apply Hk|exact Ha].
Qed.

Section Carried.

Variable render : string -> list error -> value -> option Schema -> string.
Variable Number_of : value -> value.
Variable regex_test : value -> string -> option bool.

Lemma carries_fail (this : Schema) (message v : value) :
  carries this v (fail render this message v).
Proof.
  intros e H. injection H as <-.
  unfold throwError, ValidationError_new.
  destruct message; simpl; try discriminate. intros _. split; reflexivity.
Qed.

Lemma String_validate_carries (this : Schema) (v : value) :
  carries this v (String_validate render Number_of regex_test this v).
Proof.
  unfold String_validate.
  destruct v; try apply carries_fail.
  repeat (apply carries_bind; [|intros _]);
    repeat match goal with
           | |- carries _ _ (Ok _) => apply carries_Ok
           | |- carries _ _ (fail _ _ _ _) => apply carries_fail
           | |- carries _ _ (Throw (TypeError _)) => apply carries_TypeError
           | |- carries _ _ (if ?b then _ else _) => destruct b
           | |- carries _ _ (let (_, _) := ?p in _) => destruct p
           | |- carries _ _ (match ?x with _ => _ end) => destruct x
           end.
Qed.

Lemma Number_validate_carries (this : Schema) (v : value) :
  carries this v (Number_validate render this v).
Proof.
  unfold Number_validate. destruct v;
    first [apply carries_Ok | apply carries_fail].
Qed.

Lemma Boolean_validate_carries (this : Schema) (v : value) :
  carries this v (Boolean_validate render this v).
Proof.
  unfold Boolean_validate. destruct v;
    first [apply carries_Ok | apply carries_fail].
Qed.

Lemma Object_validate_carries (this : Schema) (v : value) :
  carries this v (Object_validate render this v).
Proof.
  unfold Object_validate. destruct (is_object v);
    [apply carries_Ok | apply carries_fail].
Qed.

Lemma Function_validate_carries (this : Schema) (v : value) :
  carries this v (Function_validate render this v).
Proof.
  unfold Function_validate. destruct (is_function v);
    [apply carries_Ok | apply carries_fail].
Qed.

End Carried.

Section ErrorFields.

Variable call : nat -> Schema -> value -> result value.
Variable render : string -> list error -> value -> option Schema -> string.
Variable display : value -> string.
Variable Transformers : string -> option Transformer.

Local Abbreviation parseProperty := (parseProperty call render display Transformers).
Local Abbreviation parse := (parse call render display Transformers).
Local Abbreviation touch := (touch Transformers).

Lemma required_error_fields (fuel : nat) (s : Schema) (t : string)
    (T : Transformer) :
  Transformers t = Some T ->
  let this := touch s in
  is_undefined (pget (_defaultSettings this) "default") = true ->
  truthy (pget (_defaultSettings this) "required") = true ->
  (forall enabled message,
      pget (_defaultSettings this) "required" <> VArr [enabled; message]) ->
  throwsWith (parseProperty fuel s (VStr t) VUndefined) this (Some this)
    VUndefined.
Proof.
  intros HT this Hd Hr Hpair.
  rewrite (parseProperty_undefined call render display Transformers
             fuel s t T HT).
  cbv zeta. fold this. unfold withDefault. rewrite Hd, Hr.
  cbn [negb andb is_undefined].
  assert (Ec : castThrowable (pget (_defaultSettings this) "required")
                 (requiredMessage this)
               = (pget (_defaultSettings this) "required",
                  requiredMessage this)).
  { unfold castThrowable.
    destruct (pget (_defaultSettings this) "required") as [| | | | | | |items|];
      try reflexivity.
    destruct items as [|a [|b [|c r]]]; try reflexivity.
    exfalso. exact (Hpair a b eq_refl). }
  rewrite Ec. cbn [fst snd]. rewrite Hr. cbn [negb andb is_undefined].
  eexists. split; [reflexivity|]. repeat split.
Qed.

Lemma unknown_type_error_fields (fuel : nat) (s : Schema) (t : string)
    (v : value) :
  Transformers t = None -> is_null v = false ->
  throwsWith (parseProperty fuel s (VStr t) v) s (Some s) VUndefined.
Proof.
  intros HT Hn. rewrite parseProperty_eq. cbn [parseProperty_step].
  rewrite Hn. simpl andb. cbv iota.
  unfold parseProperty_leaf. change (transformerOf Transformers (VStr t)) with (Transformers t). rewrite HT.
  eexists. split; [reflexivity|]. repeat split.
Qed.

Lemma unresolved_error_fields (fuel : nat) (s : Schema) (ts : list value)
    (v : value) (s1 : Schema) :
  is_null v = false ->
  allFail call render display Transformers fuel v ts s = Some s1 ->
  throwsWith (parseProperty fuel s (VArr ts) v) s1 (Some s1) VUndefined.
Proof.
  intros Hn Hf. rewrite parseProperty_union. cbv zeta. rewrite Hn.
  simpl andb. cbv iota.
  rewrite (trials_none _ _ _ _ _ _ _ _ _ Hf).
  eexists. split; [reflexivity|]. repeat split.
Qed.

Lemma aggregate_error_fields (fuel : nat) (s : Schema) (obj : value)
    (outs : list (result value * Schema)) :
  tidy s ->
  let this := touch s in
  truthy (pget (_defaultSettings this) "required") = true
  \/ is_undefined obj = false ->
  Forall2 (fun c out => parse fuel c (inputOf obj c) = Some out)
    (children s) outs ->
  structuralErrors render this obj ++ collected outs <> [] ->
  throwsWith (runChildren render Transformers (parse fuel) s obj)
    (set_children this (map snd outs)) None VUndefined.
Proof.
  intros Ht this Hgo Hall Hne.
  rewrite (runChildren_tidy call render display Transformers
             fuel s obj outs Ht Hgo Hall).
  fold this. unfold outcome.
  destruct (structuralErrors render this obj ++ collected outs);
    [congruence|].
  eexists. split; [reflexivity|]. repeat split.
Qed.


End ErrorFields.



(** ** C6: parsing what [parse] returned *)

Lemma incrementing_constructed :
  Sample.new (VObj [("type", Sample.Number_); ("cast", VFun "cast" 7)])
  = Some (Ok incrementing).
Proof. reflexivity. Qed.


Section Idempotence.

Variable call : nat -> Schema -> value -> result value.
Variable render : string -> list error -> value -> option Schema -> string.
Variable display : value -> string.
Variable Transformers : string -> option Transformer.

Local Abbreviation parseProperty := (parseProperty call render display Transformers).
Local Abbreviation parse := (parse call render display Transformers).
Local Abbreviation touch := (touch Transformers).
Local Abbreviation plainLeaf := (plainLeaf Transformers).
Local Abbreviation plain := (plain Transformers).

Lemma parseProperty_touch (fuel : nat) (s : Schema) (t : string)
    (T : Transformer) (v : value) :
  Transformers t = Some T ->
  parseProperty fuel (touch s) (VStr t) v = parseProperty fuel s (VStr t) v.
Proof.
  intros HT. rewrite !parseProperty_eq. cbn [parseProperty_step].
  destruct (is_null v); rewrite ?touch_idem.
  - destruct (true && _); [reflexivity|].
    unfold parseProperty_leaf. change (transformerOf Transformers (VStr t)) with (Transformers t). rewrite HT. cbv zeta.
    rewrite ?touch_idem. reflexivity.
  - simpl andb. cbv iota.
    unfold parseProperty_leaf. change (transformerOf Transformers (VStr t)) with (Transformers t). rewrite HT. cbv zeta.
    rewrite ?touch_idem. reflexivity.
Qed.

Lemma laterStages_plain (fuel : nat) (s : Schema) (t : string)
    (T : Transformer) (v : value) :
  plainLeaf s t T ->
  laterStages call render display Transformers fuel T (touch s) v
  = Some (pipeline call Transformers T (touch s) v, touch s).
Proof.
  intros (_ & _ & _ & _ & (_ & Hl & _) & Hld & _).
  unfold laterStages, loaderStage.
  change (_defaultSettings (touch s)) with (settings Transformers s).
  rewrite Hld. cbv beta iota delta [andThen]. rewrite Hl.
  cbv beta iota. rewrite touch_idem. reflexivity.
Qed.

(** On a plain leaf, what the pipeline returns it returns again. *)
Lemma pipeline_fixed (s : Schema) (t : string) (T : Transformer)
    (v r : value) :
  plainLeaf s t T ->
  pipeline call Transformers T (touch s) v = Ok r ->
  is_undefined r = false /\ pipeline call Transformers T (touch s) r = Ok r.
Proof.
  intros (_ & _ & _ & _ & (Hp & _ & Hv) & _ & Hc).
  unfold pipeline, runSettings. cbv zeta. rewrite touch_idem.
  change (_defaultSettings (touch s)) with (settings Transformers s).
  rewrite Hc, Hp. simpl bind at 1.
  destruct (truthy (pget (settings Transformers s) "autoCast")).
  - destruct (runTransformer (touch s) (T_cast T) v) as [v2|e] eqn:Ec;
      simpl; [|discriminate].
    destruct (runTransformer (touch s) (T_validate T) v2) as [x|e] eqn:Ev;
      simpl; [|discriminate].
    destruct (Hv _ _ _ Ev) as [Hu Hcast].
    destruct (truthy (pget (settings Transformers s) "validate")).
    + destruct (js_call call _ (touch s) v2) as [y|e] eqn:En;
        simpl; [|discriminate].
      intros H; injection H as <-. split; [exact Hu|].
      rewrite Hcast. simpl. rewrite Ev. simpl. rewrite En. reflexivity.
    + simpl. intros H; injection H as <-. split; [exact Hu|].
      rewrite Hcast. simpl. rewrite Ev. reflexivity.
  - simpl.
    destruct (runTransformer (touch s) (T_validate T) v) as [x|e] eqn:Ev;
      simpl; [|discriminate].
    destruct (Hv _ _ _ Ev) as [Hu _].
    destruct (truthy (pget (settings Transformers s) "validate")).
    + destruct (js_call call _ (touch s) v) as [y|e] eqn:En;
        simpl; [|discriminate].
      intros H; injection H as <-. split; [exact Hu|].
      rewrite Ev. simpl. rewrite En. reflexivity.
    + simpl. intros H; injection H as <-. split; [exact Hu|].
      rewrite Ev. reflexivity.
Qed.

(** On a plain leaf, a successful [parseProperty] leaves the node as
    its settings getter does, and returns again what it returned. *)
Lemma leaf_idempotent (fuel : nat) (s : Schema) (t : string)
    (T : Transformer) (x r : value) (s' : Schema) :
  plainLeaf s t T ->
  parseProperty fuel s (VStr t) x = Some (Ok r, s') ->
  s' = touch s /\ parseProperty fuel s' (VStr t) r = Some (Ok r, s').
Proof.
  intros Hpl Hfirst.
  pose proof Hpl as (_ & _ & _ & HT & _).
  assert (Hcases : s' = touch s
                   /\ (r = x
                       \/ (is_undefined r = false
                           /\ pipeline call Transformers T (touch s) r = Ok r))).
  { destruct (is_undefined x) eqn:Eu.
    - destruct x; try discriminate.
      rewrite (parseProperty_undefined call render display Transformers
                 fuel s t T HT) in Hfirst.
      cbv zeta in Hfirst.
      destruct (withDefault call (touch s) VUndefined) as [v|e];
        [|discriminate].
      destruct (is_undefined v && negb _);
        [injection Hfirst as <- <-; auto|].
      destruct (is_undefined v && _ && _); [discriminate|].
      rewrite (laterStages_plain fuel s t T v Hpl) in Hfirst.
      injection Hfirst as Hpipe <-. split; [reflexivity|]. right.
      eapply pipeline_fixed; eassumption.
    - destruct (is_null x
                && truthy (pget (_defaultSettings (touch s)) "allowNull"))
        eqn:En.
      + rewrite parseProperty_eq in Hfirst. cbn [parseProperty_step] in Hfirst.
        apply andb_true_iff in En. destruct En as [En1 En2].
        rewrite En1 in Hfirst. rewrite En2 in Hfirst. simpl in Hfirst.
        injection Hfirst as <- <-. auto.
      + rewrite (parseProperty_defined call render display Transformers
                   fuel s t T x HT Eu En) in Hfirst.
        rewrite (laterStages_plain fuel s t T x Hpl) in Hfirst.
        injection Hfirst as Hpipe <-. split; [reflexivity|]. right.
        eapply pipeline_fixed; eassumption. }
  destruct Hcases as [-> [-> | [Hu Hpipe]]]; split; try reflexivity.
  - rewrite (parseProperty_touch fuel s t T x HT). exact Hfirst.
  - rewrite (parseProperty_touch fuel s t T r HT).
    destruct (is_null r
              && truthy (pget (_defaultSettings (touch s)) "allowNull"))
      eqn:En.
    + rewrite parseProperty_eq. cbn [parseProperty_step].
      apply andb_true_iff in En. destruct En as [En1 En2].
      rewrite En1. rewrite En2. reflexivity.
    + rewrite (parseProperty_defined call render display Transformers
                 fuel s t T r HT Hu En).
      rewrite (laterStages_plain fuel s t T r Hpl), Hpipe. reflexivity.
Qed.

Lemma strip_prefix_dotless (k p : string) :
  dotless p -> strip_prefix (k ++ ".")%string p = None.
Proof.
  unfold dotless. revert p; induction k as [|a k IH]; intros [|b p];
    try reflexivity.
  - cbn [append strip_prefix has_char].
    change (Ascii.eqb "."%char b) with (Ascii.eqb dot b).
    destruct (Ascii.eqb dot b); [discriminate | reflexivity].
  - cbn [append strip_prefix has_char].
    destruct (Ascii.eqb a b); [|reflexivity].
    intros H. apply IH. apply orb_false_iff in H. apply H.
Qed.

Lemma childProps_dotless (k : string) (names : list string) :
  Forall dotless names -> filter_map (propMatch k) names = [].
Proof.
  induction 1 as [|p names Hp _ IH]; simpl; [reflexivity|].
  unfold propMatch at 1. rewrite (strip_prefix_dotless k p Hp). exact IH.
Qed.

(** An object whose keys are among dotless names passes the structural
    check against them. *)
Lemma propertiesRestricted_known (names : list string) (ro : props) :
  Forall dotless names ->
  (forall k, In k (map fst ro) -> In k names) ->
  propertiesRestricted (VObj ro) names = Ok true.
Proof.
  intros Hd. cbn [propertiesRestricted].
  induction ro as [|[k x] ro IH]; intros Hk; [reflexivity|].
  unfold restricted_step at 1.
  rewrite (childProps_dotless k names Hd).
  assert (Hm : mem_str k names = true)
    by (apply mem_str_In, Hk; left; reflexivity).
  rewrite Hm. simpl andb.
  assert (Hrest : forall k0, In k0 (map fst ro) -> In k0 names)
    by (intros k0 H0; apply Hk; right; exact H0).
  destruct (is_object x && negb (isArray x)); apply IH; exact Hrest.
Qed.

Lemma eachChild_outs (rec : Schema -> value -> M) (obj : value)
    (cs : list Schema) :
  forall outs,
    eachChild rec obj cs = Some outs ->
    Forall2 (fun c out => rec c (inputOf obj c) = Some out) cs outs.
Proof.
  induction cs as [|c cs IH]; intros outs; simpl.
  - intros H; injection H as <-. constructor.
  - destruct (rec c (inputOf obj c)) as [out|] eqn:E; [|discriminate].
    destruct (eachChild rec obj cs) as [outs'|]; [|discriminate].
    intros H; injection H as <-. constructor; [exact E | apply IH; reflexivity].
Qed.

Lemma trapped_nonempty (e : error) : trapped e <> [].
Proof.
  unfold trapped. destruct (instanceof_ValidationError e); [|discriminate].
  destruct (error_errors e) eqn:E; [discriminate|]. discriminate.
Qed.

Lemma collected_nil (outs : list (result value * Schema)) :
  collected outs = [] ->
  Forall (fun o => exists val, fst o = Ok val) outs.
Proof.
  induction outs as [|[[val|e] c'] outs IH]; simpl; intros H; constructor.
  - exists val. reflexivity.
  - apply IH. exact H.
  - apply app_eq_nil in H. destruct H as [H _].
    exfalso. exact (trapped_nonempty e H).
  - apply app_eq_nil in H. apply IH. apply H.
Qed.

Lemma Forall2_combine {A B : Type} (R : A -> B -> Prop) (l : list A)
    (l' : list B) (a : A) (b : B) :
  Forall2 R l l' -> In (a, b) (combine l l') -> R a b.
Proof.
  induction 1 as [|x y l l' H _ IH]; simpl; [tauto|].
  intros [E|E]; [injection E as <- <-; exact H | apply IH, E].
Qed.

Lemma Forall2_pointwise {A B : Type} (R : A -> B -> Prop) (Q : B -> Prop)
    (l : list A) (l' : list B) :
  Forall2 R l l' ->
  (forall a b, In (a, b) (combine l l') -> Q b) ->
  Forall Q l'.
Proof.
  induction 1 as [|x y l l' H _ IH]; intros HQ; constructor.
  - apply (HQ x y). left. reflexivity.
  - apply IH. intros a b Hin. apply (HQ a b). right. exact Hin.
Qed.

Lemma outs_names (fuel : nat) (obj : value) (cs : list Schema)
    (outs : list (result value * Schema)) :
  Forall2 (fun c out => parse fuel c (inputOf obj c) = Some out) cs outs ->
  map name (map snd outs) = map name cs.
Proof.
  induction 1 as [|c [out c'] cs outs H _ IH]; simpl; [reflexivity|].
  apply parse_same_node in H. destruct H as [Hn _]. simpl in Hn.
  rewrite Hn, IH. reflexivity.
Qed.

Lemma assembled_names (cs cs' : list Schema) :
  forall outs,
    map name cs' = map name cs ->
    assembled cs' outs = assembled cs outs.
Proof.
  revert cs'; induction cs as [|c cs IH]; intros [|c' cs'] outs; simpl;
    try discriminate; try reflexivity.
  intros H; injection H as Hn Hr.
  destruct outs as [|[out x] outs]; [reflexivity|].
  rewrite (IH cs' outs Hr). unfold kept. rewrite Hn. reflexivity.
Qed.

Lemma touch_nested_fixed (s : Schema) (cs' : list Schema) :
  hasChildren s = true -> cs' <> [] ->
  touch (set_children (touch s) cs') = set_children (touch s) cs'.
Proof.
  intros Hc Hne.
  assert (Hc' : hasChildren (set_children (touch s) cs') = true)
    by (destruct cs'; [congruence | reflexivity]).
  assert (E : settings Transformers (set_children (touch s) cs')
              = settings Transformers s).
  { unfold settings. rewrite Hc', Hc. simpl andb.
    change (currentType (set_children (touch s) cs')) with (currentType s).
    change (_settings (set_children (touch s) cs')) with (_settings s).
    change (_defaultSettings (set_children (touch s) cs'))
      with (settings Transformers s).
    unfold settings. rewrite Hc. simpl andb.
    destruct (transformerOf Transformers (currentType s));
      exact (assign_idem [VObj (_settings s)] _). }
  rewrite (touch_eq Transformers (set_children (touch s) cs')), E.
  rewrite (touch_eq Transformers s). reflexivity.
Qed.

Lemma Forall2_map_snd {A B C : Type} (R : A -> B * C -> Prop)
    (Q : C -> B * C -> Prop) (l : list A) (l' : list (B * C)) :
  Forall2 R l l' ->
  (forall a b, In (a, b) (combine l l') -> Q (snd b) b) ->
  Forall2 Q (map snd l') l'.
Proof.
  induction 1 as [|x y l l' H _ IH]; intros HQ; simpl; constructor.
  - apply (HQ x y). left. reflexivity.
  - apply IH. intros a b Hin. apply (HQ a b). right. exact Hin.
Qed.

Lemma inputOf_assembled (cs : list Schema)
    (outs : list (result value * Schema)) (c c' : Schema) (val : value) :
  NoDup (map name cs) ->
  In (c, (Ok val, c')) (combine cs outs) ->
  name c' = name c ->
  inputOf (VObj (assembled cs outs)) c' = val.
Proof.
  intros Hnd Hin Hn. unfold inputOf. simpl andb. cbv iota.
  rewrite get_obj. unfold pget.
  rewrite Hn, (assembled_assoc cs outs c (Ok val, c') Hnd Hin). simpl.
  destruct val; reflexivity.
Qed.

Lemma hookless_same (s s' : Schema) :
  same_node s s' -> hookless s -> hookless s'.
Proof.
  intros (_ & Hp & Hc & Hv). unfold hookless. rewrite Hp, Hc, Hv. tauto.
Qed.

Lemma nested_idempotent (n : nat) (s : Schema) (x r : value) (s' : Schema) :
  (forall c y v c',
      plain c -> hookless c ->
      parse n c y = Some (Ok v, c') -> parse n c' v = Some (Ok v, c')) ->
  hasChildren s = true -> tidy s ->
  Forall plain (children s) -> Forall hookless (children s) ->
  hookless s ->
  parse (S n) s x = Some (Ok r, s') ->
  parse (S n) s' r = Some (Ok r, s').
Proof.
  intros IH Hc Ht Hpl Hhl Hh Hfirst.
  pose proof (parse_same_node _ _ _ _ _ _ _ _ _ Hfirst) as Hsame.
  pose proof (hookless_same _ _ Hsame Hh) as Hh'.
  rewrite parse_nested in Hfirst by assumption.
  assert (Hgo : {truthy (pget (_defaultSettings (touch s)) "required") = true
                 \/ is_undefined x = false}
                + {truthy (pget (_defaultSettings (touch s)) "required") = false
                   /\ x = VUndefined}).
  { destruct (truthy (pget (_defaultSettings (touch s)) "required"));
      [left; left; reflexivity|].
    destruct x; try (left; right; reflexivity). right. split; reflexivity. }
  destruct Hgo as [Hgo|[Hr ->]].
  - rewrite (runChildren_tidy_eq call render display Transformers
               n s x Ht Hgo) in Hfirst.
    destruct (eachChild (parse n) x (children s)) as [outs|] eqn:Eeach;
      [|discriminate].
    apply eachChild_outs in Eeach.
    unfold outcome in Hfirst.
    destruct (structuralErrors render (touch s) x ++ collected outs)
      eqn:Eerr; [|discriminate].
    injection Hfirst as <- <-.
    apply app_eq_nil in Eerr. destruct Eerr as [_ Ecol].
    pose proof (collected_nil outs Ecol) as Hok.
    pose proof (outs_names n x (children s) outs Eeach) as Hnames.
    destruct Ht as [Hnd Hdl].
    assert (Hne : map snd outs <> []).
    { intros E. rewrite E in Hnames. unfold hasChildren in Hc.
      destruct (children s); [discriminate | discriminate]. }
    set (s' := set_children (touch s) (map snd outs)) in *.
    assert (Hc' : hasChildren s' = true)
      by (unfold hasChildren; simpl; destruct (map snd outs);
          [congruence | reflexivity]).
    assert (Hdl' : Forall dotless (map name (children s)))
      by (apply Forall_map; exact Hdl).
    assert (Ht' : tidy s').
    { split; simpl children; [rewrite Hnames; exact Hnd|].
      apply (proj1 (Forall_map name dotless (map snd outs))).
      rewrite Hnames. exact Hdl'. }
    rewrite parse_nested by assumption.
    rewrite (runChildren_tidy_eq call render display Transformers
               n s' (VObj (assembled (children s) outs)) Ht'
               (or_intror eq_refl)).
    assert (Htouch : touch s' = s')
      by (apply touch_nested_fixed; assumption).
    rewrite Htouch. simpl children.
    assert (Hsecond :
              Forall2 (fun c out =>
                         parse n c (inputOf (VObj (assembled (children s) outs)) c)
                         = Some out)
                (map snd outs) outs).
    { apply (Forall2_map_snd _ _ _ _ Eeach).
      intros c [out c'] Hin. simpl snd.
      pose proof (Forall2_combine _ _ _ _ _ Eeach Hin) as Hparse.
      assert (Hval : exists val, out = Ok val).
      { rewrite Forall_forall in Hok.
        apply (Hok (out, c')). eapply in_combine_r. exact Hin. }
      destruct Hval as [val ->].
      pose proof (parse_same_node _ _ _ _ _ _ _ _ _ Hparse) as [Hn _].
      rewrite (inputOf_assembled _ _ c c' val Hnd Hin Hn).
      apply in_combine_l in Hin.
      rewrite Forall_forall in Hpl, Hhl.
      exact (IH c _ val c' (Hpl c Hin) (Hhl c Hin) Hparse). }
    rewrite (eachChild_Forall2 _ _ _ _ Hsecond).
    rewrite (assembled_names (children s) (map snd outs) outs Hnames).
    assert (Hstruct : structuralErrors render s'
                        (VObj (assembled (children s) outs)) = []).
    { unfold structuralErrors, structureValidation. rewrite Hc'. simpl orb.
      cbv iota. unfold ownPaths. simpl children. rewrite Hnames.
      rewrite (propertiesRestricted_known _ _ Hdl'
                 (assembled_keys (children s) outs)).
      reflexivity. }
    rewrite Hstruct, Ecol. reflexivity.
  - unfold runChildren in Hfirst. cbv zeta in Hfirst.
    rewrite Hr in Hfirst. simpl in Hfirst. injection Hfirst as <- <-.
    rewrite parse_nested by assumption.
    unfold runChildren. cbv zeta. rewrite touch_idem, Hr. reflexivity.
Qed.


End Idempotence.

(** The built-in transformers of the model are steady. *)
Section SteadyBuiltins.

Variable render : string -> list error -> value -> option Schema -> string.
Variable Number_of : value -> value.
Variable invoke : nat -> value -> result value.
Variable regex_test : value -> string -> option bool.

Lemma assoc_toString_index (l : list value) :
  forall i, assoc "toString" (index_from i l) = None.
Proof.
  induction l as [|x l IH]; intros i; [reflexivity|].
  cbn [index_from assoc].
  replace (String.eqb "toString" (string_of_nat i)) with false; [apply IH|].
  unfold string_of_nat. destruct (Nat.to_uint i); reflexivity.
Qed.

Lemma String_cast_string (this : Schema) (str : string) :
  String_cast invoke this (VStr str) = Ok (VStr str).
Proof.
  unfold String_cast, hasOwn. simpl own_entries.
  rewrite assoc_toString_index. rewrite andb_false_r. reflexivity.
Qed.

Lemma steady_builtins (t : string) (T : Transformer) :
  builtins render Number_of invoke regex_test t = Some T -> steady T.
Proof.
  unfold builtins.
  repeat match goal with
         | |- (if ?b then _ else _) = _ -> _ => destruct b
         end;
    intros H; try discriminate; injection H as <-;
    (split; [reflexivity|]; split; [reflexivity|]);
    intros this v x; simpl.
  - destruct v; try (unfold fail; discriminate).
    intros _. split; [reflexivity | apply String_cast_string].
  - destruct v; try (unfold fail; discriminate).
    intros _. split; reflexivity.
  - destruct v; try (unfold fail; discriminate).
    intros _. split; reflexivity.
  - unfold Object_validate.
    destruct v; simpl; try (unfold fail; discriminate);
      intros _; split; reflexivity.
  - unfold Function_validate.
    destruct v; simpl; try (unfold fail; discriminate);
      intros _; split; reflexivity.
Qed.

End SteadyBuiltins.

Lemma person_plain : plain Sample.Transformers person.
Proof.
  assert (St : forall t T, Sample.Transformers t = Some T -> steady T)
    by (intros t T; apply steady_builtins).
  assert (Leaf : forall s t T,
             hasChildren s = false -> type s = VStr t ->
             currentType s = VStr t -> Sample.Transformers t = Some T ->
             truthy (pget (settings Sample.Transformers s) "loaders") = false ->
             truthy (pget (settings Sample.Transformers s) "cast") = false ->
             plain Sample.Transformers s).
  { intros s t T H1 H2 H3 H4 H5 H6. apply (plain_leaf _ s t T).
    repeat split; try assumption; eapply St; eassumption. }
  apply plain_nested; [reflexivity | | |].
  - split; [repeat constructor; simpl; intuition discriminate
           |repeat constructor].
  - apply Forall_cons; [eapply (Leaf _ "String"); reflexivity|].
    apply Forall_cons; [eapply (Leaf _ "Number"); reflexivity|].
    apply Forall_cons; [|apply Forall_nil].
    apply plain_nested; [reflexivity | | |].
    + split; [repeat constructor; simpl; intuition discriminate
             |repeat constructor].
    + apply Forall_cons; [eapply (Leaf _ "String"); reflexivity|].
      apply Forall_cons; [eapply (Leaf _ "Number"); reflexivity|].
      apply Forall_nil.
    + repeat (apply Forall_cons; [left; discriminate|]). apply Forall_nil.
  - repeat (apply Forall_cons; [left; discriminate|]). apply Forall_nil.
Qed.


(** * Further properties *)

(** ** Utils *)

Lemma append_nil_r (s : string) : (s ++ "")%string = s.
Proof. induction s; simpl; congruence. Qed.

Lemma append_assoc (a b c : string) :
  ((a ++ b) ++ c)%string = (a ++ (b ++ c))%string.
Proof. induction a; simpl; congruence. Qed.

Lemma split_dots_aux_head (a cur t : string) :
  dotless a ->
  split_dots_aux cur (a ++ String dot t)
  = (cur ++ a)%string :: split_dots_aux "" t.
Proof.
  unfold dotless. revert cur; induction a as [|c a IH]; intros cur.
  - intros _. cbn [append split_dots_aux]. rewrite Ascii.eqb_refl.
    rewrite append_nil_r. reflexivity.
  - cbn [has_char append split_dots_aux]. rewrite (Ascii.eqb_sym c dot).
    destruct (Ascii.eqb dot c); cbn [orb]; [discriminate|].
    intros H. rewrite (IH _ H), append_assoc. reflexivity.
Qed.

Lemma split_dots_two (a b : string) :
  dotless a -> dotless b -> split_dots (a ++ String dot b) = [a; b].
Proof.
  intros Ha Hb. unfold split_dots. rewrite split_dots_aux_head by exact Ha.
  rewrite split_dots_aux_dotless by exact Hb. reflexivity.
Qed.

(** X1: [find] looks at the first two segments of a path only: whatever
    follows the second segment is ignored. *)
Theorem find_ignores_third_segment (obj : value) (a b rest : string) :
  dotless a -> dotless b ->
  find obj (a ++ String dot (b ++ String dot rest))
  = find obj (a ++ String dot b).
Proof.
  intros Ha Hb. unfold find.
  rewrite (split_dots_two a b Ha Hb).
  unfold split_dots. rewrite split_dots_aux_head by exact Ha.
  rewrite split_dots_aux_head by exact Hb. reflexivity.
Qed.

Lemma find_ignores_third_segment_witness :
  find (VObj [("prop1", VObj [("prop2", VObj [("prop3", VStr "Martin")])])])
       "prop1.prop2.prop3"
  = find (VObj [("prop1", VObj [("prop2", VObj [("prop3", VStr "Martin")])])])
         "prop1.prop2".
Proof.
  apply (find_ignores_third_segment _ "prop1" "prop2" "prop3"); reflexivity.
Defined.

Lemma assoc_in_nodup (ps : props) (k : string) (x : value) :
  NoDup (map fst ps) -> In (k, x) ps -> assoc k ps = Some x.
Proof.
  induction ps as [|[k1 v1] ps IH]; simpl; [intros _ []|].
  intros Hn [H|H]; inversion Hn as [|? ? Hnot Hd]; subst.
  - injection H as -> ->. rewrite String.eqb_refl. reflexivity.
  - destruct (String.eqb k k1) eqn:E; [|apply IH; assumption].
    apply String.eqb_eq in E; subst k1. exfalso. apply Hnot.
    change k with (fst (k, x)). apply in_map. exact H.
Qed.

Lemma find_top (ps : props) (k : string) (x : value) :
  dotless k -> assoc k ps = Some x -> find (VObj ps) k = Ok x.
Proof.
  intros Hk Ha. unfold find. rewrite split_dots_dotless by exact Hk.
  unfold read, get. simpl. rewrite Ha. reflexivity.
Qed.

Lemma find_nested (ps qs : props) (k k' : string) (y : value) :
  dotless k -> dotless k' -> k' <> "" ->
  assoc k ps = Some (VObj qs) -> assoc k' qs = Some y ->
  find (VObj ps) (k ++ String dot k') = Ok y.
Proof.
  intros Hk Hk' Hne Ha Hb. unfold find.
  rewrite split_dots_two by assumption.
  apply String.eqb_neq in Hne.
  unfold read, get. simpl. rewrite Ha, Hne. simpl. rewrite Hb. reflexivity.
Qed.

Lemma obj2dot_entry_leaf (parent prop : string) (x : value) :
  plainObject x = false -> obj2dot_entry parent prop x = [(parent ++ prop)%string].
Proof. destruct x; simpl; congruence. Qed.

(** X2: on an object nested at most once, [find] reads back, at every path
    [obj2dot] lists, the value that path stands for. *)
Theorem obj2dot_find_roundtrip (ps : props) :
  shallow ps ->
  map (find (VObj ps)) (obj2dot (VObj ps)) = map Ok (leaves (VObj ps)).
Proof.
  intros [Hn Hall]. unfold obj2dot, leaves. simpl own_entries.
  rewrite Forall_forall in Hall.
  enough (H : forall l, incl l ps ->
            map (find (VObj ps))
                (flat_map (fun kv => obj2dot_entry "" (fst kv) (snd kv)) l)
            = map Ok (flat_map (fun kv => match snd kv with
                                          | VObj qs => map snd qs
                                          | x => [x]
                                          end) l))
    by (apply H, incl_refl).
  induction l as [|[k x] l IH]; intros Hincl; [reflexivity|].
  cbn [flat_map fst snd]. rewrite !map_app.
  rewrite IH by (intros e He; apply Hincl; right; exact He).
  f_equal.
  assert (Hin : In (k, x) ps) by (apply Hincl; left; reflexivity).
  pose proof (assoc_in_nodup ps k x Hn Hin) as Hk.
  destruct (Hall _ Hin) as [Hdk Hx]. cbn [fst snd] in Hdk, Hx.
  destruct x as [| | | | | | | |qs];
    try (cbn [obj2dot_entry map append]; rewrite (find_top ps k _ Hdk Hk);
         reflexivity).
  destruct Hx as [Hnq Hq]. rewrite Forall_forall in Hq.
  cbn [obj2dot_entry].
  enough (H : forall l', incl l' qs ->
            map (find (VObj ps))
                ((fix go (ps0 : props) : list string :=
                    match ps0 with
                    | [] => []
                    | (k0, x) :: r =>
                        obj2dot_entry ("" ++ k ++ ".") k0 x ++ go r
                    end) l')
            = map Ok (map snd l'))
    by (apply H, incl_refl).
  induction l' as [|[k' y] l' IH']; intros Hincl'; [reflexivity|].
  cbn [map snd]. rewrite map_app.
  rewrite IH' by (intros e He; apply Hincl'; right; exact He).
  assert (Hin' : In (k', y) qs) by (apply Hincl'; left; reflexivity).
  destruct (Hq _ Hin') as (Hdk' & Hne & Hy).
  cbn [fst snd] in Hdk', Hne, Hy.
  rewrite (obj2dot_entry_leaf _ _ _ Hy). cbn [map app append].
  rewrite append_assoc. cbn [append].
  pose proof (find_nested ps qs k k' y Hdk Hdk' Hne Hk
                (assoc_in_nodup qs k' y Hnq Hin')) as Hf.
  unfold dot in Hf. rewrite Hf. reflexivity.
Qed.

(** X2 at the object of the documentation of [obj2dot]. *)
Lemma obj2dot_find_roundtrip_witness :
  map (find (VObj [("name", VStr "Martin");
                   ("address", VObj [("city", VStr "Miami");
                                     ("zip", VNum 33129);
                                     ("line1", VStr "Brickell ave")])]))
      ["name"; "address.city"; "address.zip"; "address.line1"]
  = [Ok (VStr "Martin"); Ok (VStr "Miami"); Ok (VNum 33129);
     Ok (VStr "Brickell ave")].
Proof.
  apply (obj2dot_find_roundtrip
           [("name", VStr "Martin");
            ("address", VObj [("city", VStr "Miami"); ("zip", VNum 33129);
                              ("line1", VStr "Brickell ave")])]).
  split.
  - repeat (constructor; [simpl; intuition discriminate|]). constructor.
  - repeat (apply Forall_cons || apply Forall_nil); cbn [fst snd];
      (split; [reflexivity|]); try exact I.
    split.
    + repeat (constructor; [simpl; intuition discriminate|]). constructor.
    + repeat (apply Forall_cons || apply Forall_nil); cbn [fst snd];
        (split; [reflexivity|split; [discriminate|reflexivity]]).
Defined.

Lemma propertiesRestricted_flat_eq (ps : props) (properties : list string) :
  Forall (fun kv => flat (snd kv) = true) ps ->
  propertiesRestricted (VObj ps) properties
  = Ok (forallb (fun kv => mem_str (fst kv) properties) ps).
Proof.
  induction ps as [|[k x] ps IH]; intros H; [reflexivity|].
  inversion H as [|? ? Hx Hr]; subst. cbn [fst snd] in Hx.
  unfold flat in Hx. apply negb_true_iff in Hx.
  cbn [propertiesRestricted forallb fst]. unfold restricted_step at 1.
  rewrite Hx. destruct (mem_str k properties); [|reflexivity].
  exact (IH Hr).
Qed.

(** X3: an object whose values are neither objects nor [null] is within
    [properties] exactly when each of its keys is listed; the check never
    throws, and the empty object always passes. *)
Theorem propertiesRestricted_flat (ps : props) (properties : list string) :
  Forall (fun kv => flat (snd kv) = true) ps ->
  propertiesRestricted (VObj ps) properties
  = Ok (forallb (fun kv => mem_str (fst kv) properties) ps)
  /\ (propertiesRestricted (VObj ps) properties = Ok true
      <-> forall k, In k (map fst ps) -> In k properties).
Proof.
  intros H. rewrite (propertiesRestricted_flat_eq ps properties H).
  split; [reflexivity|]. split.
  - intros E. injection E as E. rewrite forallb_forall in E.
    intros k Hk. apply in_map_iff in Hk. destruct Hk as [[k' x] [<- Hin]].
    apply mem_str_In. exact (E _ Hin).
  - intros Hall. f_equal. apply forallb_forall. intros [k x] Hin.
    apply mem_str_In, Hall. change k with (fst (k, x)). apply in_map. exact Hin.
Qed.

Lemma propertiesRestricted_flat_witness :
  propertiesRestricted
    (VObj [("name", VStr "Martin Rafael"); ("email", VStr "tin@devtin.io")])
    ["name"] = Ok false.
Proof.
  apply (propertiesRestricted_flat
           [("name", VStr "Martin Rafael"); ("email", VStr "tin@devtin.io")]
           ["name"]).
  repeat (apply Forall_cons || apply Forall_nil); reflexivity.
Defined.

Lemma dot_after_first_dotless (p : string) :
  dotless p -> dot_after_first p = false.
Proof.
  unfold dotless. destruct p as [|c r]; [reflexivity|].
  cbn [has_char dot_after_first]. intros H. apply orb_false_iff in H.
  destruct H as [_ ->]. apply andb_false_r.
Qed.

Lemma hasOwn_obj (ps : props) (k : string) :
  hasOwn (VObj ps) k = mem_str k (map fst ps).
Proof.
  unfold hasOwn, mem_str. simpl own_entries.
  induction ps as [|[k1 v1] ps IH]; [reflexivity|].
  cbn [assoc map fst existsb]. destruct (String.eqb k k1); [reflexivity|].
  exact IH.
Qed.

(** X4: with [strict] on, an object whose values are neither objects nor
    [null] passes a list of undotted properties exactly when its keys are
    the listed properties: none missing, none unknown. *)
Theorem propertiesRestricted_strict_flat (ps : props)
    (properties : list string) :
  Forall (fun kv => flat (snd kv) = true) ps ->
  Forall dotless properties ->
  propertiesRestricted_strict (VObj ps) properties
  = Ok (forallb (fun p => mem_str p (map fst ps)) properties
        && forallb (fun kv => mem_str (fst kv) properties) ps)
  /\ (propertiesRestricted_strict (VObj ps) properties = Ok true
      <-> forall k, In k (map fst ps) <-> In k properties).
Proof.
  intros Hflat Hdot.
  assert (E : propertiesRestricted_strict (VObj ps) properties
              = Ok (forallb (fun p => mem_str p (map fst ps)) properties
                    && forallb (fun kv => mem_str (fst kv) properties) ps)).
  { cbn [propertiesRestricted_strict].
    enough (H : forall todo, Forall dotless todo ->
              (fix each (todo : list string) : result bool :=
                 match todo with
                 | [] => Ok true
                 | property :: r =>
                     if dot_after_first property
                     then
                       match
                         (fix under (ps0 : props) : result bool :=
                            match ps0 with
                            | [] => Ok false
                            | (k, x) :: r' =>
                                if String.eqb (hd "" (split_dots property)) k
                                then propertiesRestricted_strict x
                                       (getSubProperties properties
                                          (hd "" (split_dots property)))
                                else under r'
                            end) ps
                       with
                       | Throw e => Throw e
                       | Ok true => each r
                       | Ok false => Ok false
                       end
                     else if hasOwnProperty (VObj ps) property then each r
                          else Ok false
                 end) todo
              = Ok (forallb (fun p => mem_str p (map fst ps)) todo)).
    { rewrite (H properties Hdot).
      destruct (forallb (fun p => mem_str p (map fst ps)) properties);
        [|reflexivity].
      exact (propertiesRestricted_flat_eq ps properties Hflat). }
    induction todo as [|p todo IH]; intros Hd; [reflexivity|].
    inversion Hd as [|? ? Hp Hr]; subst.
    rewrite (dot_after_first_dotless p Hp).
    unfold hasOwnProperty. rewrite hasOwn_obj. cbn [isArray andb forallb].
    rewrite orb_false_r.
    destruct (mem_str p (map fst ps)); [exact (IH Hr) | reflexivity]. }
  split; [exact E|]. rewrite E. split.
  - intros H. injection H as H. apply andb_true_iff in H. destruct H as [H1 H2].
    rewrite forallb_forall in H1, H2. intros k. split.
    + intros Hk. apply in_map_iff in Hk. destruct Hk as [[k' x] [<- Hin]].
      apply mem_str_In. exact (H2 _ Hin).
    + intros Hk. apply mem_str_In. exact (H1 _ Hk).
  - intros H. f_equal. apply andb_true_iff. split; apply forallb_forall.
    + intros p Hp. apply mem_str_In, H. exact Hp.
    + intros [k x] Hin. apply mem_str_In, H.
      change k with (fst (k, x)). apply in_map. exact Hin.
Qed.

Lemma propertiesRestricted_strict_flat_witness :
  propertiesRestricted_strict
    (VObj [("name", VStr "Martin Rafael"); ("email", VStr "tin@devtin.io")])
    ["name"; "email"; "phone"] = Ok false.
Proof.
  apply (propertiesRestricted_strict_flat
           [("name", VStr "Martin Rafael"); ("email", VStr "tin@devtin.io")]
           ["name"; "email"; "phone"]).
  - repeat (apply Forall_cons || apply Forall_nil); reflexivity.
  - repeat (apply Forall_cons || apply Forall_nil); reflexivity.
Defined.

(** ** [guessType] *)

Lemma value_ind_nested (P : value -> Prop) :
  P VUndefined -> P VNull -> (forall b, P (VBool b)) -> (forall n, P (VNum n)) ->
  P VNaN -> (forall s, P (VStr s)) -> (forall f r, P (VFun f r)) ->
  (forall items, Forall P items -> P (VArr items)) ->
  (forall ps, Forall (fun kv => P (snd kv)) ps -> P (VObj ps)) ->
  forall v, P v.
Proof.
  intros Hu Hn Hb Hz Hnan Hs Hf Ha Ho.
  fix IH 1. intros [| |b|n| |s|f r|items|ps];
    [exact Hu | exact Hn | apply Hb | apply Hz | exact Hnan | apply Hs
    | apply Hf | | ].
  - apply Ha. induction items as [|x items IHi]; constructor;
      [apply IH | exact IHi].
  - apply Ho. induction ps as [|[k x] ps IHp]; constructor;
      [apply IH | exact IHp].
Qed.

Lemma guessType_VArr (items : list value) :
  guessType (VArr items)
  = match guessEach items with
    | Ok ts => Ok (VArr ts)
    | Throw e => Throw e
    end.
Proof. reflexivity. Qed.

Lemma guessType_VObj_cons (k : string) (x : value) (r : props) :
  guessType (VObj ((k, x) :: r))
  = if String.eqb k "type"
    then if truthy x then guessType x else Ok (VStr "Object")
    else guessType (VObj r).
Proof. reflexivity. Qed.

Lemma guessEach_fixed (items ts : list value) :
  Forall (fun x => forall t, guessType x = Ok t -> guessType t = Ok t) items ->
  guessEach items = Ok ts -> guessEach ts = Ok ts.
Proof.
  revert ts. induction items as [|x items IH]; intros ts HF; simpl.
  - intros H; injection H as <-. reflexivity.
  - inversion HF as [|? ? Hx Hr]; subst.
    destruct (guessType x) as [tx|e] eqn:Ex; [|discriminate].
    destruct (guessEach items) as [ts'|e] eqn:Er; [|discriminate].
    intros H; injection H as <-. simpl.
    rewrite (Hx tx eq_refl), (IH ts' Hr eq_refl). reflexivity.
Qed.

Lemma guessType_fixed (v t : value) :
  guessType v = Ok t -> guessType t = Ok t.
Proof.
  revert t. induction v as [| |b|n| |s|f r|items IH|ps IH] using value_ind_nested;
    intros t H; try (injection H as <-; reflexivity); try discriminate.
  - rewrite guessType_VArr in H.
    destruct (guessEach items) as [ts|e] eqn:E; [|discriminate].
    injection H as <-. rewrite guessType_VArr.
    rewrite (guessEach_fixed items ts IH E). reflexivity.
  - induction ps as [|[k x] ps IHps].
    + injection H as <-. reflexivity.
    + inversion IH as [|? ? Hx Hr]; subst. cbn [snd] in Hx.
      rewrite guessType_VObj_cons in H.
      destruct (String.eqb k "type"); [|exact (IHps Hr H)].
      destruct (truthy x); [exact (Hx t H)|].
      injection H as <-. reflexivity.
Qed.

Lemma guessType_shape (v t : value) :
  guessType v = Ok t ->
  is_function t = false /\ plainObject t = false /\ is_null t = false.
Proof.
  revert t. induction v as [| |b|n| |s|f r|items IH|ps IH] using value_ind_nested;
    intros t H; try (injection H as <-; repeat split; reflexivity);
    try discriminate.
  - rewrite guessType_VArr in H.
    destruct (guessEach items) as [ts|e]; [|discriminate].
    injection H as <-. repeat split; reflexivity.
  - induction ps as [|[k x] ps IHps].
    + injection H as <-. repeat split; reflexivity.
    + inversion IH as [|? ? Hx Hr]; subst. cbn [snd] in Hx.
      rewrite guessType_VObj_cons in H.
      destruct (String.eqb k "type"); [|exact (IHps Hr H)].
      destruct (truthy x); [exact (Hx t H)|].
      injection H as <-. repeat split; reflexivity.
Qed.

(** X5: what [guessType] returns is a type description it leaves as it is:
    guessing again changes nothing, and the guess is never a function, an
    object or [null]. *)
Theorem guessType_idempotent (v t : value) :
  guessType v = Ok t ->
  guessType t = Ok t
  /\ is_function t = false /\ plainObject t = false /\ is_null t = false.
Proof.
  intros H. split; [exact (guessType_fixed v t H) | exact (guessType_shape v t H)].
Qed.

(** X5 at [{ type: [String, { type: Number }] }]. *)
Lemma guessType_idempotent_witness :
  guessType (VArr [VStr "String"; VStr "Number"])
  = Ok (VArr [VStr "String"; VStr "Number"]).
Proof.
  apply (guessType_idempotent
           (VObj [("type", VArr [VFun "String" 0;
                                 VObj [("type", VFun "Number" 1)]])])).
  reflexivity.
Defined.

(** ** Paths and defaults *)

Lemma childNamed_own (s c : Schema) :
  NoDup (map name (children s)) -> In c (children s) ->
  childNamed s (name c) = Some c.
Proof.
  unfold childNamed. intros Hn Hin.
  apply in_split in Hin. destruct Hin as [pre [rest E]]. rewrite E in *.
  apply find_named. rewrite map_app in Hn. cbn [map] in Hn.
  apply NoDup_remove_2 in Hn. intros H. apply Hn. apply in_or_app. left. exact H.
Qed.

(** X6: where the children of a node are named apart and without dots,
    [schemaAtPath] finds each child under its own name, and each
    grandchild, when named, under the two names joined by a dot. *)
Theorem schemaAtPath_finds (s c : Schema) :
  tidy s -> In c (children s) ->
  schemaAtPath s (name c) = Ok (Some c)
  /\ forall g, tidy c -> In g (children c) -> name g <> "" ->
               schemaAtPath s (name c ++ String dot (name g)) = Ok (Some g).
Proof.
  intros [Hn Hd] Hin. rewrite Forall_forall in Hd. split.
  - rewrite schemaAtPath_dotless by (apply Hd; exact Hin).
    rewrite (childNamed_own s c Hn Hin). reflexivity.
  - intros g [Hn' Hd'] Hin' Hne. rewrite Forall_forall in Hd'.
    unfold schemaAtPath.
    rewrite (split_dots_two (name c) (name g) (Hd c Hin) (Hd' g Hin')).
    apply String.eqb_neq in Hne. rewrite Hne.
    rewrite (childNamed_own s c Hn Hin), (childNamed_own c g Hn' Hin').
    reflexivity.
Qed.

Lemma person_tidy : tidy person.
Proof.
  split.
  - repeat (constructor; [simpl; intuition discriminate|]). constructor.
  - repeat (apply Forall_cons || apply Forall_nil); reflexivity.
Qed.

(** X6 at the person schema: [address] and [address.zip]. *)
Lemma schemaAtPath_finds_witness :
  pathAt person "address" = Ok (Some "address")
  /\ pathAt person "address.zip" = Ok (Some "address.zip").
Proof.
  assert (Hin : In (nth 2 (children person) person) (children person))
    by (right; right; left; reflexivity).
  destruct (schemaAtPath_finds person (nth 2 (children person) person)
              person_tidy Hin) as [H1 H2].
  split.
  - unfold pathAt.
    change "address" with (name (nth 2 (children person) person)).
    rewrite H1. reflexivity.
  - unfold pathAt.
    specialize (H2 (nth 1 (children (nth 2 (children person) person)) person)).
    change "address.zip"
      with (name (nth 2 (children person) person)
            ++ String dot
                 (name (nth 1 (children (nth 2 (children person) person))
                          person)))%string.
    rewrite H2; [reflexivity | | right; left; reflexivity | discriminate].
    split.
    + repeat (constructor; [simpl; intuition discriminate|]). constructor.
    + repeat (apply Forall_cons || apply Forall_nil); reflexivity.
Defined.

Lemma joinPath_assoc (a b c : string) :
  b <> "" -> joinPath (joinPath a b) c = joinPath a (joinPath b c).
Proof.
  intros Hb. unfold joinPath.
  destruct (String.eqb a "") eqn:Ea.
  - reflexivity.
  - apply String.eqb_neq in Hb. rewrite Hb.
    assert (E1 : String.eqb (a ++ String dot b) "" = false).
    { destruct a; [discriminate|reflexivity]. }
    rewrite E1. destruct (String.eqb c "") eqn:Ec.
    + rewrite Hb. reflexivity.
    + assert (E2 : String.eqb (b ++ String dot c) "" = false).
      { destruct b; reflexivity. }
      rewrite E2, append_assoc. reflexivity.
Qed.

Lemma getDefault_path :
  forall (s : Schema) (child : string),
    underUnnamedRoot s ->
    getDefault s child
    = if String.eqb (joinPath (fullPath s) child) "" then Ok VUndefined
      else find (_defaultValues (rootOf s)) (joinPath (fullPath s) child).
Proof.
  fix IH 1. intros [nm par ty ct cs st ds dv vl cst] child.
  cbn [underUnnamedRoot getDefault rootOf].
  destruct par as [p|].
  - intros [Hnm Hp]. rewrite (IH p _ Hp).
    assert (E : joinPath (fullPath p)
                  (if String.eqb child "" then nm else (nm ++ "." ++ child)%string)
                = joinPath (fullPath (mkSchema nm (Some p) ty ct cs st ds dv vl cst))
                    child).
    { cbn [fullPath].
      change (if String.eqb child "" then nm else (nm ++ "." ++ child)%string)
        with (if String.eqb child "" then nm else (nm ++ String dot child)%string).
      transitivity (joinPath (joinPath (fullPath p) nm) child).
      - rewrite joinPath_assoc by exact Hnm. f_equal.
        unfold joinPath. apply String.eqb_neq in Hnm. rewrite Hnm. reflexivity.
      - f_equal. unfold joinPath. apply String.eqb_neq in Hnm. rewrite Hnm.
        destruct (String.eqb (fullPath p) ""); [reflexivity|].
        rewrite append_assoc. reflexivity. }
    rewrite E. reflexivity.
  - intros ->. cbn [fullPath _defaultValues]. unfold joinPath. simpl.
    reflexivity.
Qed.

Lemma fullPath_named (s : Schema) : name s <> "" -> fullPath s <> "".
Proof.
  destruct s as [nm par ty ct cs st ds dv vl cst]. cbn [name fullPath].
  intros Hn H. apply Hn.
  destruct (match par with
            | Some p => if String.eqb (fullPath p) "" then "" else (fullPath p ++ ".")%string
            | None => ""
            end); [exact H | discriminate].
Qed.

(** X7: under an unnamed root, with every node below it named, the
    default a node takes from the root's [defaultValues] is what [find]
    reads there at the node's full path; the root itself has none. *)
Theorem getDefault_reads_fullPath (s : Schema) :
  underUnnamedRoot s ->
  getDefault s ""
  = match parent s with
    | Some _ => find (_defaultValues (rootOf s)) (fullPath s)
    | None => Ok VUndefined
    end.
Proof.
  intros H. rewrite (getDefault_path s "" H).
  assert (E : joinPath (fullPath s) "" = fullPath s).
  { unfold joinPath. destruct (String.eqb (fullPath s) "") eqn:E; [|reflexivity].
    apply String.eqb_eq in E. symmetry. exact E. }
  rewrite E.
  destruct s as [nm par ty ct cs st ds dv vl cst].
  destruct par as [p|]; cbn [parent].
  - destruct H as [Hn _].
    pose proof (fullPath_named (mkSchema nm (Some p) ty ct cs st ds dv vl cst) Hn)
      as Hf.
    apply String.eqb_neq in Hf. rewrite Hf. reflexivity.
  - cbn [underUnnamedRoot] in H. subst nm. reflexivity.
Qed.

(** X7 at the child [a] of [{ a: String }]. *)
Lemma getDefault_reads_fullPath_witness :
  getDefault Sample.child_a "" = Ok VUndefined.
Proof.
  rewrite (getDefault_reads_fullPath Sample.child_a);
    [reflexivity | split; [discriminate | reflexivity]].
Defined.

(** ** The settings of a node *)

Lemma own_entries_falsy (v : value) : truthy v = false -> own_entries v = [].
Proof.
  destruct v as [| |b|n| |s|f r|items|ps]; simpl; try reflexivity;
    try discriminate.
  destruct s; [reflexivity | discriminate].
Qed.

Lemma settings_lookup (Transformers : string -> option Transformer)
    (s : Schema) (k : string) :
  NoDup (map fst (_settings s)) ->
  (forall T, transformerOf Transformers (currentType s) = Some T ->
             NoDup (map fst (own_entries (T_settings T)))) ->
  pget (settings Transformers s) k
  = match assoc k (_settings s) with
    | Some v => v
    | None =>
        match (if hasChildren s then None
               else transformerOf Transformers (currentType s)) with
        | Some T =>
            match assoc k (own_entries (T_settings T)) with
            | Some v => v
            | None => pget (_defaultSettings s) k
            end
        | None => pget (_defaultSettings s) k
        end
    end.
Proof.
  intros Hn HT. unfold pget, settings.
  destruct (transformerOf Transformers (currentType s)) as [T|] eqn:ET.
  - specialize (HT T eq_refl).
    destruct (hasChildren s); cbn [negb andb].
    + unfold assign; simpl. rewrite assoc_assign1. simpl.
      rewrite (assoc_rev_nodup _ _ Hn).
      destruct (assoc k (_settings s)); reflexivity.
    + destruct (truthy (T_settings T)) eqn:Et.
      * unfold assign; simpl. rewrite !assoc_assign1. simpl.
        rewrite (assoc_rev_nodup _ _ Hn), (assoc_rev_nodup _ _ HT).
        destruct (assoc k (_settings s)); [reflexivity|].
        destruct (assoc k (own_entries (T_settings T))); reflexivity.
      * unfold assign; simpl. rewrite assoc_assign1. simpl.
        rewrite (assoc_rev_nodup _ _ Hn), (own_entries_falsy _ Et).
        destruct (assoc k (_settings s)); reflexivity.
  - unfold assign; simpl. rewrite assoc_assign1. simpl.
    rewrite (assoc_rev_nodup _ _ Hn).
    destruct (assoc k (_settings s)); destruct (hasChildren s); reflexivity.
Qed.


(** X8: in the settings of a node, a setting of the node's own wins over
    the transformer's, which wins over what the defaults object held; a
    nested node does not see the transformer's settings. *)
Theorem settings_precedence (Transformers : string -> option Transformer)
    (s : Schema) (k : string) :
  NoDup (map fst (_settings s)) ->
  (forall T, transformerOf Transformers (currentType s) = Some T ->
             NoDup (map fst (own_entries (T_settings T)))) ->
  pget (settings Transformers s) k
  = match assoc k (_settings s) with
    | Some v => v
    | None =>
        match (if hasChildren s then None
               else transformerOf Transformers (currentType s)) with
        | Some T =>
            match assoc k (own_entries (T_settings T)) with
            | Some v => v
            | None => pget (_defaultSettings s) k
            end
        | None => pget (_defaultSettings s) k
        end
    end.
Proof. apply settings_lookup. Qed.

(** X8 on [{ type: Number, required: false }]: [required] is the node's,
    [typeError] the transformer's, [allowNull] the default. *)
Lemma settings_precedence_witness :
  map (pget (settings Sample.Transformers (nth 1 (children person) person)))
      ["required"; "typeError"; "allowNull"]
  = [VBool false; VStr "Invalid number"; VBool false].
Proof.
  assert (Hn : NoDup (map fst (_settings (nth 1 (children person) person)))).
  { vm_compute. repeat (constructor; [simpl; intuition discriminate|]).
    constructor. }
  assert (HT : forall T,
             transformerOf Sample.Transformers
               (currentType (nth 1 (children person) person)) = Some T ->
             NoDup (map fst (own_entries (T_settings T)))).
  { intros T E. vm_compute in E. injection E as <-. vm_compute.
    repeat (constructor; [simpl; intuition discriminate|]). constructor. }
  cbn [map].
  rewrite (settings_precedence Sample.Transformers _ "required" Hn HT).
  rewrite (settings_precedence Sample.Transformers _ "typeError" Hn HT).
  rewrite (settings_precedence Sample.Transformers _ "allowNull" Hn HT).
  vm_compute. reflexivity.
Defined.

Lemma keys_writes (l t : props) (k : string) :
  In k (map fst t) -> In k (map fst (fold_left write l t)).
Proof.
  revert t; induction l as [|kv l IH]; intros t H; simpl; [exact H|].
  apply IH. unfold write. rewrite keys_pset.
  destruct (mem_str (fst kv) (map fst t)); [exact H|].
  apply in_or_app. left. exact H.
Qed.

(** X9: reading the settings twice is as reading them once -- the second
    read returns the same object and leaves the node as the first left
    it -- and a read never takes a key off the defaults object. *)
Theorem settings_read_twice (Transformers : string -> option Transformer)
    (s : Schema) :
  settings Transformers (touch Transformers s) = settings Transformers s
  /\ touch Transformers (touch Transformers s) = touch Transformers s
  /\ forall k, In k (map fst (_defaultSettings s)) ->
               In k (map fst (settings Transformers s)).
Proof.
  split; [apply settings_touch|]. split; [apply touch_idem|].
  intros k H. unfold settings.
  destruct (transformerOf Transformers (currentType s)) as [T|];
    [destruct (negb (hasChildren s) && truthy (T_settings T))|];
    rewrite assign_writes; apply keys_writes; exact H.
Qed.

(** ** [structureValidation] *)

Lemma obj2dot_flat (ps : props) :
  Forall (fun kv => flat (snd kv) = true) ps ->
  obj2dot (VObj ps) = map fst ps.
Proof.
  unfold obj2dot. simpl own_entries.
  induction ps as [|[k x] ps IH]; intros H; [reflexivity|].
  inversion H as [|? ? Hx Hr]; subst. cbn [flat_map fst snd map].
  rewrite (IH Hr). cbn [snd] in Hx.
  rewrite obj2dot_entry_leaf; [reflexivity|].
  destruct x; try reflexivity. discriminate.
Qed.

Lemma paths_leaves (s : Schema) :
  name s = "" -> hasChildren s = true ->
  Forall (fun c => hasChildren c = false) (children s) ->
  paths s = ownPaths s.
Proof.
  destruct s as [nm par ty ct cs st ds dv vl cst].
  cbn [name hasChildren children ownPaths]. intros -> Hc Hl.
  cbn [paths]. destruct cs as [|c0 cs0]; [discriminate|].
  enough (H : forall l, Forall (fun c => hasChildren c = false) l ->
            (fix each (cs : list Schema) : list string :=
               match cs with
               | [] => []
               | c :: r =>
                   map (fun path =>
                          ((if String.eqb "" "" then "" else "" ++ ".") ++ path)%string)
                       (paths c) ++ each r
               end) l = map name l)
    by exact (H (c0 :: cs0) Hl).
  clear. induction l as [|c cs IH]; intros Hl; [reflexivity|].
  inversion Hl as [|? ? Hc Hr]; subst. cbn [map]. rewrite (IH Hr).
  destruct c as [nm par ty ct cs' st ds dv vl cst].
  cbn [hasChildren children] in Hc. destruct cs'; [|discriminate].
  reflexivity.
Qed.

Lemma filter_map_fst {A B : Type} (f : A -> bool) (l : list (A * B)) :
  filter f (map fst l) = map fst (filter (fun kv => f (fst kv)) l).
Proof.
  induction l as [|[a b] l IH]; simpl; [reflexivity|].
  destruct (f a); simpl; rewrite IH; reflexivity.
Qed.



Lemma has_char_app (p : ascii -> bool) (a b : string) :
  has_char p (a ++ b) = has_char p a || has_char p b.
Proof.
  induction a as [|c a IH]; simpl; [reflexivity|].
  rewrite IH, orb_assoc. reflexivity.
Qed.

Lemma paths_named_dotted (s : Schema) (p : string) :
  name s <> "" -> hasChildren s = true -> In p (paths s) -> ~ dotless p.
Proof.
  destruct s as [nm par ty ct cs st ds dv vl cst].
  cbn [name hasChildren children]. intros Hn Hc.
  cbn [paths]. destruct cs as [|c0 cs0]; [discriminate|]. clear Hc.
  apply String.eqb_neq in Hn. rewrite Hn.
  enough (H : forall l,
            In p ((fix each (cs : list Schema) : list string :=
                     match cs with
                     | [] => []
                     | c :: r =>
                         map (fun path => ((nm ++ ".") ++ path)%string) (paths c)
                         ++ each r
                     end) l) -> ~ dotless p)
    by exact (H (c0 :: cs0)).
  clear. induction l as [|c cs IH]; [intros []|].
  intros Hin. apply in_app_or in Hin. destruct Hin as [Hin|Hin]; [|exact (IH Hin)].
  apply in_map_iff in Hin. destruct Hin as [q [<- _]].
  unfold dotless. rewrite !has_char_app. cbn [has_char].
  rewrite Ascii.eqb_refl. rewrite orb_true_r. discriminate.
Qed.



(** ** What a leaf returns *)

Section Validated.

Variable call : nat -> Schema -> value -> result value.
Variable render : string -> list error -> value -> option Schema -> string.
Variable display : value -> string.
Variable Transformers : string -> option Transformer.

Local Abbreviation parseProperty := (parseProperty call render display Transformers).
Local Abbreviation touch := (touch Transformers).
Local Abbreviation laterStages := (laterStages call render display Transformers).

Lemma pipeline_validated (T : Transformer) (s : Schema) (v r : value) :
  T_parse T = None ->
  pipeline call Transformers T s v = Ok r ->
  (exists x, runTransformer (touch s) (T_validate T) r = Ok x)
  /\ (exists y, runSettings call (touch s) "validate" r = Ok y).
Proof.
  intros Hp. unfold pipeline. cbv zeta. rewrite Hp.
  destruct (runSettings call (touch s) "cast" v) as [v1|e]; [|discriminate].
  cbn [bind].
  destruct (if truthy (pget (_defaultSettings (touch s)) "autoCast")
            then runTransformer (touch s) (T_cast T) v1 else Ok v1)
    as [v2|e]; [|discriminate].
  cbn [bind].
  destruct (runTransformer (touch s) (T_validate T) v2) as [x|e] eqn:Ev;
    [|discriminate].
  cbn [bind].
  destruct (runSettings call (touch s) "validate" v2) as [y|e] eqn:En;
    [|discriminate].
  cbn [bind runTransformer]. intros H; injection H as <-.
  split; [exists x; exact Ev | exists y; exact En].
Qed.

Lemma laterStages_validated (fuel : nat) (T : Transformer) (s : Schema)
    (v r : value) (s' : Schema) :
  T_parse T = None ->
  laterStages fuel T s v = Some (Ok r, s') ->
  (exists x, runTransformer s' (T_validate T) r = Ok x)
  /\ (exists y, runSettings call s' "validate" r = Ok y).
Proof.
  intros Hp. unfold laterStages, andThen.
  destruct (loaderStage _ _ _ _) as [[[v1|e] s1]|]; try discriminate.
  intros H. injection H as H <-.
  exact (pipeline_validated T s1 v1 r Hp H).
Qed.

(** X12: what a leaf of a registered type with no [parse] method returns
    has been accepted by the transformer's [validate] and by the node's
    own [validate] setting, on the node the parse leaves -- unless it is
    the [undefined] of an absent optional field or an allowed [null]. *)
Theorem parsed_leaf_validated (fuel : nat) (s : Schema) (t : string)
    (T : Transformer) (v r : value) (s' : Schema) :
  Transformers t = Some T -> T_parse T = None ->
  parseProperty fuel s (VStr t) v = Some (Ok r, s') ->
  r = VUndefined
  \/ (r = VNull /\ truthy (pget (_defaultSettings s') "allowNull") = true)
  \/ ((exists x, runTransformer s' (T_validate T) r = Ok x)
      /\ (exists y, runSettings call s' "validate" r = Ok y)).
Proof.
  intros HT Hp H.
  destruct (is_undefined v) eqn:Eu.
  - destruct v; try discriminate.
    rewrite (parseProperty_undefined call render display Transformers
               fuel s t T HT) in H.
    cbv zeta in H.
    destruct (withDefault call (touch s) VUndefined) as [v1|e];
      [|discriminate].
    destruct (is_undefined v1 && negb _).
    + injection H as <- <-. left. reflexivity.
    + destruct (is_undefined v1 && _ && _); [discriminate|].
      right. right. exact (laterStages_validated fuel T _ _ _ _ Hp H).
  - destruct (is_null v
              && truthy (pget (_defaultSettings (touch s)) "allowNull"))
      eqn:En.
    + apply andb_true_iff in En. destruct En as [Ev Ea].
      destruct v; try discriminate.
      rewrite parseProperty_eq in H. cbn [parseProperty_step is_null] in H.
      rewrite Ea in H. cbn [andb] in H. injection H as <- <-.
      right. left. split; [reflexivity | exact Ea].
    + rewrite (parseProperty_defined call render display Transformers
                 fuel s t T v HT Eu En) in H.
      right. right. exact (laterStages_validated fuel T _ _ _ _ Hp H).
Qed.

End Validated.

(** X12 at the child [a] of [{ a: String }] and ['x']. *)
Lemma parsed_leaf_validated_witness :
  VStr "x" = VUndefined
  \/ (VStr "x" = VNull
      /\ truthy (pget (_defaultSettings (touch Sample.Transformers Sample.child_a))
                   "allowNull") = true)
  \/ ((exists x,
          runTransformer (touch Sample.Transformers Sample.child_a)
            (Some (String_validate Sample.render Sample.Number_of
                     Sample.regex_test)) (VStr "x") = Ok x)
      /\ (exists y,
             runSettings Sample.call (touch Sample.Transformers Sample.child_a)
               "validate" (VStr "x") = Ok y)).
Proof.
  apply (parsed_leaf_validated Sample.call Sample.render Sample.display
           Sample.Transformers 1 Sample.child_a "String"
           (mkTransformer String_settings
              (Some (String_cast Sample.invoke))
              (Some (String_validate Sample.render Sample.Number_of
                       Sample.regex_test)) None VUndefined)
           (VStr "x") (VStr "x") (touch Sample.Transformers Sample.child_a));
    [reflexivity | reflexivity | vm_compute; reflexivity].
Defined.

(** ** Built-in transformers *)

Section BuiltinFacts.

Variable render : string -> list error -> value -> option Schema -> string.
Variable Number_of : value -> value.
Variable invoke : nat -> value -> result value.
Variable regex_test : value -> string -> option bool.

Lemma castThrowable_fst (v e e' : value) :
  fst (castThrowable v e) = fst (castThrowable v e').
Proof.
  destruct v as [| | | | | | |items|]; try reflexivity.
  destruct items as [|a [|b [|c r]]]; reflexivity.
Qed.


(** X14: the String cast changes nothing but an object that has a
    [toString] of its own -- a number or a boolean is not made a string --
    the Boolean cast always gives a value the Boolean validator accepts,
    and the Number cast gives one the Number validator accepts exactly
    when the conversion is not [NaN]. *)
Theorem builtin_casts (this : Schema) (v : value) :
  (plainObject v = false -> String_cast invoke this v = Ok v)
  /\ (exists b, Boolean_cast this v = Ok (VBool b)
                /\ Boolean_validate render this (VBool b) = Ok VUndefined)
  /\ (exists n, Number_cast Number_of this v = Ok n
                /\ (Number_validate render this n = Ok VUndefined
                    <-> toNumber Number_of v <> VNaN
                        /\ typeof (toNumber Number_of v) = "number")).
Proof.
  split; [|split].
  - intros Hv. unfold String_cast, hasOwn.
    destruct v as [| |b|n| |s|f r|items|ps]; try discriminate;
      simpl own_entries; rewrite ?assoc_toString_index; cbn [assoc];
      rewrite ?andb_false_r; reflexivity.
  - exists (truthy v). split; reflexivity.
  - exists (toNumber Number_of v). split; [reflexivity|].
    unfold Number_validate.
    destruct (toNumber Number_of v); simpl; split;
      try (intros H; discriminate H);
      try (intros [H1 H2]; try discriminate H2; exfalso; apply H1; reflexivity);
      try (intros _; split; [discriminate | reflexivity]);
      try reflexivity.
Qed.

End BuiltinFacts.


(** ** Loaders *)

(** X15: loaders run from left to right, each on the value and the node
    the one before left, and the first that throws ends the run: running
    a list of loaders is running its front and then its back.  A loader
    that is no array is run as the one-item list; with no loader the
    value comes back as it is. *)
Theorem processLoaders_app (rec : Schema -> value -> value -> M)
    (s : Schema) (v : value) (front back : list value) :
  processLoaders rec s v (VArr (front ++ back))
  = andThen (processLoaders rec s v (VArr front))
      (fun v' s' => processLoaders rec s' v' (VArr back))
  /\ processLoaders rec s v (VArr []) = Some (Ok v, s)
  /\ forall l, isArray l = false ->
               processLoaders rec s v l = processLoaders rec s v (VArr [l]).
Proof.
  split; [|split].
  - unfold processLoaders. cbn [castArray].
    revert s v. induction front as [|l front IH]; intros s v; [reflexivity|].
    cbn [app processLoaders_loop].
    destruct (guessType _) as [ty|e]; [|reflexivity].
    destruct (rec _ ty v) as [[[v'|e] clone']|]; [apply IH | reflexivity | reflexivity].
  - reflexivity.
  - intros l Hl. unfold processLoaders. destruct l; try reflexivity.
    discriminate.
Qed.

Section Fuel.

Variable call : nat -> Schema -> value -> result value.
Variable render : string -> list error -> value -> option Schema -> string.
Variable display : value -> string.
Variable Transformers : string -> option Transformer.

Local Abbreviation parseProperty := (parseProperty call render display Transformers).
Local Abbreviation touch := (touch Transformers).

Hypothesis no_loaders :
  forall t T, Transformers t = Some T -> truthy (T_loaders T) = false.
Hypothesis no_Schema : Transformers "Schema" = None.

Lemma quiet_same (c c' : Schema) : same_leaf c c' -> quiet c -> quiet c'.
Proof.
  intros H [Hn Hl]. apply same_leaf_fields in H.
  destruct H as (_ & _ & _ & _ & E & _). unfold quiet. rewrite E.
  split; assumption.
Qed.

Lemma quiet_loaders (c : Schema) :
  quiet c -> pget (_defaultSettings (touch c)) "loaders" = VUndefined.
Proof.
  intros [Hn Hl]. unfold pget. rewrite touch_eq.
  cbn [_defaultSettings set_defaultSettings].
  rewrite (assoc_settings_own Transformers c "loaders" VUndefined Hn Hl).
  reflexivity.
Qed.

Lemma transformerOf_loaders (type : value) (T : Transformer) :
  transformerOf Transformers type = Some T -> truthy (T_loaders T) = false.
Proof.
  unfold transformerOf. destruct (keyOf type) as [n|]; [|discriminate].
  apply no_loaders.
Qed.

(** On a quiet node the single-type case calls no loader. *)
Lemma quiet_leaf (type : value) (c : Schema) (v : value) :
  quiet c ->
  exists out, forall rec, parseProperty_leaf call render display Transformers rec type c v = Some out.
Proof.
  intros Hq. unfold parseProperty_leaf.
  destruct (transformerOf Transformers type) as [T|] eqn:ET;
    [|eexists; intros rec; reflexivity].
  cbv zeta.
  destruct (withDefault call (touch c) v) as [v1|e];
    [|eexists; intros rec; reflexivity].
  destruct (is_undefined v1 && negb _);
    [eexists; intros rec; reflexivity|].
  destruct (castThrowable _ _) as [enabled message].
  destruct (is_undefined v1 && _ && _);
    [eexists; intros rec; reflexivity|].
  unfold loaderStage. rewrite (quiet_loaders c Hq).
  rewrite (transformerOf_loaders type T ET). cbn [truthy andThen].
  eexists; intros rec; reflexivity.
Qed.

Lemma Schema_leaf (c : Schema) (v : value) :
  exists out, forall rec, parseProperty_step call render display Transformers rec (VStr "Schema") c v = Some out.
Proof.
  cbn [parseProperty_step].
  destruct (is_null v && _); [eexists; intros rec; reflexivity|].
  unfold parseProperty_leaf.
  change (transformerOf Transformers (VStr "Schema")) with (Transformers "Schema").
  rewrite no_Schema. eexists; intros rec; reflexivity.
Qed.

Lemma quiet_step (type : value) :
  forall c v, quiet c ->
    exists out, forall rec, parseProperty_step call render display Transformers rec type c v = Some out.
Proof.
  induction type as [| |b|n| |str|f ref|items IH|ps] using value_ind_items;
    intros c v Hq; cbn [parseProperty_step];
    (destruct (is_null v && _); [eexists; intros rec; reflexivity|]);
    try (apply quiet_leaf;
         destruct (is_null v); [|exact Hq];
         exact (quiet_same _ _ (same_leaf_touch Transformers c) Hq)).
  assert (Hq0 : quiet (if is_null v then touch c else c)).
  { destruct (is_null v); [|exact Hq].
    exact (quiet_same _ _ (same_leaf_touch Transformers c) Hq). }
  revert Hq0. generalize (if is_null v then touch c else c).
  induction IH as [|t ts Ht _ IHts]; intros s0 Hq0.
  - eexists; intros rec; reflexivity.
  - assert (Hq1 : quiet (set_currentType s0 t))
      by exact (quiet_same _ _ (same_leaf_current s0 t) Hq0).
    destruct (Ht (set_currentType s0 t) v Hq1) as [[[res|e] s1] Hout].
    + eexists. intros rec. rewrite (Hout rec). reflexivity.
    + assert (Hq2 : quiet s1).
      { apply (quiet_same (set_currentType s0 t)); [|exact Hq1].
        exact (parseProperty_step_same call render display Transformers
                 (fun _ _ _ => None) t _ v _ _ (Hout _)). }
      destruct (IHts s1 Hq2) as [out Hrest].
      exists out. intros rec. rewrite (Hout rec). exact (Hrest rec).
Qed.

Lemma clone_quiet (s : Schema) (loaderSchema ty : value) :
  is_str ty "Schema" = false ->
  quiet (mkSchema (name s) (parent s) ty (currentType s) (children s)
           (if is_str ty "Schema" then _settings s
            else assign [] [VObj (_settings s); loaderSchema; loaderOverrides])
           (_defaultSettings s) (_defaultValues s) VUndefined VUndefined).
Proof.
  intros E. rewrite E. split; cbn [_settings].
  - apply NoDup_assign. constructor.
  - unfold assign. cbn [fold_left]. rewrite assoc_assign1. reflexivity.
Qed.

Lemma is_str_eq (v : value) (lit : string) : is_str v lit = true -> v = VStr lit.
Proof.
  destruct v; try discriminate. cbn [is_str]. intros H.
  apply String.eqb_eq in H. subst. reflexivity.
Qed.

Lemma processLoaders_loop_agree (rec1 rec2 : Schema -> value -> value -> M)
    (ls : list value) :
  agree rec1 rec2 ->
  forall s v,
    processLoaders_loop rec1 s v ls = processLoaders_loop rec2 s v ls
    /\ processLoaders_loop rec1 s v ls <> None.
Proof.
  intros Hag. induction ls as [|l ls IH]; intros s v;
    [split; [reflexivity | discriminate]|].
  cbn [processLoaders_loop].
  destruct (guessType _) as [ty|e]; [|split; [reflexivity | discriminate]].
  cbv zeta.
  match goal with
  | |- context [rec1 ?c ty v] =>
      assert (Hc : quiet c \/ ty = VStr "Schema")
  end.
  { destruct (is_str ty "Schema") eqn:E.
    - right. apply is_str_eq. exact E.
    - left. pose proof (clone_quiet s
                          (if is_object l then l else VObj [("type", l)]) ty E)
        as Hq. rewrite E in Hq. exact Hq. }
  destruct (Hag _ ty v Hc) as [Heq Hne]. rewrite <- Heq.
  destruct (rec1 _ ty v) as [[[v'|e] clone']|];
    [apply IH | split; [reflexivity | discriminate] | exfalso; apply Hne; reflexivity].
Qed.

Lemma leaf_agree (rec1 rec2 : Schema -> value -> value -> M)
    (type : value) (s : Schema) (v : value) :
  agree rec1 rec2 ->
  parseProperty_leaf call render display Transformers rec1 type s v = parseProperty_leaf call render display Transformers rec2 type s v
  /\ parseProperty_leaf call render display Transformers rec1 type s v <> None.
Proof.
  intros Hag. unfold parseProperty_leaf.
  destruct (transformerOf Transformers type) as [T|] eqn:ET;
    [|split; [reflexivity | discriminate]].
  cbv zeta.
  destruct (withDefault call (touch s) v) as [v1|e];
    [|split; [reflexivity | discriminate]].
  destruct (is_undefined v1 && negb _);
    [split; [reflexivity | discriminate]|].
  destruct (castThrowable _ _) as [enabled message].
  destruct (is_undefined v1 && _ && _);
    [split; [reflexivity | discriminate]|].
  unfold loaderStage. rewrite (transformerOf_loaders type T ET).
  destruct (truthy (pget (_defaultSettings (touch s)) "loaders")).
  - unfold processLoaders.
    destruct (processLoaders_loop_agree rec1 rec2
                (castArray (pget (_defaultSettings (touch s)) "loaders"))
                Hag (touch s) v1) as [Heq Hne].
    rewrite <- Heq.
    destruct (processLoaders_loop rec1 (touch s) v1 _) as [[[v2|e] s2]|];
      [ split; [reflexivity | discriminate]
      | split; [reflexivity | discriminate]
      | exfalso; apply Hne; reflexivity ].
  - split; [reflexivity | discriminate].
Qed.

Lemma step_agree (rec1 rec2 : Schema -> value -> value -> M) (type : value) :
  agree rec1 rec2 ->
  forall s v,
    parseProperty_step call render display Transformers rec1 type s v = parseProperty_step call render display Transformers rec2 type s v
    /\ parseProperty_step call render display Transformers rec1 type s v <> None.
Proof.
  intros Hag.
  induction type as [| |b|n| |str|f ref|items IH|ps] using value_ind_items;
    intros s v; cbn [parseProperty_step];
    (destruct (is_null v && _); [split; [reflexivity | discriminate]|]);
    try (apply leaf_agree; exact Hag).
  generalize (if is_null v then touch s else s).
  induction IH as [|t ts Ht _ IHts]; intros s0;
    [split; [reflexivity | discriminate]|].
  destruct (Ht (set_currentType s0 t) v) as [Heq Hne]. rewrite <- Heq.
  destruct (parseProperty_step call render display Transformers rec1 t
              (set_currentType s0 t) v) as [[[res|e] s1]|];
    [ split; [reflexivity | discriminate]
    | apply IHts
    | exfalso; apply Hne; reflexivity ].
Qed.

Lemma parseProperty_quiet (n : nat) (c : Schema) (ty x : value) :
  quiet c \/ ty = VStr "Schema" ->
  parseProperty n c ty x = parseProperty 0 c ty x
  /\ parseProperty n c ty x <> None.
Proof.
  intros Hc.
  assert (Hout : exists out, forall rec, parseProperty_step call render display Transformers rec ty c x = Some out).
  { destruct Hc as [Hq| ->]; [apply quiet_step; exact Hq | apply Schema_leaf]. }
  destruct Hout as [out Hout]. split.
  - destruct n; cbn [parseProperty]; [reflexivity|].
    etransitivity; [apply Hout | symmetry; apply Hout].
  - destruct n; cbn [parseProperty]; rewrite Hout; discriminate.
Qed.

Lemma parseProperty_fuel (n : nat) (s : Schema) (type v : value) :
  parseProperty (S n) s type v = parseProperty 1 s type v
  /\ parseProperty 1 s type v <> None.
Proof.
  assert (Hag : forall k,
             agree (loaderCalls call render display Transformers (S k))
                   (loaderCalls call render display Transformers 1)).
  { intros k c ty x Hc. unfold loaderCalls.
    destruct (parseProperty_quiet k c ty x Hc) as [E N].
    split; [exact E | exact N]. }
  rewrite !parseProperty_eq.
  destruct (step_agree _ _ type (Hag n) s v) as [E1 _].
  destruct (step_agree _ _ type (Hag 0%nat) s v) as [_ Hne].
  split; [exact E1 | exact Hne].
Qed.

(** X16: where no registered transformer declares loaders and no type is
    called [Schema], loaders nest one level only: with one level of fuel
    [parseProperty] returns, and more fuel changes nothing. *)
Theorem loaders_nest_once (n : nat) (s : Schema) (type v : value) :
  parseProperty (S n) s type v = parseProperty 1 s type v
  /\ parseProperty 1 s type v <> None.
Proof. apply parseProperty_fuel. Qed.

End Fuel.

(** X16 at [{ type: String, loaders: [Number] }] and ['x']. *)
Lemma loaders_nest_once_witness :
  parseProperty Sample.call Sample.render Sample.display Sample.Transformers
    3 with_loader (type with_loader) (VStr "x")
  = parseProperty Sample.call Sample.render Sample.display Sample.Transformers
      1 with_loader (type with_loader) (VStr "x").
Proof.
  apply (loaders_nest_once Sample.call Sample.render Sample.display
           Sample.Transformers).
  - intros t T E. unfold Sample.Transformers, builtins in E.
    repeat (destruct (String.eqb t _); [injection E as <-; reflexivity|]).
    discriminate.
  - reflexivity.
Defined.

(** ** Construction *)

Section Built.

Variable Transformers : string -> option Transformer.

Lemma set_defaultSettings_twice (s : Schema) (a b : props) :
  set_defaultSettings (set_defaultSettings s a) b = set_defaultSettings s b.
Proof. reflexivity. Qed.

Lemma construct_finish_inv (this s : Schema) :
  construct_finish Transformers this = Ok s ->
  exists ds, s = set_defaultSettings this ds.
Proof.
  rewrite construct_finish_cases. cbv zeta.
  destruct (negb _ && _); [discriminate|].
  destruct (getDefault _ "") as [d|e]; [|discriminate].
  intros H; injection H as <-. rewrite touch_eq.
  eexists. apply set_defaultSettings_twice.
Qed.

Lemma Schema_new_object (ps : props) (nm : string) (dv : value)
    (par : option Schema) (vl cst : value) (st0 : props) :
  Schema_new Transformers (VObj ps) nm dv par vl cst st0
  = match guessType (VObj ps) with
    | Throw e => Some (Throw e)
    | Ok ty =>
        let this := blank ty nm dv par vl cst st0 in
        if isNested (VObj ps) ty then
          match childrenOf Transformers this ps with
          | None => None
          | Some (Throw e) => Some (Throw e)
          | Some (Ok cs) =>
              Some (construct_finish Transformers (set_children this cs))
          end
        else Some (construct_leaf Transformers (VObj ps) this)
    end.
Proof. reflexivity. Qed.

Lemma Schema_new_fields (schema : value) (nm : string) (dv : value)
    (par : option Schema) (vl cst : value) (st0 : props) (s : Schema) :
  Schema_new Transformers schema nm dv par vl cst st0 = Some (Ok s) ->
  name s = nm /\ parent s = par /\ guessType schema = Ok (type s)
  /\ _defaultValues s = dv /\ _validate s = vl /\ _cast s = cst.
Proof.
  destruct schema as [| |b|n| |str|f r|items|ps]; cbn [Schema_new];
    destruct (guessType _) as [ty|e] eqn:Eg; try discriminate; cbv zeta;
    destruct (isNested _ ty);
    try match goal with
        | |- context [match ?m with None => _ | Some _ => _ end] =>
            destruct m as [[cs|e]|]; try discriminate
        end;
    try match goal with
        | |- context [charChildren ?a ?b ?c ?d] =>
            destruct (charChildren a b c d) as [cs|e]; try discriminate;
            cbn [bind]
        end;
    intros H; injection H as H; unfold construct_leaf in H;
    apply construct_finish_inv in H; destruct H as [ds ->];
    repeat split; try reflexivity.
Qed.

Lemma guessType_obj (ps : props) :
  guessType (VObj ps)
  = if truthy (pget ps "type") then guessType (pget ps "type")
    else Ok (VStr "Object").
Proof.
  unfold pget. induction ps as [|[k x] ps IH]; [reflexivity|].
  rewrite guessType_VObj_cons. cbn [assoc]. rewrite (String.eqb_sym "type" k).
  destruct (String.eqb k "type"); [|exact IH].
  destruct (truthy x); reflexivity.
Qed.

Lemma childrenOf_names (this : Schema) (ps : props) (cs : list Schema) :
  childrenOf Transformers this ps = Some (Ok cs) ->
  map name cs = map fst ps /\ Forall (fun c => parent c = Some this) cs.
Proof.
  revert cs. induction ps as [|[prop x] ps IH]; intros cs; cbn [childrenOf].
  - intros H; injection H as <-. split; [reflexivity | constructor].
  - destruct (guessType x) as [tx|e]; [|discriminate].
    destruct (is_str tx "Schema"); [discriminate|].
    destruct (Schema_new Transformers x prop _ _ _ _ _) as [[c|e]|] eqn:Ec;
      try discriminate.
    destruct (childrenOf Transformers this ps) as [[cs'|e]|]; try discriminate.
    intros H; injection H as <-.
    destruct (IH cs' eq_refl) as [Hn Hp].
    apply Schema_new_fields in Ec. destruct Ec as (En & Ep & _).
    split; [cbn [map fst]; rewrite En, Hn; reflexivity|].
    constructor; assumption.
Qed.

(** X17: the node built from a description object has the name and the
    parent it was given.  With a [type] that counts as true it is a leaf,
    whose own settings hold no [type]; otherwise it is a nested node of
    type [Object] with one child for each key of the description, in the
    description's order, each with a full path that continues the
    node's. *)
Theorem Schema_new_shape (ps : props) (nm : string) (dv : value)
    (par : option Schema) (vl cst : value) (st0 : props) (s : Schema) :
  Schema_new Transformers (VObj ps) nm dv par vl cst st0 = Some (Ok s) ->
  name s = nm /\ parent s = par
  /\ if truthy (pget ps "type")
     then children s = [] /\ assoc "type" (_settings s) = None
          /\ guessType (pget ps "type") = Ok (type s)
     else type s = VStr "Object" /\ ownPaths s = map fst ps
          /\ Forall (fun c =>
                       fullPath c
                       = ((if String.eqb (fullPath s) "" then ""
                           else fullPath s ++ ".") ++ name c)%string)
               (children s).
Proof.
  intros H. pose proof (Schema_new_fields _ _ _ _ _ _ _ _ H) as (Hn & Hp & Hg & _).
  split; [exact Hn|]. split; [exact Hp|].
  rewrite Schema_new_object in H. rewrite guessType_obj in H, Hg.
  unfold isNested in H. rewrite get_obj in H.
  destruct (truthy (pget ps "type")) eqn:Et.
  - destruct (guessType (pget ps "type")) as [ty|e]; [|discriminate].
    cbv zeta in H. rewrite andb_false_r in H.
    injection H as H. unfold construct_leaf in H.
    apply construct_finish_inv in H. destruct H as [ds ->].
    split; [reflexivity|]. split; [|exact Hg].
    cbn [_settings set_defaultSettings set_settings]. unfold leafSettings.
    rewrite assoc_pdelete. reflexivity.
  - cbv zeta in H. cbn [is_str String.eqb Ascii.eqb Bool.eqb andb negb] in H.
    destruct (childrenOf Transformers _ ps) as [[cs|e]|] eqn:Ec;
      try discriminate.
    injection H as H. apply construct_finish_inv in H. destruct H as [ds ->].
    apply childrenOf_names in Ec. destruct Ec as [Hnames Hpar].
    split; [reflexivity|]. split; [exact Hnames|].
    cbn [children set_defaultSettings set_children].
    eapply Forall_impl; [|exact Hpar].
    intros c Hc. destruct c as [cn cp cty cct ccs cst' cds cdv cvl ccst].
    cbn [parent] in Hc. subst cp. reflexivity.
Qed.

End Built.

(** X17 at [{ a: String }]. *)
Lemma Schema_new_shape_witness :
  name Sample.root_a = "" /\ parent Sample.root_a = None
  /\ type Sample.root_a = VStr "Object"
  /\ ownPaths Sample.root_a = ["a"]
  /\ Forall (fun c => fullPath c
                      = ((if String.eqb (fullPath Sample.root_a) "" then ""
                          else fullPath Sample.root_a ++ ".") ++ name c)%string)
       (children Sample.root_a).
Proof.
  exact (Schema_new_shape Sample.Transformers [("a", Sample.String_)] ""
           (VObj []) None VUndefined VUndefined [] Sample.root_a eq_refl).
Defined.

(** ** Clones *)

Lemma Schema_ind_children (P : Schema -> Prop) :
  (forall s, Forall P (children s) -> P s) -> forall s, P s.
Proof.
  intros H. fix IH 1. intros s. apply H.
  destruct s as [nm par ty ct cs st ds dv vl cst]. cbn [children].
  induction cs as [|c cs IHcs]; constructor; [apply IH | exact IHcs].
Qed.

Lemma linked_children (s : Schema) :
  linked s
  <-> Forall (fun c => fullPath c = childPath (fullPath s) (name c) /\ linked c)
        (children s).
Proof.
  destruct s as [nm par ty ct cs st ds dv vl cst]. cbn [linked children].
  generalize (fullPath (mkSchema nm par ty ct cs st ds dv vl cst)) as p.
  intros p. induction cs as [|c cs IH].
  - split; [constructor | trivial].
  - split.
    + intros [Hc Hr]. constructor; [exact Hc | apply IH; exact Hr].
    + intros H. inversion H as [|? ? Hc Hr]; subst.
      split; [exact Hc | apply IH; exact Hr].
Qed.

Lemma below_children (P : Schema -> Prop) (s : Schema) :
  below P s <-> Forall (fun c => P c /\ below P c) (children s).
Proof.
  destruct s as [nm par ty ct cs st ds dv vl cst]. cbn [below children].
  induction cs as [|c cs IH].
  - split; [constructor | trivial].
  - split.
    + intros [Hc Hr]. constructor; [exact Hc | apply IH; exact Hr].
    + intros H. inversion H as [|? ? Hc Hr]; subst.
      split; [exact Hc | apply IH; exact Hr].
Qed.

Lemma cloneSchema_eq (s : Schema) (nm : string) (par : option Schema)
    (st : props) (dv : value) :
  cloneSchema s nm par st dv
  = set_children (clonedTop s nm par st dv)
      (map (fun c => cloneSchema c "" (Some (clonedTop s nm par st dv)) []
                       (VObj []))
           (children s)).
Proof.
  destruct s as [snm spar ty ct cs sst ds sdv vl cst].
  reflexivity.
Qed.

(** X18: in a clone every node has the full path that continues its
    parent's: the whole subtree hangs from the new name and the new
    parent, whatever the parents of the cloned nodes were. *)
Theorem cloneSchema_linked (s : Schema) :
  forall nm par st dv, linked (cloneSchema s nm par st dv).
Proof.
  induction s as [s IH] using Schema_ind_children.
  intros nm par st dv. apply linked_children.
  rewrite cloneSchema_eq at 1. cbn [children set_children].
  apply Forall_map. rewrite Forall_forall in IH. apply Forall_forall.
  intros c Hc. split; [|apply IH; exact Hc].
  rewrite (cloneSchema_eq c). rewrite (cloneSchema_eq s nm par st dv).
  unfold childPath. destruct c as [cn cp cty cct ccs cst' cds cdv cvl ccst].
  reflexivity.
Qed.

Lemma paths_eq (s : Schema) :
  paths s
  = match children s with
    | [] => [name s]
    | cs => flat_map (fun c => map (fun path => (name_prefix s ++ path)%string)
                                   (paths c)) cs
    end.
Proof.
  destruct s as [nm par ty ct cs st ds dv vl cst].
  cbn [paths children name]. destruct cs as [|c0 cs0]; reflexivity.
Qed.

(** X19: a clone made with no new name has the paths of the node it was
    cloned from, and so has each of its children; the clone keeps the
    type, the hooks and the children's names, and takes the name, the
    parent, the settings and the default values it is given. *)
Theorem cloneSchema_keeps (s : Schema) (nm : string) (par : option Schema)
    (st : props) (dv : value) :
  let c := cloneSchema s nm par st dv in
  (nm = "" -> paths c = paths s)
  /\ ownPaths c = ownPaths s
  /\ type c = type s /\ _validate c = _validate s /\ _cast c = _cast s
  /\ name c = (if String.eqb nm "" then name s else nm)
  /\ parent c = par /\ _defaultValues c = dv
  /\ _settings c = assign [] [VObj st].
Proof.
  assert (Hpaths : forall s par st dv,
             paths (cloneSchema s "" par st dv) = paths s).
  { clear. induction s as [s IH] using Schema_ind_children.
    intros par st dv. rewrite (paths_eq s), paths_eq.
    rewrite cloneSchema_eq. cbn [children set_children name].
    unfold name_prefix. cbn [name clonedTop String.eqb].
    rewrite Forall_forall in IH.
    destruct (children s) as [|c0 cs0] eqn:Ec; [reflexivity|].
    rewrite <- Ec in *. 
    assert (E : forall l, incl l (children s) ->
              flat_map (fun c => map (fun path =>
                                        ((if String.eqb (name s) "" then ""
                                          else name s ++ ".") ++ path)%string)
                                     (paths c))
                (map (fun c => cloneSchema c "" (Some (clonedTop s "" par st dv))
                                 [] (VObj [])) l)
              = flat_map (fun c => map (fun path =>
                                          ((if String.eqb (name s) "" then ""
                                            else name s ++ ".") ++ path)%string)
                                       (paths c)) l).
    { induction l as [|c l IHl]; intros Hl; [reflexivity|].
      cbn [map flat_map]. rewrite IHl by (intros x Hx; apply Hl; right; exact Hx).
      rewrite IH by (apply Hl; left; reflexivity). reflexivity. }
    specialize (E (children s) (incl_refl _)).
    rewrite Ec in E |- *. cbn [map] in E |- *. exact E. }
  cbv zeta. split; [intros ->; apply Hpaths|].
  rewrite cloneSchema_eq. unfold ownPaths. cbn [children set_children].
  split.
  - rewrite map_map. apply map_ext. intros c. rewrite cloneSchema_eq.
    reflexivity.
  - repeat split.
Qed.

(** X20: below a clone every node has lost its own settings and default
    values; so in the settings of a cloned leaf child a setting the
    transformer declares has the transformer's value, whatever the child
    it was cloned from had set, and any other setting the value the
    defaults object holds. *)
Theorem cloneSchema_resets_settings
    (Transformers : string -> option Transformer)
    (s : Schema) (nm : string) (par : option Schema) (st : props) (dv : value) :
  below (fun c =>
           _settings c = [] /\ _defaultValues c = VObj []
           /\ forall T k,
               hasChildren c = false ->
               transformerOf Transformers (currentType c) = Some T ->
               NoDup (map fst (own_entries (T_settings T))) ->
               pget (settings Transformers c) k
               = match assoc k (own_entries (T_settings T)) with
                 | Some v => v
                 | None => pget (_defaultSettings c) k
                 end)
    (cloneSchema s nm par st dv).
Proof.
  revert nm par st dv.
  induction s as [s IH] using Schema_ind_children.
  intros nm par st dv. apply below_children.
  rewrite cloneSchema_eq. cbn [children set_children].
  apply Forall_map. rewrite Forall_forall in IH. apply Forall_forall.
  intros c Hc. split; [|apply IH; exact Hc].
  rewrite (cloneSchema_eq c).
  split; [reflexivity|]. split; [reflexivity|].
  intros T k Hl HT Hn.
  rewrite (settings_lookup Transformers _ k);
    [ | constructor | intros T' HT'; rewrite HT in HT'; injection HT' as <-; exact Hn ].
  cbn [_settings set_children clonedTop assoc]. rewrite Hl, HT. reflexivity.
Qed.

(** ** Paths and full paths *)

Lemma leavesOf_eq (s : Schema) :
  leavesOf s
  = match children s with
    | [] => [s]
    | cs => flat_map leavesOf cs
    end.
Proof.
  destruct s as [nm par ty ct cs st ds dv vl cst].
  cbn [leavesOf children]. destruct cs; reflexivity.
Qed.

Lemma childPath_step (pp n p : string) :
  pp = "" \/ n <> "" ->
  childPath (childPath pp n) p
  = childPath pp ((if String.eqb n "" then "" else n ++ ".") ++ p).
Proof.
  unfold childPath. intros H.
  destruct (String.eqb n "") eqn:En.
  - apply String.eqb_eq in En. subst n.
    destruct H as [-> | H]; [reflexivity | exfalso; apply H; reflexivity].
  - destruct (String.eqb pp "") eqn:Ep.
    + cbn [append]. rewrite En. rewrite append_assoc. reflexivity.
    + assert (E : String.eqb ((pp ++ ".") ++ n) "" = false).
      { destruct pp; [discriminate | reflexivity]. }
      rewrite E. rewrite !append_assoc. reflexivity.
Qed.

Lemma paths_relative :
  forall (s : Schema) (pp : string),
    fullPath s = childPath pp (name s) ->
    pp = "" \/ name s <> "" ->
    linked s -> below (fun c => name c <> "") s ->
    map fullPath (leavesOf s) = map (childPath pp) (paths s).
Proof.
  induction s as [s IH] using Schema_ind_children.
  intros pp Hs Hpp Hl Hb. rewrite leavesOf_eq, paths_eq.
  apply linked_children in Hl. apply below_children in Hb.
  destruct (children s) as [|c0 cs0] eqn:Ec; [cbn [map]; rewrite Hs; reflexivity|].
  rewrite <- Ec in *. clear Ec c0 cs0.
  rewrite Forall_forall in IH, Hl, Hb.
  enough (E : forall l, incl l (children s) ->
            map fullPath (flat_map leavesOf l)
            = map (childPath pp)
                (flat_map (fun c => map (fun path => (name_prefix s ++ path)%string)
                                        (paths c)) l))
    by (apply E, incl_refl).
  induction l as [|c l IHl]; intros Hincl; [reflexivity|].
  cbn [flat_map]. rewrite !map_app.
  rewrite IHl by (intros x Hx; apply Hincl; right; exact Hx).
  f_equal.
  assert (Hc : In c (children s)) by (apply Hincl; left; reflexivity).
  destruct (Hl c Hc) as [Hfc Hlc]. destruct (Hb c Hc) as [Hnc Hbc].
  rewrite (IH c Hc (fullPath s) Hfc (or_intror Hnc) Hlc Hbc).
  rewrite map_map. apply map_ext. intros p. rewrite Hs.
  unfold name_prefix. apply childPath_step. exact Hpp.
Qed.

(** X21: in a tree that hangs together -- a root with no parent, every
    node below it named and with the full path that continues its
    parent's -- the paths of the root are the full paths of its leaves,
    from left to right. *)
Theorem paths_are_fullPaths (s : Schema) :
  parent s = None -> linked s -> below (fun c => name c <> "") s ->
  paths s = map fullPath (leavesOf s).
Proof.
  intros Hp Hl Hb.
  rewrite (paths_relative s "" ); [ | | left; reflexivity | exact Hl | exact Hb].
  - symmetry. rewrite <- (map_id (paths s)) at 2. apply map_ext.
    intros p. reflexivity.
  - destruct s as [nm par ty ct cs st ds dv vl cst]. cbn [parent] in Hp.
    subst par. reflexivity.
Qed.

(** X21 at the person schema. *)
Lemma paths_are_fullPaths_witness :
  paths person = ["name"; "age"; "address.city"; "address.zip"].
Proof.
  rewrite (paths_are_fullPaths person);
    [ reflexivity | reflexivity
    | cbn; repeat split; reflexivity
    | cbn; repeat split; discriminate ].
Defined.

Section BuiltTrees.

Variable Transformers : string -> option Transformer.

Lemma linked_leaf (s : Schema) : children s = [] -> linked s.
Proof. intros H. apply linked_children. rewrite H. constructor. Qed.

Lemma linked_set_defaultSettings (s : Schema) (ds : props) :
  linked s -> linked (set_defaultSettings s ds).
Proof.
  intros H. apply linked_children. apply linked_children in H.
  destruct s as [nm par ty ct cs st ds0 dv vl cst]. exact H.
Qed.

Lemma charChildren_linked (this : Schema) (cs0 : list value) :
  forall i cs,
    charChildren Transformers this i cs0 = Ok cs ->
    Forall (fun c => fullPath c = childPath (fullPath this) (name c) /\ linked c)
      cs.
Proof.
  induction cs0 as [|x cs0 IH]; intros i cs; cbn [charChildren].
  - intros H; injection H as <-. constructor.
  - destruct (guessType x) as [ty|e]; [|discriminate]. cbn [bind].
    destruct (construct_leaf Transformers x _) as [c|e] eqn:Ec; [|discriminate].
    cbn [bind].
    destruct (charChildren Transformers this (S i) cs0) as [cs'|e] eqn:Er;
      [|discriminate].
    cbn [bind]. intros H; injection H as <-.
    constructor; [|exact (IH _ _ Er)].
    unfold construct_leaf in Ec. apply construct_finish_inv in Ec.
    destruct Ec as [ds ->]. split; [reflexivity|].
    apply linked_leaf. reflexivity.
Qed.

Lemma childrenOf_linked (this : Schema) (ps : props) :
  Forall (fun kv =>
            forall nm dv par vl cst st0 s,
              Schema_new Transformers (snd kv) nm dv par vl cst st0 = Some (Ok s) ->
              linked s) ps ->
  forall cs,
    childrenOf Transformers this ps = Some (Ok cs) ->
    Forall (fun c => fullPath c = childPath (fullPath this) (name c) /\ linked c)
      cs.
Proof.
  induction ps as [|[prop x] ps IH]; intros HF cs; cbn [childrenOf].
  - intros H; injection H as <-. constructor.
  - inversion HF as [|? ? Hx Hr]; subst. cbn [snd] in Hx.
    destruct (guessType x) as [tx|e]; [|discriminate].
    destruct (is_str tx "Schema"); [discriminate|].
    destruct (Schema_new Transformers x prop _ _ _ _ _) as [[c|e]|] eqn:Ec;
      try discriminate.
    destruct (childrenOf Transformers this ps) as [[cs'|e]|] eqn:Er;
      try discriminate.
    intros H; injection H as <-.
    constructor; [|exact (IH Hr _ eq_refl)].
    split; [|exact (Hx _ _ _ _ _ _ _ Ec)].
    apply Schema_new_fields in Ec. destruct Ec as (En & Ep & _).
    destruct c as [cn cp cty cct ccs cst' cds cdv cvl ccst].
    cbn [name parent] in En, Ep. subst cn cp. reflexivity.
Qed.

Lemma linked_with_children (this : Schema) (cs : list Schema) (ds : props) :
  Forall (fun c => fullPath c = childPath (fullPath this) (name c) /\ linked c)
    cs ->
  linked (set_defaultSettings (set_children this cs) ds).
Proof.
  intros H. apply linked_children.
  destruct this as [nm par ty ct cs0 st ds0 dv vl cst]. exact H.
Qed.

(** X22: the tree the constructor builds hangs together at every level:
    each node below the root has the full path that continues its
    parent's. *)
Theorem Schema_new_linked (schema : value) :
  forall nm dv par vl cst st0 s,
    Schema_new Transformers schema nm dv par vl cst st0 = Some (Ok s) ->
    linked s.
Proof.
  induction schema as [| |b|n| |str|f r|items IH|ps IH] using value_ind_nested;
    intros nm dv par vl cst st0 s; cbn [Schema_new];
    destruct (guessType _) as [ty|e] eqn:Eg; try discriminate; cbv zeta;
    destruct (isNested _ ty);
    try (intros H; injection H as H; unfold construct_leaf in H;
         apply construct_finish_inv in H; destruct H as [ds ->];
         apply linked_leaf; reflexivity).
  - (* the description ['Object'] *)
    destruct (charChildren Transformers _ 0 (chars str)) as [cs|e] eqn:Ec;
      [|discriminate].
    cbn [bind]. intros H; injection H as H.
    apply construct_finish_inv in H. destruct H as [ds ->].
    apply linked_with_children. exact (charChildren_linked _ _ _ _ Ec).
  - (* a nested description *)
    match goal with
    | |- context [match ?m with None => _ | Some _ => _ end] =>
        change m with (childrenOf Transformers
                         (blank ty nm dv par vl cst st0) ps);
        destruct (childrenOf Transformers (blank ty nm dv par vl cst st0) ps)
          as [[cs|e]|] eqn:Ec; try discriminate
    end.
    intros H; injection H as H.
    apply construct_finish_inv in H. destruct H as [ds ->].
    apply linked_with_children.
    exact (childrenOf_linked _ ps IH cs Ec).
Qed.

End BuiltTrees.

(** X22 at the person schema. *)
Lemma Schema_new_linked_witness : linked person.
Proof.
  apply (Schema_new_linked Sample.Transformers
           (VObj [("name", Sample.String_);
                  ("age", VObj [("type", Sample.Number_);
                                ("required", VBool false)]);
                  ("address", VObj [("city", Sample.String_);
                                    ("zip", Sample.Number_)])])
           "" (VObj []) None VUndefined VUndefined [] person).
  reflexivity.
Defined.

(** ** Fuel *)

Lemma height_eq (s : Schema) :
  height s = list_max (map (fun c => S (height c)) (children s)).
Proof.
  destruct s as [nm par ty ct cs st ds dv vl cst]. cbn [height children].
  induction cs as [|c cs IH]; [reflexivity|].
  cbn [map list_max fold_right]. rewrite IH. reflexivity.
Qed.

Lemma height_le (s : Schema) (h : nat) :
  height s <= h <-> Forall (fun c => height c < h) (children s).
Proof.
  rewrite height_eq, list_max_le, Forall_map. reflexivity.
Qed.

Lemma height_same_leaf (s s' : Schema) : same_leaf s s' -> height s' = height s.
Proof. intros [ct [ds ->]]. destruct s; reflexivity. Qed.

Lemma height_set_children (s : Schema) (cs : list Schema) (h : nat) :
  Forall (fun c => height c < h) cs -> height (set_children s cs) <= h.
Proof. intros H. apply height_le. exact H. Qed.

Lemma childNamed_In (s c : Schema) (p : string) :
  childNamed s p = Some c -> In c (children s).
Proof. unfold childNamed. intros H. apply find_some in H. apply H. Qed.

Lemma childNamed_height (s c : Schema) (p : string) :
  childNamed s p = Some c -> height c < height s.
Proof.
  intros H. apply childNamed_In in H.
  pose proof (proj1 (height_le s (height s)) (le_n _)) as Hall.
  rewrite Forall_forall in Hall. exact (Hall c H).
Qed.

Lemma replaceNamed_bound (cs : list Schema) (p : string) (c' : Schema) (h : nat) :
  Forall (fun c => height c < h) cs -> height c' < h ->
  Forall (fun c => height c < h) (replaceNamed cs p c').
Proof.
  intros H Hc. induction H as [|c cs Hx Hr IH]; cbn [replaceNamed];
    [constructor|].
  destruct (String.eqb (name c) p); constructor; assumption.
Qed.

Lemma schemaAtPath_height (s c : Schema) (key : string) :
  schemaAtPath s key = Ok (Some c) -> height c < height s.
Proof.
  unfold schemaAtPath.
  destruct (split_dots key) as [|path [|rest more]].
  - intros H; injection H as H. exact (childNamed_height _ _ _ H).
  - intros H; injection H as H. exact (childNamed_height _ _ _ H).
  - destruct (String.eqb rest "").
    + intros H; injection H as H. exact (childNamed_height _ _ _ H).
    + destruct (childNamed s path) as [schema|] eqn:E1; [|discriminate].
      intros H; injection H as H.
      apply childNamed_height in E1, H. lia.
Qed.

Lemma putSchemaAtPath_height (s c c' : Schema) (key : string) (h : nat) :
  height s <= h -> schemaAtPath s key = Ok (Some c) ->
  height c' <= height c ->
  height (putSchemaAtPath s key c') <= h.
Proof.
  intros Hs. pose proof (proj1 (height_le s h) Hs) as Hall.
  unfold schemaAtPath, putSchemaAtPath.
  assert (Hone : forall path,
             childNamed s path = Some c -> height c' <= height c ->
             height (set_children s (replaceNamed (children s) path c')) <= h).
  { intros path E Hc. apply height_set_children.
    apply replaceNamed_bound; [exact Hall|].
    apply childNamed_In in E. rewrite Forall_forall in Hall.
    specialize (Hall c E). lia. }
  destruct (split_dots key) as [|path [|rest more]].
  - intros H; injection H as H. exact (Hone _ H).
  - intros H; injection H as H. exact (Hone _ H).
  - destruct (String.eqb rest "").
    + intros H; injection H as H. exact (Hone _ H).
    + destruct (childNamed s path) as [schema|] eqn:E1; [|discriminate].
      intros H Hc; injection H as H.
      apply height_set_children. apply replaceNamed_bound; [exact Hall|].
      assert (Hsch : height schema < h).
      { apply childNamed_In in E1. rewrite Forall_forall in Hall.
        exact (Hall _ E1). }
      enough (height (set_children schema
                        (replaceNamed (children schema) rest c'))
              <= height schema) by lia.
      apply height_set_children. apply replaceNamed_bound.
      * apply height_le. apply le_n.
      * apply childNamed_height in H. lia.
Qed.

Section TreeFuel.

Variable call : nat -> Schema -> value -> result value.
Variable render : string -> list error -> value -> option Schema -> string.
Variable display : value -> string.
Variable Transformers : string -> option Transformer.

Local Abbreviation parseProperty := (parseProperty call render display Transformers).
Local Abbreviation parse := (parse call render display Transformers).
Local Abbreviation touch := (touch Transformers).

Lemma runChildren_loop_height (rec : Schema -> value -> M) (obj : value)
    (h : nat) :
  (forall c x r c', rec c x = Some (r, c') -> height c' <= height c) ->
  forall names s ro errs r s',
    height s <= h ->
    runChildren_loop rec s obj names ro errs = Some (r, s') ->
    height s' <= h.
Proof.
  intros Hrec. induction names as [|n names IH]; intros s ro errs r s' Hs;
    cbn [runChildren_loop].
  - intros H; injection H as _ <-. exact Hs.
  - cbv zeta.
    destruct (schemaAtPath s (replace_dot_tail n)) as [[schema|]|e] eqn:Es.
    + destruct (rec schema _) as [[[val|err] schema']|] eqn:Er; [| |discriminate];
        apply IH;
        exact (putSchemaAtPath_height s schema schema' _ h Hs Es
                 (Hrec _ _ _ _ Er)).
    + destruct (is_object obj && negb (is_null obj));
        [intros H; injection H as _ <-; exact Hs | apply IH; exact Hs].
    + intros H; injection H as _ <-. exact Hs.
Qed.

Lemma height_touch (s : Schema) : height (touch s) = height s.
Proof. apply height_same_leaf, same_leaf_touch. Qed.

Lemma runChildren_height (rec : Schema -> value -> M) (s : Schema)
    (obj : value) (r : result value) (s' : Schema) :
  (forall c x r c', rec c x = Some (r, c') -> height c' <= height c) ->
  runChildren render Transformers rec s obj = Some (r, s') ->
  height s' <= height s.
Proof.
  intros Hrec. unfold runChildren. cbv zeta.
  destruct (negb _ && is_undefined obj);
    [intros H; injection H as _ <-; rewrite height_touch; apply le_n|].
  destruct (runChildren_loop rec _ obj _ _ _) as [[[[ro errs]|e] s1]|] eqn:E;
    [| |discriminate];
    apply (runChildren_loop_height rec obj (height s) Hrec) in E;
    try (rewrite height_touch; apply le_n).
  - destruct errs; intros H; injection H as _ <-; exact E.
  - intros H; injection H as _ <-. exact E.
Qed.

Lemma parse_height (fuel : nat) :
  forall s v r s', parse fuel s v = Some (r, s') -> height s' <= height s.
Proof.
  induction fuel as [|n IH]; intros s v r s'; [discriminate|].
  rewrite parse_S.
  set (m := if hasChildren s then _ else _).
  assert (Hm : forall r1 s1, m = Some (r1, s1) -> height s1 <= height s).
  { subst m. intros r1 s1. destruct (hasChildren s).
    - apply runChildren_height. exact IH.
    - intros H. apply parseProperty_same in H.
      rewrite (height_same_leaf _ _ H). apply le_n. }
  destruct m as [[[v1|e] s1]|]; simpl; [| |discriminate].
  - specialize (Hm _ _ eq_refl).
    destruct (parent s1); [intros H; injection H as _ <-; exact Hm|].
    destruct (hook call (_cast s1) s1 v1);
      [|intros H; injection H as _ <-; exact Hm].
    destruct (hook call (_validate s1) s1 a);
      intros H; injection H as _ <-; exact Hm.
  - specialize (Hm _ _ eq_refl). intros H; injection H as _ <-. exact Hm.
Qed.

Lemma runChildren_loop_agree (rec1 rec2 : Schema -> value -> M) (obj : value)
    (h : nat) :
  (forall c x, height c <= h -> rec1 c x = rec2 c x /\ rec1 c x <> None) ->
  (forall c x r c', rec1 c x = Some (r, c') -> height c' <= height c) ->
  forall names s ro errs,
    height s <= S h ->
    runChildren_loop rec1 s obj names ro errs
    = runChildren_loop rec2 s obj names ro errs
    /\ runChildren_loop rec1 s obj names ro errs <> None.
Proof.
  intros Hag Hrec. induction names as [|n names IH]; intros s ro errs Hs;
    cbn [runChildren_loop]; [split; [reflexivity | discriminate]|].
  cbv zeta.
  destruct (schemaAtPath s (replace_dot_tail n)) as [[schema|]|e] eqn:Es.
  - assert (Hsch : height schema <= h)
      by (apply schemaAtPath_height in Es; lia).
    match goal with
    | |- context [rec1 schema ?x] =>
        destruct (Hag schema x Hsch) as [Heq Hne]; rewrite <- Heq;
        destruct (rec1 schema x) as [[[val|err] schema']|] eqn:Er;
        [ | | exfalso; apply Hne; reflexivity ]
    end;
      apply IH;
      exact (putSchemaAtPath_height s schema schema' _ (S h) Hs Es
               (Hrec _ _ _ _ Er)).
  - destruct (is_object obj && negb (is_null obj));
      [split; [reflexivity | discriminate] | apply IH; exact Hs].
  - split; [reflexivity | discriminate].
Qed.

Lemma runChildren_agree (rec1 rec2 : Schema -> value -> M) (s : Schema)
    (obj : value) (h : nat) :
  (forall c x, height c <= h -> rec1 c x = rec2 c x /\ rec1 c x <> None) ->
  (forall c x r c', rec1 c x = Some (r, c') -> height c' <= height c) ->
  height s <= S h ->
  runChildren render Transformers rec1 s obj
  = runChildren render Transformers rec2 s obj
  /\ runChildren render Transformers rec1 s obj <> None.
Proof.
  intros Hag Hrec Hs. unfold runChildren. cbv zeta.
  destruct (negb _ && is_undefined obj); [split; [reflexivity | discriminate]|].
  assert (Ht : height (touch s) <= S h) by (rewrite height_touch; exact Hs).
  match goal with
  | |- context [runChildren_loop rec1 ?a ?b ?c ?d ?e] =>
      destruct (runChildren_loop_agree rec1 rec2 b h Hag Hrec c a d e Ht)
        as [Heq Hne]; rewrite <- Heq;
      destruct (runChildren_loop rec1 a b c d e) as [[[[ro errs]|e'] s1]|];
      [ destruct errs; split; [reflexivity | discriminate
                              | reflexivity | discriminate]
      | split; [reflexivity | discriminate]
      | exfalso; apply Hne; reflexivity ]
  end.
Qed.

Hypothesis no_loaders :
  forall t T, Transformers t = Some T -> truthy (T_loaders T) = false.
Hypothesis no_Schema : Transformers "Schema" = None.

Lemma parse_fuel (h : nat) :
  forall s v n1 n2,
    height s <= h -> h + 2 <= n1 -> h + 2 <= n2 ->
    parse n1 s v = parse n2 s v /\ parse n1 s v <> None.
Proof.
  induction h as [h IH] using lt_wf_ind.
  intros s v n1 n2 Hs H1 H2.
  destruct n1 as [|n1]; [lia|]. destruct n2 as [|n2]; [lia|].
  rewrite !parse_S.
  assert (Hm : (if hasChildren s
                then runChildren render Transformers (parse n1) s v
                else parseProperty n1 s (type s) v)
               = (if hasChildren s
                  then runChildren render Transformers (parse n2) s v
                  else parseProperty n2 s (type s) v)
               /\ (if hasChildren s
                   then runChildren render Transformers (parse n1) s v
                   else parseProperty n1 s (type s) v) <> None).
  { destruct (hasChildren s) eqn:Ec.
    - destruct h as [|h'].
      + exfalso. unfold hasChildren in Ec.
        apply height_le in Hs. destruct (children s) as [|c cs]; [discriminate|].
        inversion Hs; subst. lia.
      + apply (runChildren_agree (parse n1) (parse n2) s v h').
        * intros c x Hc. apply (IH h'); [lia | exact Hc | lia | lia].
        * intros c x r c'. apply parse_height.
        * exact Hs.
    - destruct n1 as [|k1]; [lia|]. destruct n2 as [|k2]; [lia|].
      destruct (parseProperty_fuel call render display Transformers
                  no_loaders no_Schema k1 s (type s) v) as [E1 N1].
      destruct (parseProperty_fuel call render display Transformers
                  no_loaders no_Schema k2 s (type s) v) as [E2 _].
      split; [rewrite E1, E2; reflexivity | rewrite E1; exact N1]. }
  destruct Hm as [Heq Hne]. rewrite <- Heq.
  split; [reflexivity|].
  destruct (if hasChildren s then _ else _) as [[[v1|e] s1]|];
    [ | discriminate | exfalso; apply Hne; reflexivity ].
  cbn [andThen]. destruct (parent s1); [discriminate|].
  destruct (hook call (_cast s1) s1 v1); [|discriminate].
  destruct (hook call (_validate s1) s1 a); discriminate.
Qed.

(** X23: where no registered transformer declares loaders and no type is
    called [Schema], [parse] returns on every schema tree and every
    input: two levels of fuel more than the tree is high are enough, and
    more fuel changes nothing. *)
Theorem parse_returns (s : Schema) (v : value) (n : nat) :
  height s + 2 <= n ->
  parse n s v = parse (height s + 2) s v /\ parse n s v <> None.
Proof.
  intros H. apply (parse_fuel (height s)); [apply le_n | exact H | apply le_n].
Qed.

End TreeFuel.

(** X23 at the person schema and the input of the round-trip example. *)
Lemma parse_returns_witness :
  Sample.parse 9 person ann = Sample.parse 3 person ann.
Proof.
  apply (parse_returns Sample.call Sample.render Sample.display
           Sample.Transformers).
  - intros t T E. unfold Sample.Transformers, builtins in E.
    repeat (destruct (String.eqb t _); [injection E as <-; reflexivity|]).
    discriminate.
  - reflexivity.
  - vm_compute. lia.
Defined.

(** ** The default of a leaf *)

Section BuiltDefault.

Variable Transformers : string -> option Transformer.

Lemma leafSettings_own_default (ps : props) :
  NoDup (map fst ps) ->
  assoc "default" (leafSettings (VObj ps) []) = assoc "default" ps.
Proof.
  intros Hn. unfold leafSettings. change (is_object (VObj ps)) with true.
  cbv iota. rewrite assoc_pdelete. simpl String.eqb. cbv iota.
  unfold assign. simpl fold_left. rewrite !assoc_assign1. simpl own_entries.
  rewrite (assoc_rev_nodup _ _ Hn).
  destruct (assoc "default" ps); reflexivity.
Qed.

(** X24: for a leaf built from a description object, the [default] in
    effect is the description's own when it has the key -- even when the
    root's [defaultValues] name the field -- and otherwise what
    [getDefault] finds for the node, provided the transformer's settings
    declare no default. *)
Theorem constructed_default (ps : props) (nm : string) (dv : value)
    (par : option Schema) (vl cst : value) (s : Schema) :
  NoDup (map fst ps) ->
  truthy (pget ps "type") = true ->
  (forall T, transformerOf Transformers (currentType s) = Some T ->
             NoDup (map fst (own_entries (T_settings T)))
             /\ assoc "default" (own_entries (T_settings T)) = None) ->
  Schema_new Transformers (VObj ps) nm dv par vl cst [] = Some (Ok s) ->
  exists d,
    getDefault s "" = Ok d
    /\ pget (settings Transformers s) "default"
       = match assoc "default" ps with
         | Some v => v
         | None => d
         end.
Proof.
  intros Hn Ht HT H.
  rewrite Schema_new_object in H. rewrite guessType_obj, Ht in H.
  destruct (guessType (pget ps "type")) as [ty|e]; [|discriminate].
  cbv zeta in H. unfold isNested in H. rewrite get_obj, Ht in H.
  rewrite andb_false_r in H. injection H as H.
  unfold construct_leaf in H. rewrite construct_finish_cases in H.
  cbv zeta in H.
  destruct (negb _ && _); [discriminate|].
  destruct (getDefault _ "") as [d|e] eqn:Ed; [|discriminate].
  injection H as <-. exists d. split.
  - rewrite <- Ed. destruct (blank ty nm dv par vl cst []); reflexivity.
  - rewrite settings_lookup.
    + cbn [_settings set_defaultSettings set_settings]. rewrite touch_eq.
      cbn [_settings set_defaultSettings set_settings].
      rewrite (leafSettings_own_default ps Hn).
      destruct (assoc "default" ps) as [v|]; [reflexivity|].
      cbn [hasChildren children set_defaultSettings set_settings blank].
      assert (Ed' : pget (pset (_defaultSettings
                                  (touch Transformers
                                     (set_settings (blank ty nm dv par vl cst [])
                                        (leafSettings (VObj ps) []))))
                            "default" d) "default" = d).
      { unfold pget. rewrite assoc_pset, String.eqb_refl. reflexivity. }
      destruct (transformerOf Transformers _) as [T|] eqn:ET.
      * destruct (HT T eq_refl) as [_ Hnone]. rewrite Hnone. exact Ed'.
      * exact Ed'.
    + cbn [_settings set_defaultSettings]. rewrite touch_eq.
      cbn [_settings set_defaultSettings set_settings].
      apply NoDup_leafSettings. reflexivity.
    + intros T ET. apply HT. exact ET.
Qed.

End BuiltDefault.

(** X24 at the child [a] of
    [new Schema({ a: { type: String } }, { defaultValues: { a: 'x' } })]. *)
Lemma constructed_default_witness :
  pget (settings Sample.Transformers
          (hd defaulted_root (children defaulted_root))) "default"
  = VStr "x".
Proof.
  destruct (constructed_default Sample.Transformers
              [("type", Sample.String_)] "a" (VObj [])
              (Some (blank (VStr "Object") "" (VObj [("a", VStr "x")]) None
                       VUndefined VUndefined []))
              VUndefined VUndefined
              (hd defaulted_root (children defaulted_root)))
    as [d [Hd Hs]].
  - repeat (constructor; [simpl; intuition discriminate|]). constructor.
  - reflexivity.
  - intros T E. vm_compute in E. injection E as <-. split.
    + vm_compute.
      repeat (constructor; [simpl; intuition discriminate|]). constructor.
    + reflexivity.
  - vm_compute. reflexivity.
  - vm_compute in Hd. injection Hd as <-. exact Hs.
Defined.

(** ** The Array transformer *)

Section ArrayFacts.

Variable call : nat -> Schema -> value -> result value.
Variable render : string -> list error -> value -> option Schema -> string.
Variable display : value -> string.
Variable Transformers : string -> option Transformer.

Local Abbreviation parse := (parse call render display Transformers).

Lemma Array_items_app (fuel : nat) (this : Schema) (A : value)
    (pre rest : list value) :
  forall i,
    Array_items call render display Transformers fuel this A i (pre ++ rest)
    = match Array_items call render display Transformers fuel this A i pre with
      | Some (Ok ys) =>
          match Array_items call render display Transformers fuel this A (i + List.length pre) rest with
          | Some (Ok zs) => Some (Ok (ys ++ zs))
          | other => other
          end
      | other => other
      end.
Proof.
  induction pre as [|x pre IH]; intros i.
  - cbn [app List.length]. rewrite Nat.add_0_r.
    cbn [Array_items].
    destruct (Array_items call render display Transformers fuel this A i rest) as [[zs|e]|]; reflexivity.
  - cbn [app List.length Array_items].
    destruct (itemSchema Transformers this A i) as [[item|e]|]; try reflexivity.
    destruct (parse fuel item x) as [[[y|e] s']|]; try reflexivity.
    rewrite IH. replace (S i + List.length pre) with (i + S (List.length pre)) by lia.
    destruct (Array_items call render display Transformers fuel this A (S i) pre) as [[ys|e]|]; try reflexivity.
    destruct (Array_items call render display Transformers fuel this A (i + S (List.length pre)) rest)
      as [[zs|e]|]; reflexivity.
Qed.

Lemma Array_items_length (fuel : nat) (this : Schema) (A : value)
    (items : list value) :
  forall i ys,
    Array_items call render display Transformers fuel this A i items = Some (Ok ys) ->
    List.length ys = List.length items.
Proof.
  induction items as [|x items IH]; intros i ys; cbn [Array_items].
  - intros H; injection H as <-. reflexivity.
  - destruct (itemSchema Transformers this A i) as [[item|e]|]; try discriminate.
    destruct (parse fuel item x) as [[[y|e] s']|]; try discriminate.
    destruct (Array_items call render display Transformers fuel this A (S i) items) as [[ys'|e]|] eqn:E;
      try discriminate.
    intros H; injection H as <-. cbn [List.length]. f_equal. exact (IH _ _ E).
Qed.



End ArrayFacts.

(** ** An unknown property that is [null] *)

Lemma propertiesRestricted_null_unknown (properties : list string)
    (pre post : props) (k : string) :
  Forall (fun kv => flat (snd kv) = true /\ mem_str (fst kv) properties = true)
    pre ->
  mem_str k properties = false ->
  propertiesRestricted (VObj (pre ++ (k, VNull) :: post)) properties
  = Throw null_convert.
Proof.
  intros Hpre Hk. cbn [propertiesRestricted].
  induction Hpre as [|[k0 x0] pre [Hx Hm] _ IH]; cbn [app].
  - unfold restricted_step at 1. cbn [is_object typeof String.eqb isArray
      negb andb]. rewrite Hk. reflexivity.
  - unfold restricted_step at 1. cbn [fst snd] in Hx, Hm.
    unfold flat in Hx. apply negb_true_iff in Hx. rewrite Hx, Hm. exact IH.
Qed.


(** ** What [parse] leaves of a tree *)

Lemma same_tree_eq (s s' : Schema) :
  same_tree s s'
  <-> (name s' = name s /\ parent s' = parent s /\ type s' = type s
       /\ _settings s' = _settings s /\ _defaultValues s' = _defaultValues s
       /\ _validate s' = _validate s /\ _cast s' = _cast s)
      /\ Forall2 same_tree (children s) (children s').
Proof.
  destruct s as [nm par ty ct cs st ds dv vl cst].
  destruct s' as [nm' par' ty' ct' cs' st' ds' dv' vl' cst'].
  cbn [same_tree name parent type _settings _defaultValues _validate _cast
       children].
  assert (E : (fix all (cs cs' : list Schema) : Prop :=
                 match cs, cs' with
                 | [], [] => True
                 | c :: r, c' :: r' => same_tree c c' /\ all r r'
                 | _, _ => False
                 end) cs cs' <-> Forall2 same_tree cs cs').
  { clear. revert cs'. induction cs as [|c cs IH]; intros [|c' cs'].
    - split; [constructor | trivial].
    - split; [intros [] | intros H; inversion H].
    - split; [intros [] | intros H; inversion H].
    - split.
      + intros [Hc Hr]. constructor; [exact Hc | apply IH; exact Hr].
      + intros H. inversion H; subst. split; [assumption | apply IH; assumption]. }
  rewrite E. tauto.
Qed.

Lemma same_tree_refl : forall s, same_tree s s.
Proof.
  induction s as [s IH] using Schema_ind_children.
  apply same_tree_eq. split; [repeat split|].
  induction IH; constructor; assumption.
Qed.

Lemma same_tree_trans : forall a b c, same_tree a b -> same_tree b c -> same_tree a c.
Proof.
  induction a as [a IH] using Schema_ind_children.
  intros b c Hab Hbc. apply same_tree_eq in Hab, Hbc. apply same_tree_eq.
  destruct Hab as [(A1 & A2 & A3 & A4 & A5 & A6 & A7) Fab].
  destruct Hbc as [(B1 & B2 & B3 & B4 & B5 & B6 & B7) Fbc].
  split; [repeat split; congruence|].
  revert Fab Fbc IH. generalize (children a), (children b), (children c).
  intros la. induction la as [|x la IHl]; intros lb lc Fab Fbc IH.
  - inversion Fab; subst. inversion Fbc; subst. constructor.
  - inversion Fab as [|? y ? lb' Hxy Hr]; subst.
    inversion Fbc as [|? z ? lc' Hyz Hr']; subst.
    inversion IH as [|? ? Hx Hrest]; subst.
    constructor; [exact (Hx _ _ Hxy Hyz) | exact (IHl _ _ Hr Hr' Hrest)].
Qed.

Lemma same_leaf_tree (s s' : Schema) : same_leaf s s' -> same_tree s s'.
Proof.
  intros [ct [ds ->]]. apply same_tree_eq.
  destruct s as [nm par ty ct0 cs st ds0 dv vl cst]. split; [repeat split|].
  cbn [children set_currentType set_defaultSettings].
  induction cs; constructor; [apply same_tree_refl | assumption].
Qed.

Lemma same_tree_set_children (s : Schema) (cs' : list Schema) :
  Forall2 same_tree (children s) cs' -> same_tree s (set_children s cs').
Proof.
  intros H. apply same_tree_eq. split; [repeat split | exact H].
Qed.

Lemma replaceNamed_same (cs : list Schema) (p : string) (c c' : Schema) :
  List.find (fun x => String.eqb (name x) p) cs = Some c ->
  same_tree c c' ->
  Forall2 same_tree cs (replaceNamed cs p c').
Proof.
  intros Hf Hc. induction cs as [|x cs IH]; [discriminate|].
  cbn [List.find replaceNamed] in *.
  destruct (String.eqb (name x) p).
  - injection Hf as ->. constructor; [exact Hc|].
    clear. induction cs; constructor; [apply same_tree_refl | assumption].
  - constructor; [apply same_tree_refl | exact (IH Hf)].
Qed.

Lemma putSchemaAtPath_same (s c c' : Schema) (key : string) :
  schemaAtPath s key = Ok (Some c) -> same_tree c c' ->
  same_tree s (putSchemaAtPath s key c').
Proof.
  unfold schemaAtPath, putSchemaAtPath, childNamed.
  destruct (split_dots key) as [|path [|rest more]].
  - intros H Hc; injection H as H. apply same_tree_set_children.
    exact (replaceNamed_same _ _ _ _ H Hc).
  - intros H Hc; injection H as H. apply same_tree_set_children.
    exact (replaceNamed_same _ _ _ _ H Hc).
  - destruct (String.eqb rest "").
    + intros H Hc; injection H as H. apply same_tree_set_children.
      exact (replaceNamed_same _ _ _ _ H Hc).
    + destruct (List.find _ (children s)) as [schema|] eqn:E1; [|discriminate].
      intros H Hc; injection H as H. apply same_tree_set_children.
      apply (replaceNamed_same _ _ schema); [exact E1|].
      apply same_tree_set_children.
      exact (replaceNamed_same _ _ _ _ H Hc).
Qed.

Section Reuse.

Variable call : nat -> Schema -> value -> result value.
Variable render : string -> list error -> value -> option Schema -> string.
Variable display : value -> string.
Variable Transformers : string -> option Transformer.

Local Abbreviation parseProperty := (parseProperty call render display Transformers).
Local Abbreviation parse := (parse call render display Transformers).
Local Abbreviation touch := (touch Transformers).

Lemma runChildren_loop_tree (rec : Schema -> value -> M) (obj : value) :
  (forall c x r c', rec c x = Some (r, c') -> same_tree c c') ->
  forall names s ro errs r s',
    runChildren_loop rec s obj names ro errs = Some (r, s') ->
    same_tree s s'.
Proof.
  intros Hrec. induction names as [|n names IH]; intros s ro errs r s';
    cbn [runChildren_loop].
  - intros H; injection H as _ <-. apply same_tree_refl.
  - cbv zeta.
    destruct (schemaAtPath s (replace_dot_tail n)) as [[schema|]|e] eqn:Es.
    + destruct (rec schema _) as [[[val|err] schema']|] eqn:Er; [| |discriminate];
        intros H; apply IH in H;
        (eapply same_tree_trans; [|exact H]);
        exact (putSchemaAtPath_same s schema schema' _ Es (Hrec _ _ _ _ Er)).
    + destruct (is_object obj && negb (is_null obj));
        [intros H; injection H as _ <-; apply same_tree_refl | apply IH].
    + intros H; injection H as _ <-. apply same_tree_refl.
Qed.

Lemma runChildren_tree (rec : Schema -> value -> M) (s : Schema)
    (obj : value) (r : result value) (s' : Schema) :
  (forall c x r c', rec c x = Some (r, c') -> same_tree c c') ->
  runChildren render Transformers rec s obj = Some (r, s') ->
  same_tree s s'.
Proof.
  intros Hrec. unfold runChildren. cbv zeta.
  assert (Ht : same_tree s (touch s))
    by (apply same_leaf_tree, same_leaf_touch).
  destruct (negb _ && is_undefined obj);
    [intros H; injection H as _ <-; exact Ht|].
  destruct (runChildren_loop rec _ obj _ _ _) as [[[[ro errs]|e] s1]|] eqn:E;
    [| |discriminate];
    apply (runChildren_loop_tree rec obj Hrec) in E.
  - destruct errs; intros H; injection H as _ <-;
      exact (same_tree_trans _ _ _ Ht E).
  - intros H; injection H as _ <-. exact (same_tree_trans _ _ _ Ht E).
Qed.

(** X28: a parse leaves the schema tree as it was, but for the current
    type and the defaults object of its nodes: names, parents, types, own
    settings, default values, hooks and the children of every node, in
    their order, are those of before, so the schema can be used again. *)
Theorem parse_keeps_tree (fuel : nat) :
  forall s v r s', parse fuel s v = Some (r, s') -> same_tree s s'.
Proof.
  induction fuel as [|n IH]; intros s v r s'; [discriminate|].
  rewrite parse_S.
  set (m := if hasChildren s then _ else _).
  assert (Hm : forall r1 s1, m = Some (r1, s1) -> same_tree s s1).
  { subst m. intros r1 s1. destruct (hasChildren s).
    - apply runChildren_tree. exact IH.
    - intros H. apply parseProperty_same in H. apply same_leaf_tree. exact H. }
  destruct m as [[[v1|e] s1]|]; simpl; [| |discriminate].
  - specialize (Hm _ _ eq_refl).
    destruct (parent s1); [intros H; injection H as _ <-; exact Hm|].
    destruct (hook call (_cast s1) s1 v1);
      [|intros H; injection H as _ <-; exact Hm].
    destruct (hook call (_validate s1) s1 a);
      intros H; injection H as _ <-; exact Hm.
  - specialize (Hm _ _ eq_refl). intros H; injection H as _ <-. exact Hm.
Qed.

End Reuse.

(** X28 at the person schema and the input of the round-trip example. *)
Lemma parse_keeps_tree_witness :
  match Sample.parse 3 person ann with
  | Some (_, s') => same_tree person s'
  | None => False
  end.
Proof.
  destruct (Sample.parse 3 person ann) as [[r s']|] eqn:E;
    [|vm_compute in E; discriminate].
  exact (parse_keeps_tree Sample.call Sample.render Sample.display
           Sample.Transformers 3 person ann r s' E).
Defined.

(** ** When [find] throws *)

(** X29: on a value that is neither [undefined] nor [null], [find] throws
    in one case only: the path has a second segment that is not empty and
    the first segment is bound to [null].  A first segment that is missing
    or bound to something that is no object gives that value back. *)
Theorem find_throws (obj : value) (path : string) (e : error) :
  nullish obj = false ->
  (find obj path = Throw e
   <-> e = null_read
       /\ exists a b more,
            split_dots path = a :: b :: more /\ b <> ""
            /\ get obj a = VNull).
Proof.
  intros Hn. unfold find, read. rewrite Hn.
  destruct (split_dots path) as [|a [|b more]].
  - split; [discriminate | intros [_ [a [b [more [H _]]]]]; discriminate].
  - split; [discriminate | intros [_ [a' [b [more [H _]]]]]; discriminate].
  - destruct (String.eqb b "") eqn:Eb; cbn [negb andb].
    + split; [discriminate|].
      intros [_ [a' [b' [more' [H [Hb _]]]]]]. injection H as <- <- <-.
      apply String.eqb_eq in Eb. contradiction.
    + apply String.eqb_neq in Eb.
      destruct (get obj a) as [| |bo|n| |s|f r|items|ps] eqn:Eg;
        cbn [is_object typeof String.eqb Ascii.eqb Bool.eqb nullish
             is_undefined is_null orb];
        try (split; [discriminate|];
             intros [_ [a' [b' [more' [H [_ Hg]]]]]]; injection H as <- <- <-;
             rewrite Eg in Hg; discriminate).
      split.
      * intros H; injection H as <-. split; [reflexivity|].
        exists a, b, more. repeat split; assumption.
      * intros [-> _]. reflexivity.
Qed.

(** X29 at [{ address: null }] and [address.city]. *)
Lemma find_throws_witness :
  find (VObj [("address", VNull)]) "address.city" = Throw null_read.
Proof.
  apply (find_throws (VObj [("address", VNull)]) "address.city" null_read);
    [reflexivity|].
  split; [reflexivity|].
  exists "address", "city", [].
  split; [reflexivity | split; [discriminate | reflexivity]].
Defined.
(** ** An absent object *)

Section Absent.

Variable call : nat -> Schema -> value -> result value.
Variable render : string -> list error -> value -> option Schema -> string.
Variable display : value -> string.
Variable Transformers : string -> option Transformer.

Local Abbreviation parse := (parse call render display Transformers).

Lemma eachChild_ext (rec : Schema -> value -> M) (obj obj' : value)
    (cs : list Schema) :
  (forall c, inputOf obj c = inputOf obj' c) ->
  eachChild rec obj cs = eachChild rec obj' cs.
Proof.
  intros H. induction cs as [|c cs IH]; [reflexivity|].
  cbn [eachChild]. rewrite H, IH. reflexivity.
Qed.


End Absent.

